(** * A shallow embedding of forth_mini.c

    The C program keeps the whole interpreter in global variables: the
    data stack, a singly linked dictionary of [Word] records, the
    compilation buffer and the cursor into the current input line.  Here
    these globals are the fields of one [state] record, and every C
    function is a function from [state] to a [result] that also tells how
    the call ended: normally, with [exit(1)], or with behaviour that C
    leaves undefined.  The return stack, [rpush] and [rpop] are left out:
    no word of the dictionary calls them.

    Conventions of the embedding.  An [int] has 32 bits; [+], [-] and [*]
    on [int] wrap around in two's complement, as the usual targets do; the
    width of [long] and [intptr_t] is a parameter.  [malloc] and [realloc]
    succeed.  The text written by [printf] is collected in the field
    [out]. *)

From Stdlib Require Import ZArith List String Ascii Lia Bool.
From Stdlib Require Import DecimalString DecimalFacts DecimalPos.
From stdpp Require Import base list.
Import ListNotations.

Local Open Scope string_scope.
Local Open Scope Z_scope.

(** ** Machine integers *)

Definition STACK_SIZE : Z := 256.
Definition WORD_SIZE : Z := 32.

(** Two's complement reduction of [z] to a signed integer of [bits] bits. *)
Definition wrap (bits z : Z) : Z :=
  (z + 2 ^ (bits - 1)) mod 2 ^ bits - 2 ^ (bits - 1).

Definition INT_MIN : Z := - 2 ^ 31.
Definition INT_MAX : Z := 2 ^ 31 - 1.

(** Conversion to [int] (32 bits). *)
Definition to_int (z : Z) : Z := wrap 32 z.

(** The widths of [long] and [intptr_t] are fixed by the platform, not by
    the source; both major POSIX data models give them one common width. *)
Definition LP64 : Z := 64.

(** ** Characters and strings *)

Definition code_of (c : ascii) : Z := Z.of_N (N_of_ascii c).
Definition char_of (z : Z) : ascii := ascii_of_N (Z.to_N (z mod 256)).

(** [isspace] in the C locale. *)
Definition isspace (c : ascii) : bool :=
  let n := code_of c in (n =? 32) || ((9 <=? n) && (n <=? 13)).

Definition isdigit (c : ascii) : bool :=
  let n := code_of c in (48 <=? n) && (n <=? 57).

Definition tolower (c : ascii) : Z :=
  let n := code_of c in
  if (65 <=? n) && (n <=? 90) then n + 32 else n.

Fixpoint strcasecmp (a b : string) : Z :=
  match a, b with
  | EmptyString, EmptyString => 0
  | EmptyString, String d _ => 0 - tolower d
  | String c _, EmptyString => tolower c
  | String c a', String d b' =>
      if tolower c =? tolower d then strcasecmp a' b'
      else tolower c - tolower d
  end.

Fixpoint skip_space (s : string) : string :=
  match s with
  | String c r => if isspace c then skip_space r else s
  | EmptyString => s
  end.

(** The run of non-blank characters at the front of [s], and what follows. *)
Fixpoint span_token (s : string) : string * string :=
  match s with
  | String c r =>
      if isspace c then (EmptyString, s)
      else let '(t, rest) := span_token r in (String c t, rest)
  | EmptyString => (EmptyString, s)
  end.

(** The newline character. *)
Definition LF : string := String (ascii_of_nat 10) EmptyString.

(** [printf("%d", v)]. *)
Definition fmt_d (v : Z) : string := NilZero.string_of_int (Z.to_int v).

(** [strncpy(dst, src, WORD_SIZE-1); dst[WORD_SIZE-1] = 0]. *)
Fixpoint strncpy (n : nat) (s : string) : string :=
  match n, s with
  | S n', String c r => String c (strncpy n' r)
  | _, _ => EmptyString
  end.

(** ** The heap objects *)

(** A [Word*] is modelled by the allocation number of the entry it points
    to: the oldest entry is 0.  Entries are never freed, so a pointer
    stays valid for ever. *)
Definition ptr : Type := nat.

(** One slot of a compiled body, a [void*].  It is either an integer that
    was converted to a pointer, or a pointer to a dictionary entry; the
    latter comes from [malloc] and so has a clear low bit. *)
Inductive cell : Type :=
| CNum (bits : Z)
| CWord (w : ptr).

(** The native functions a [code] pointer may hold. *)
Inductive prim : Type :=
| p_add | p_sub | p_mul | p_divide | p_mod
| p_dup | p_drop | p_swap | p_over | p_rot
| p_emit | p_cr | p_dot | p_dots
| p_eq | p_lt | p_gt | p_and | p_or | p_not
| p_colon | p_semicolon.

(** [struct Word].  [data_len] is the length of the list under [data];
    [next] is the tail of the list the entry is the head of. *)
Record Word : Type := mkWord {
  name : string;
  is_immediate : bool;
  code : option prim;
  data : option (list cell)
}.

Definition data_len (w : Word) : Z :=
  match data w with Some b => Z.of_nat (length b) | None => 0 end.

(** ** The global variables *)

Record state : Type := mkState {
  stack : list Z;                       (* int stack[STACK_SIZE] *)
  sp : Z;
  dictionary : list Word;               (* newest entry first *)
  current_word : option ptr;
  compiling : bool;
  compile_buffer : option (list cell);  (* the first compile_pos slots *)
  compile_size : Z;
  input_ptr : string;
  out : string                          (* what was written to stdout *)
}.

Definition compile_pos (s : state) : Z :=
  match compile_buffer s with Some b => Z.of_nat (length b) | None => 0 end.

Definition set_stack (v : list Z) (s : state) : state :=
  mkState v (sp s) (dictionary s) (current_word s) (compiling s)
          (compile_buffer s) (compile_size s) (input_ptr s) (out s).
Definition set_sp (v : Z) (s : state) : state :=
  mkState (stack s) v (dictionary s) (current_word s) (compiling s)
          (compile_buffer s) (compile_size s) (input_ptr s) (out s).
Definition set_dictionary (v : list Word) (s : state) : state :=
  mkState (stack s) (sp s) v (current_word s) (compiling s)
          (compile_buffer s) (compile_size s) (input_ptr s) (out s).
Definition set_current_word (v : option ptr) (s : state) : state :=
  mkState (stack s) (sp s) (dictionary s) v (compiling s)
          (compile_buffer s) (compile_size s) (input_ptr s) (out s).
Definition set_compiling (v : bool) (s : state) : state :=
  mkState (stack s) (sp s) (dictionary s) (current_word s) v
          (compile_buffer s) (compile_size s) (input_ptr s) (out s).
Definition set_compile_buffer (v : option (list cell)) (s : state) : state :=
  mkState (stack s) (sp s) (dictionary s) (current_word s) (compiling s)
          v (compile_size s) (input_ptr s) (out s).
Definition set_compile_size (v : Z) (s : state) : state :=
  mkState (stack s) (sp s) (dictionary s) (current_word s) (compiling s)
          (compile_buffer s) v (input_ptr s) (out s).
Definition set_input_ptr (v : string) (s : state) : state :=
  mkState (stack s) (sp s) (dictionary s) (current_word s) (compiling s)
          (compile_buffer s) (compile_size s) v (out s).

(** [printf] of an already formatted text. *)
Definition printf (msg : string) (s : state) : state :=
  mkState (stack s) (sp s) (dictionary s) (current_word s) (compiling s)
          (compile_buffer s) (compile_size s) (input_ptr s)
          (String.append (out s) msg).

(** ** How a call ends *)

(** The behaviours C leaves undefined that the program can run into. *)
Inductive undefined : Type :=
| OutOfBounds      (* an array index outside the array *)
| DivisionByZero   (* [a / 0] and [a % 0] *)
| DivisionOverflow (* [INT_MIN / -1] and [INT_MIN % -1] *)
| BufferOverrun    (* a token longer than the array [sscanf] fills *)
| WildPointer.     (* a pointer that is null or was never allocated *)

Inductive result (A : Type) : Type :=
| Ok (a : A) (s : state)        (* the call returned *)
| Exit (status : Z) (s : state) (* [exit(status)] was called *)
| Undefined (u : undefined)
| OutOfFuel.                    (* the model's recursion bound was hit *)

Arguments Ok {A} a s.
Arguments Exit {A} status s.
Arguments Undefined {A} u.
Arguments OutOfFuel {A}.

Definition M (A : Type) : Type := state -> result A.

Definition ret {A} (a : A) : M A := fun s => Ok a s.

Definition bind {A B} (m : M A) (k : A -> M B) : M B :=
  fun s =>
    match m s with
    | Ok a s' => k a s'
    | Exit n s' => Exit n s'
    | Undefined u => Undefined u
    | OutOfFuel => OutOfFuel
    end.

Notation "'let*' x ':=' m 'in' k" := (bind m (fun x => k))
  (at level 10, x name, m at level 100, k at level 200).

Definition modify (f : state -> state) : M unit := fun s => Ok tt (f s).
Definition undef {A} (u : undefined) : M A := fun _ => Undefined u.

(** ** Stack operations *)

(** [stack[i]] as an rvalue. *)
Definition stack_read (i : Z) : M Z :=
  fun s =>
    if (0 <=? i) && (i <? STACK_SIZE) then
      match stack s !! Z.to_nat i with
      | Some v => Ok v s
      | None => Undefined OutOfBounds
      end
    else Undefined OutOfBounds.

(** [stack[i] = v]. *)
Definition stack_write (i v : Z) : M unit :=
  fun s =>
    if (0 <=? i) && (i <? STACK_SIZE) && (Z.to_nat i <? length (stack s))%nat
    then Ok tt (set_stack (<[Z.to_nat i := v]> (stack s)) s)
    else Undefined OutOfBounds.

Definition push (val : Z) : M unit :=
  fun s =>
    if sp s >=? STACK_SIZE then
      Exit 1 (printf ("Stack overflow!" ++ LF) s)
    else
      (let* _ := stack_write (sp s) val in modify (set_sp (sp s + 1))) s.

Definition pop : M Z :=
  fun s =>
    if sp s <=? 0 then
      Exit 1 (printf ("Stack underflow!" ++ LF) s)
    else
      (let* _ := modify (set_sp (sp s - 1)) in stack_read (sp s - 1)) s.

(** ** Primitive words *)

(** The body shared by the binary operators: [int b = pop(); int a = pop();
    push(f a b)]. *)
Definition binary (f : Z -> Z -> Z) : M unit :=
  let* b := pop in
  let* a := pop in
  push (f a b).

Definition flag (b : bool) : Z := if b then -1 else 0.

(** The primitives keep their C names inside a module of their own, since
    several of them ([eq], [and], [or], [not]) are names of the logic. *)
Module Prim.

Definition add : M unit := binary (fun a b => to_int (a + b)).
Definition sub : M unit := binary (fun a b => to_int (a - b)).
Definition mul : M unit := binary (fun a b => to_int (a * b)).

(** [a / b] and [a % b] have no defined result when [b] is 0, nor when the
    quotient does not fit an [int]; the source tests for neither. *)
Definition int_div (op : Z -> Z -> Z) (a b : Z) : M Z :=
  if b =? 0 then undef DivisionByZero
  else if (a =? INT_MIN) && (b =? -1) then undef DivisionOverflow
  else ret (op a b).

Definition divide : M unit :=
  let* b := pop in
  let* a := pop in
  let* q := int_div Z.quot a b in
  push q.

Definition mod_ : M unit :=
  let* b := pop in
  let* a := pop in
  let* r := int_div Z.rem a b in
  push r.

Definition dup : M unit :=
  fun s => (let* a := stack_read (sp s - 1) in push a) s.

Definition drop : M unit := let* _ := pop in ret tt.

Definition swap : M unit :=
  let* a := pop in
  let* b := pop in
  let* _ := push a in
  push b.

Definition over : M unit :=
  let* a := pop in
  let* b := pop in
  let* _ := push b in
  let* _ := push a in
  push b.

Definition rot : M unit :=
  let* c := pop in
  let* b := pop in
  let* a := pop in
  let* _ := push b in
  let* _ := push c in
  push a.

Definition emit : M unit :=
  let* c := pop in
  modify (printf (String (char_of c) EmptyString)).

Definition cr : M unit := modify (printf LF).

Definition dot : M unit :=
  let* v := pop in
  modify (printf (fmt_d v ++ " ")).

(** The loop of [dots]: [n] iterations are left and [i] is the index. *)
Fixpoint dots_loop (n : nat) (i : Z) : M unit :=
  match n with
  | O => ret tt
  | S n' =>
      let* v := stack_read i in
      let* _ := modify (printf (fmt_d v ++ " ")) in
      dots_loop n' (i + 1)
  end.

Definition dots : M unit :=
  fun s =>
    (let* _ := modify (printf ("<sp=" ++ fmt_d (sp s) ++ "> ")) in
     let* _ := dots_loop (Z.to_nat (sp s)) 0 in
     modify (printf LF)) s.

Definition eq : M unit := binary (fun a b => flag (a =? b)).
Definition lt : M unit := binary (fun a b => flag (a <? b)).
Definition gt : M unit := binary (fun a b => flag (a >? b)).
Definition and : M unit := binary Z.land.
Definition or : M unit := binary Z.lor.
Definition not : M unit := let* a := pop in push (Z.lnot a).

End Prim.

(** ** Dictionary operations *)

(** The entry a pointer refers to: the entry with [p] older entries
    behind it. *)
Fixpoint word_at (d : list Word) (p : ptr) : option Word :=
  match d with
  | [] => None
  | w :: older => if (p =? length older)%nat then Some w else word_at older p
  end.

(** [w->data = body; w->data_len = ...] for the entry [p] points to. *)
Fixpoint set_data (p : ptr) (body : option (list cell)) (d : list Word)
  : list Word :=
  match d with
  | [] => []
  | w :: older =>
      if (p =? length older)%nat
      then mkWord (name w) (is_immediate w) (code w) body :: older
      else w :: set_data p body older
  end.

Fixpoint find_word (nm : string) (d : list Word) : option ptr :=
  match d with
  | [] => None
  | w :: older =>
      if strcasecmp (name w) nm =? 0 then Some (length older)
      else find_word nm older
  end.

Definition new_word (nm : string) (c : option prim) (immediate : bool)
  : Word :=
  mkWord (strncpy (Z.to_nat (WORD_SIZE - 1)) nm) immediate c None.

Definition add_word (nm : string) (c : prim) (immediate : bool)
  (s : state) : state :=
  set_dictionary (new_word nm (Some c) immediate :: dictionary s) s.

(** ** Compilation *)

Definition start_compile (s : state) : state :=
  set_compiling true
    (set_compile_buffer (Some []) (set_compile_size 64 s)).

Definition compile_item (val : cell) : M unit :=
  fun s =>
    let size :=
      if compile_pos s >=? compile_size s
      then to_int (compile_size s * 2) else compile_size s in
    match compile_buffer s with
    | Some buf =>
        if compile_pos s <? size
        then Ok tt (set_compile_buffer (Some (buf ++ [val])%list)
                      (set_compile_size size s))
        else Undefined OutOfBounds
    | None => Undefined WildPointer
    end.

Definition end_compile (s : state) : state :=
  let s1 :=
    match current_word s with
    | Some p => set_dictionary (set_data p (compile_buffer s) (dictionary s)) s
    | None => s
    end in
  set_current_word None
    (set_compiling false
       (set_compile_size 0 (set_compile_buffer None s1))).

(** ** Reading tokens *)

(** [sscanf(src, "%s", buf)]: the token read, or [None] when the call does
    not return 1. *)
Definition sscanf_s (src : string) : option string :=
  match fst (span_token (skip_space src)) with
  | EmptyString => None
  | t => Some t
  end.

Fixpoint strstr (hay needle : string) : option string :=
  if String.prefix needle hay then Some hay
  else match hay with
       | String _ r => strstr r needle
       | EmptyString => None
       end.

Fixpoint str_drop (n : nat) (s : string) : string :=
  match n, s with
  | S n', String _ r => str_drop n' r
  | _, _ => s
  end.

(** [input_ptr = strstr(input_ptr, tok) + strlen(tok)]. *)
Definition advance (tok : string) : M unit :=
  fun s =>
    match strstr (input_ptr s) tok with
    | Some at_tok =>
        Ok tt (set_input_ptr (str_drop (String.length tok) at_tok) s)
    | None => Undefined WildPointer
    end.

(** Reads the next token into a [char[WORD_SIZE]] and moves the cursor
    behind it. *)
Definition next_token : M (option string) :=
  fun s =>
    match sscanf_s (input_ptr s) with
    | None => Ok None s
    | Some tok =>
        if Z.of_nat (String.length tok) >=? WORD_SIZE
        then Undefined BufferOverrun
        else (let* _ := advance tok in ret (Some tok)) s
    end.

(** ** Forth words for compilation *)

Definition colon : M unit :=
  let* t := next_token in
  match t with
  | None =>
      modify (printf ("Error: expected word name after ':'" ++ LF))
  | Some nm =>
      modify (fun s =>
        start_compile
          (set_current_word (Some (length (dictionary s)))
             (set_dictionary (new_word nm None false :: dictionary s) s)))
  end.

Definition semicolon : M unit :=
  fun s =>
    if negb (compiling s)
    then Ok tt (printf ("Error: ';' outside definition" ++ LF) s)
    else Ok tt (end_compile s).

(** The call [w->code()]. *)
Definition run_prim (p : prim) : M unit :=
  match p with
  | p_add => Prim.add | p_sub => Prim.sub | p_mul => Prim.mul
  | p_divide => Prim.divide | p_mod => Prim.mod_
  | p_dup => Prim.dup | p_drop => Prim.drop | p_swap => Prim.swap
  | p_over => Prim.over | p_rot => Prim.rot
  | p_emit => Prim.emit | p_cr => Prim.cr
  | p_dot => Prim.dot | p_dots => Prim.dots
  | p_eq => Prim.eq | p_lt => Prim.lt | p_gt => Prim.gt
  | p_and => Prim.and | p_or => Prim.or | p_not => Prim.not
  | p_colon => colon | p_semicolon => semicolon
  end.

(** ** Execution *)


(** [(int)((intptr_t)val >> 1)]. *)
Definition decode (v : Z) : Z := to_int (Z.shiftr v 1).

Section Body.
(** The recursive call of [execute_word]. *)
Variable exec : ptr -> M unit.

Definition execute_cell (val : cell) : M unit :=
  match val with
  | CNum v =>
      if Z.odd v then push (decode v)
      else undef WildPointer  (* an even integer used as a [Word*] *)
  | CWord w => exec w
  end.

(** [for (i = 0; i < w->data_len; i++)] over the slots of the body. *)
Fixpoint execute_body (body : list cell) : M unit :=
  match body with
  | [] => ret tt
  | val :: rest =>
      let* _ := execute_cell val in
      execute_body rest
  end.
End Body.

(** [fuel] bounds the depth of nested calls, which in C is bounded by the
    native call stack only. *)
Fixpoint execute_word (fuel : nat) (w : ptr) : M unit :=
  match fuel with
  | O => fun _ => OutOfFuel
  | S fuel' =>
      fun s =>
        match word_at (dictionary s) w with
        | None => Undefined WildPointer
        | Some entry =>
            match code entry with
            | Some f => run_prim f s
            | None =>
                match data entry with
                | Some body => execute_body (execute_word fuel') body s
                | None => Ok tt s
                end
            end
        end
  end.

(** ** The interpreter *)

(** The digits at the front of [s], read in base 10 on top of [acc]. *)
Fixpoint digits (acc : Z) (s : string) : Z * string :=
  match s with
  | String c r =>
      if isdigit c then digits (acc * 10 + (code_of c - 48)) r else (acc, s)
  | EmptyString => (acc, s)
  end.

Section DataModel.
(** The number of bits of [long] and of [intptr_t]. *)
Variable long_bits : Z.

Definition LONG_MIN : Z := - 2 ^ (long_bits - 1).
Definition LONG_MAX : Z := 2 ^ (long_bits - 1) - 1.

(** [strtol(nptr, &endptr, 10)]: the value and the text [endptr] is left
    at.  Without a digit nothing is converted and [endptr] is [nptr]; a
    value outside of [long] is replaced by the nearest bound. *)
Definition strtol (nptr : string) : Z * string :=
  let s := skip_space nptr in
  let '(neg, body) :=
    match s with
    | String c r =>
        if Ascii.eqb c "-" then (true, r)
        else if Ascii.eqb c "+" then (false, r)
        else (false, s)
    | EmptyString => (false, s)
    end in
  match body with
  | String c _ =>
      if isdigit c then
        let '(v, endptr) := digits 0 body in
        (Z.max LONG_MIN (Z.min LONG_MAX (if neg then - v else v)), endptr)
      else (0, nptr)
  | EmptyString => (0, nptr)
  end.

(** [(void* )((intptr_t)(num << 1) | 1)], the shift taken in [long]. *)
Definition tag (num : Z) : cell :=
  CNum (Z.lor (wrap long_bits (Z.shiftl num 1)) 1).

(** One turn of the [while] loop of [interpret] for the token [word];
    the answer tells whether the loop goes on. *)
Definition interpret_token (fuel : nat) (word : string) : M bool :=
  fun s =>
    let '(num, endptr) := strtol word in
    match endptr with
    | EmptyString =>
        (let* _ := (if compiling s then compile_item (tag num)
                    else push (to_int num)) in
         ret true) s
    | _ =>
        match find_word word (dictionary s) with
        | Some w =>
            let immediate :=
              match word_at (dictionary s) w with
              | Some entry => is_immediate entry
              | None => false
              end in
            (let* _ := (if compiling s && negb immediate
                        then compile_item (CWord w)
                        else execute_word fuel w) in
             ret true) s
        | None =>
            let s1 := printf ("Unknown word: " ++ word ++ LF) s in
            Ok false (if compiling s1 then end_compile s1 else s1)
        end
    end.

(** The [while] loop of [interpret], with a bound [n] on the number of
    turns.  Every turn consumes a token, so a bound above the number of
    characters left is never hit (see [interpret_loop_bound]). *)
Fixpoint interpret_loop (fuel : nat) (n : nat) : M unit :=
  match n with
  | O => fun _ => OutOfFuel
  | S n' =>
      let* t := next_token in
      match t with
      | None => ret tt
      | Some word =>
          let* continue := interpret_token fuel word in
          if continue : bool then interpret_loop fuel n' else ret tt
      end
  end.

Definition interpret (fuel : nat) (input_line : string) : M unit :=
  fun s =>
    interpret_loop fuel (S (String.length input_line))
      (set_input_ptr input_line s).
End DataModel.

(** ** Start-up *)

(** The globals as the loader sets them up. *)
Definition globals : state :=
  mkState (repeat 0 (Z.to_nat STACK_SIZE)) 0 [] None false None 0 "" "".

Definition init_forth (s : state) : state :=
  let s := add_word "+" p_add false s in
  let s := add_word "-" p_sub false s in
  let s := add_word "*" p_mul false s in
  let s := add_word "/" p_divide false s in
  let s := add_word "MOD" p_mod false s in
  let s := add_word "DUP" p_dup false s in
  let s := add_word "DROP" p_drop false s in
  let s := add_word "SWAP" p_swap false s in
  let s := add_word "OVER" p_over false s in
  let s := add_word "ROT" p_rot false s in
  let s := add_word "EMIT" p_emit false s in
  let s := add_word "CR" p_cr false s in
  let s := add_word "." p_dot false s in
  let s := add_word ".S" p_dots false s in
  let s := add_word "=" p_eq false s in
  let s := add_word "<" p_lt false s in
  let s := add_word ">" p_gt false s in
  let s := add_word "AND" p_and false s in
  let s := add_word "OR" p_or false s in
  let s := add_word "NOT" p_not false s in
  let s := add_word ":" p_colon false s in
  let s := add_word ";" p_semicolon true s in
  s.

(** The interpreter as [main] hands it to the first [interpret]. *)
Definition boot : state := init_forth globals.

(** Feeding several lines, one [interpret] each, as the loop of [main]
    does. *)
Fixpoint interpret_lines (long_bits : Z) (fuel : nat) (lines : list string)
  : M unit :=
  match lines with
  | [] => ret tt
  | l :: rest =>
      let* _ := interpret long_bits fuel l in
      interpret_lines long_bits fuel rest
  end.

(** The valid region of the data stack, bottom first. *)
Definition contents (s : state) : list Z :=
  firstn (Z.to_nat (sp s)) (stack s).

(** Pushing a list of values, first element first, and popping [n] values;
    the values popped are listed in the order they came off. *)
Fixpoint push_all (vs : list Z) : M unit :=
  match vs with
  | [] => ret tt
  | v :: rest => let* _ := push v in push_all rest
  end.

Fixpoint pop_n (n : nat) : M (list Z) :=
  match n with
  | O => ret []
  | S n' => let* v := pop in let* vs := pop_n n' in ret (v :: vs)
  end.

(** The array has its declared size and [sp] lies between its two ends. *)
Definition stack_ok (s : state) : Prop :=
  length (stack s) = Z.to_nat STACK_SIZE /\ 0 <= sp s <= STACK_SIZE.

(** * Notions the properties are stated with *)

(** The cells of a stack as [.S] lists them: each in decimal, followed by
    a blank. *)
Fixpoint show_cells (vs : list Z) : string :=
  match vs with
  | [] => ""
  | v :: rest => fmt_d v ++ " " ++ show_cells rest
  end.

(** The line [.S] is to write: the depth, then the cells from the bottom of
    the stack to its top. *)
Definition dots_text (s : state) : string :=
  "<sp=" ++ fmt_d (sp s) ++ "> " ++ show_cells (contents s) ++ LF.

(** The states at the head of the loop of [interpret]: the state [main]
    starts with, a state with a new line put under the cursor, and the
    state after one more token was read and processed. *)
Inductive reachable (lb : Z) : state -> Prop :=
| reach_boot : reachable lb boot
| reach_line s line :
    reachable lb s -> reachable lb (set_input_ptr line s)
| reach_token s fuel word s1 continue s2 :
    reachable lb s ->
    next_token s = Ok (Some word) s1 ->
    interpret_token lb fuel word s1 = Ok continue s2 ->
    reachable lb s2.

(** A body slot that is a literal or points to an entry that is not
    immediate. *)
Definition plain_cell (d : list Word) (c : cell) : Prop :=
  match c with
  | CNum _ => True
  | CWord p => exists e, word_at d p = Some e /\ is_immediate e = false
  end.

(** What holds of the dictionary and of the compiler in every state the
    interpreter can be in: the only immediate entries are entries of [;]
    with the code of [semicolon]; a lookup of [:] succeeds; the bodies and
    the compilation buffer hold no pointer to an immediate entry; while
    compiling there is a buffer, filled up to its capacity at most; and
    the word under definition is an entry without code and without
    body. *)
Record inv (s : state) : Prop := mkInv {
  inv_immediate : forall e,
    In e (dictionary s) -> is_immediate e = true ->
    name e = ";" /\ code e = Some p_semicolon;
  inv_colon : find_word ":" (dictionary s) <> None;
  inv_bodies : forall e body,
    In e (dictionary s) -> data e = Some body ->
    Forall (plain_cell (dictionary s)) body;
  inv_buffer : forall buf,
    compile_buffer s = Some buf -> Forall (plain_cell (dictionary s)) buf;
  inv_room :
    compiling s = true ->
    exists buf, compile_buffer s = Some buf /\ 0 < compile_size s /\
                Z.of_nat (length buf) <= compile_size s;
  inv_current : forall cw,
    current_word s = Some cw ->
    exists e, word_at (dictionary s) cw = Some e /\
              code e = None /\ data e = None
}.

(** An entry that has its code or its body. *)
Definition finished (e : Word) : Prop := code e <> None \/ data e <> None.

(** Every finished entry of [s] is found in [s'] under the same pointer,
    unchanged. *)
Definition extends (s s' : state) : Prop :=
  forall p e,
    word_at (dictionary s) p = Some e -> finished e ->
    word_at (dictionary s') p = Some e.

(** The part of the state the invariant speaks about. *)
Definition core (s : state)
  : list Word * bool * option (list cell) * Z * option ptr :=
  (dictionary s, compiling s, compile_buffer s, compile_size s,
   current_word s).

(** A computation that leaves the dictionary, the compiler and the cursor
    alone. *)
Definition keeps {A} (m : M A) : Prop :=
  forall s a s',
    m s = Ok a s' -> core s' = core s /\ input_ptr s' = input_ptr s.

(** A computation that moves the cursor forward only. *)
Definition reads {A} (m : M A) : Prop :=
  forall s a s',
    m s = Ok a s' ->
    (String.length (input_ptr s') <= String.length (input_ptr s))%nat.

(** A computation that keeps the invariant. *)
Definition preserves {A} (m : M A) : Prop :=
  forall s a s', inv s -> m s = Ok a s' -> inv s'.

(** A computation that leaves every finished entry as it is. *)
Definition grows {A} (m : M A) : Prop :=
  forall s a s', inv s -> m s = Ok a s' -> extends s s'.

(** The interpreter in the middle of the line [: X 1 ;], with [;] still to
    be read. *)
Definition after_colon_X_1 : state :=
  Eval vm_compute in
  match interpret LP64 1 ": X 1" boot with
  | Ok _ s => s
  | _ => boot
  end.

Definition compiling_X : state := set_input_ptr " ;" after_colon_X_1.

(** The interpreter after [: F 1 ;] and [: G F ;]. *)
Definition after_F_and_G : state :=
  Eval vm_compute in
  match interpret_lines LP64 1 [": F 1 ;"; ": G F ;"] boot with
  | Ok _ s => s
  | _ => boot
  end.

Ltac simpl_state :=
  cbn [stack sp dictionary current_word compiling compile_buffer
       compile_size input_ptr out printf set_stack set_sp set_dictionary
       set_current_word set_compiling set_compile_buffer set_compile_size
       set_input_ptr].

(** A text without blank characters. *)
Fixpoint blank_free (t : string) : bool :=
  match t with
  | EmptyString => true
  | String c r => negb (isspace c) && blank_free r
  end.

(** A text made of blank characters only. *)
Fixpoint blank (t : string) : bool :=
  match t with
  | EmptyString => true
  | String c r => isspace c && blank r
  end.

(** A text that is empty or starts with a blank character. *)
Definition token_end (r : string) : bool :=
  match r with
  | EmptyString => true
  | String c _ => isspace c
  end.

Ltac token_side := first [reflexivity | discriminate | assumption].

(** The value of a decimal numeral read from its first digit on, on top of
    [acc]. *)
Fixpoint uint_value (d : Decimal.uint) (acc : Z) : Z :=
  match d with
  | Decimal.Nil => acc
  | Decimal.D0 l => uint_value l (acc * 10 + 0)
  | Decimal.D1 l => uint_value l (acc * 10 + 1)
  | Decimal.D2 l => uint_value l (acc * 10 + 2)
  | Decimal.D3 l => uint_value l (acc * 10 + 3)
  | Decimal.D4 l => uint_value l (acc * 10 + 4)
  | Decimal.D5 l => uint_value l (acc * 10 + 5)
  | Decimal.D6 l => uint_value l (acc * 10 + 6)
  | Decimal.D7 l => uint_value l (acc * 10 + 7)
  | Decimal.D8 l => uint_value l (acc * 10 + 8)
  | Decimal.D9 l => uint_value l (acc * 10 + 9)
  end.

(** * Further notions, and the rest of the program *)

(** Everything in the state but the data stack. *)
Definition rest (s : state)
  : list Word * bool * option (list cell) * Z * option ptr * string * string :=
  (core s, input_ptr s, out s).

(** A computation that, run on a stack that ends with [pre], returns with
    [post] in the place of [pre] and everything else as it was, provided
    the result fits the array. *)
Definition stack_effect (m : M unit) (pre post : list Z) : Prop :=
  forall s base,
    stack_ok s -> contents s = (base ++ pre)%list ->
    Z.of_nat (length (base ++ post)%list) <= STACK_SIZE ->
    exists s',
      m s = Ok tt s' /\ stack_ok s' /\
      contents s' = (base ++ post)%list /\ rest s' = rest s.

(** The operation of each primitive that takes two operands and leaves one
    result: [a] is the operand pushed first, [b] the one on top. *)
Definition binary_op (p : prim) : option (Z -> Z -> Z) :=
  match p with
  | p_add => Some (fun a b => to_int (a + b))
  | p_sub => Some (fun a b => to_int (a - b))
  | p_mul => Some (fun a b => to_int (a * b))
  | p_eq => Some (fun a b => if a =? b then -1 else 0)
  | p_lt => Some (fun a b => if a <? b then -1 else 0)
  | p_gt => Some (fun a b => if a >? b then -1 else 0)
  | p_and => Some Z.land
  | p_or => Some Z.lor
  | _ => None
  end.

(** The number of cells a primitive takes off the stack before it pushes
    anything. *)
Definition arity (p : prim) : nat :=
  match p with
  | p_add | p_sub | p_mul | p_divide | p_mod => 2
  | p_eq | p_lt | p_gt | p_and | p_or => 2
  | p_swap | p_over => 2
  | p_rot => 3
  | p_dup | p_drop | p_emit | p_dot | p_not => 1
  | p_cr | p_dots | p_colon | p_semicolon => 0
  end.

(** The data stack with 7 and 3 on it, and with 1, 2 and 3 on it. *)
Definition stack_7_3 : state :=
  Eval vm_compute in
  match interpret LP64 1 "7 3" boot with Ok _ s => s | _ => boot end.

Definition stack_1_2_3 : state :=
  Eval vm_compute in
  match interpret LP64 1 "1 2 3" boot with Ok _ s => s | _ => boot end.

(** The data stack with the flags true and false on it. *)
Definition stack_flags : state :=
  Eval vm_compute in
  match interpret LP64 1 "-1 0" boot with Ok _ s => s | _ => boot end.

(** The data stack with [INT_MIN] and -1 on it. *)
Definition stack_int_min_m1 : state :=
  Eval vm_compute in
  match interpret LP64 1 "-2147483648 -1" boot with
  | Ok _ s => s
  | _ => boot
  end.

(** A data stack filled to the last cell. *)
Definition full_stack : state := set_sp STACK_SIZE boot.

(** The codes [strcasecmp] compares: those of the characters, with the
    upper-case letters replaced by the lower-case ones. *)
Fixpoint fold_case (t : string) : list Z :=
  match t with
  | EmptyString => []
  | String c r => tolower c :: fold_case r
  end.

(** What identifies an entry apart from its body. *)
Definition header (w : Word) : string * bool * option prim :=
  (name w, is_immediate w, code w).

(** The dictionary of [s'] is the dictionary of [s] with entries put in
    front of it, bodies apart. *)
Definition older (s s' : state) : Prop :=
  exists newer,
    map header (dictionary s') = (newer ++ map header (dictionary s))%list.

(** A computation that only puts entries in front of the dictionary. *)
Definition retains {A} (m : M A) : Prop :=
  forall s a s', m s = Ok a s' -> older s s'.

(** The interpreter after the line [: X X ;]. *)
Definition after_X_X : state :=
  Eval vm_compute in
  match interpret LP64 1 ": X X ;" boot with
  | Ok _ s => s
  | _ => boot
  end.

(** A computation that leaves [sp] between the two ends of the array. *)
Definition bounded {A} (m : M A) : Prop :=
  forall s a s', stack_ok s -> m s = Ok a s' -> stack_ok s'.

(** A body slot the loop of [execute_word] can follow: an odd integer, or
    a pointer to one of the [n] entries allocated so far. *)
Definition cell_ok (n : nat) (c : cell) : Prop :=
  match c with
  | CNum v => Z.odd v = true
  | CWord p => (p < n)%nat
  end.

(** The bodies and the compilation buffer hold such slots only; and while
    a definition is compiled there is a buffer, whose capacity is 64
    doubled a number of times, 2^30 at most, and not less than the number
    of slots filled. *)
Record sound (s : state) : Prop := mkSound {
  sound_bodies : forall e body,
    In e (dictionary s) -> data e = Some body ->
    Forall (cell_ok (length (dictionary s))) body;
  sound_buffer : forall buf,
    compile_buffer s = Some buf ->
    Forall (cell_ok (length (dictionary s))) buf;
  sound_room : compiling s = true -> compile_buffer s <> None;
  sound_size :
    compiling s = true ->
    exists k : nat,
      compile_size s = 64 * 2 ^ Z.of_nat k /\ compile_size s <= 2 ^ 30 /\
      compile_pos s <= compile_size s
}.

(** The outcome [r] of a call made in the state [s] is not the use of a
    null or wild pointer, and a state it returns is sound again, with no
    entry less. *)
Definition fine {A} (s : state) (r : result A) : Prop :=
  match r with
  | Ok _ s' =>
      sound s' /\ (length (dictionary s) <= length (dictionary s'))%nat
  | Undefined u => u <> WildPointer
  | _ => True
  end.

Definition tame {A} (m : M A) : Prop :=
  forall s, sound s -> fine s (m s).

(** A computation whose undefined behaviours, on a stack pointer within
    the array, all satisfy [P]. *)
Definition only {A} (P : undefined -> Prop) (m : M A) : Prop :=
  forall s u, stack_ok s -> m s = Undefined u -> P u.

(** No undefined behaviour, and the two of a division. *)
Definition never (u : undefined) : Prop := False.
Definition of_division (u : undefined) : Prop :=
  u = DivisionByZero \/ u = DivisionOverflow.

(** The exact result the arithmetic primitives compute in [int]: where it
    is outside of [int] the C operation overflows, which the language
    leaves undefined and the model takes as wrap-around. *)
Definition exact_op (p : prim) : option (Z -> Z -> Z) :=
  match p with
  | p_add => Some Z.add
  | p_sub => Some Z.sub
  | p_mul => Some Z.mul
  | _ => None
  end.

(** The data stack with [INT_MAX] and 1 on it. *)
Definition stack_int_max_1 : state :=
  Eval vm_compute in
  match interpret LP64 1 "2147483647 1" boot with Ok _ s => s | _ => boot end.

(** ** The session *)

Definition INPUT_SIZE : Z := 256.

(** [fgets(input, n + 1, stdin)] on what is left of the standard input,
    which is not empty: the characters stored, up to the first newline,
    that included, and [n] at most; and what is left to read then. *)
Fixpoint fgets (n : nat) (stdin : string) : string * string :=
  match n, stdin with
  | S n', String c r =>
      if Ascii.eqb c (ascii_of_nat 10) then (String c EmptyString, r)
      else let '(l, rest) := fgets n' r in (String c l, rest)
  | _, _ => (EmptyString, stdin)
  end.

(** [input[strcspn(input, "\n")] = 0]: the string [input] then holds, which
    ends before the first newline or null character that was stored. *)
Fixpoint cut_newline (buf : string) : string :=
  match buf with
  | String c r =>
      if Ascii.eqb c (ascii_of_nat 10) || Ascii.eqb c (ascii_of_nat 0)
      then EmptyString
      else String c (cut_newline r)
  | EmptyString => EmptyString
  end.

(** The prompt: [compiling ? "... " : "ok> "]. *)
Definition prompt (s : state) : string :=
  if compiling s then "... " else "ok> ".

(** The loop of [main] on the standard input [stdin], which returns the
    status [main] returns.  [n] bounds the number of turns; every turn
    reads a character at least, so a bound above the length of [stdin] is
    never hit. *)
Fixpoint main_loop (long_bits : Z) (fuel : nat) (n : nat) (stdin : string)
  : M Z :=
  match n with
  | O => fun _ => OutOfFuel
  | S n' =>
      fun s =>
        let s1 := printf (prompt s) s in
        match stdin with
        | EmptyString => Ok 0 s1        (* [fgets] returns a null pointer *)
        | _ =>
            let '(buf, rest) := fgets (Z.to_nat (INPUT_SIZE - 1)) stdin in
            let input := cut_newline buf in
            if String.eqb input "exit" then Ok 0 s1
            else (let* _ := interpret long_bits fuel input in
                  main_loop long_bits fuel n' rest) s1
        end
  end.

Definition main (long_bits : Z) (fuel : nat) (stdin : string) : result Z :=
  let s := init_forth globals in
  let s := printf ("Simple Forth Interpreter" ++ LF) s in
  let s := printf ("Type 'exit' to quit" ++ LF ++ LF) s in
  main_loop long_bits fuel (S (String.length stdin)) stdin s.

(** The lines of a text, each with its newline. *)
Fixpoint unlines (lines : list string) : string :=
  match lines with
  | [] => ""
  | l :: rest => l ++ LF ++ unlines rest
  end.

(** A line [fgets] reads in one piece and [main] hands to [interpret]:
    it has neither a newline nor a null character, fits the array together
    with its newline, and is not the word that ends the session. *)
Fixpoint no_break (l : string) : bool :=
  match l with
  | EmptyString => true
  | String c r =>
      negb (Ascii.eqb c (ascii_of_nat 10) || Ascii.eqb c (ascii_of_nat 0))
      && no_break r
  end.

Definition plain_line (l : string) : bool :=
  no_break l && (Z.of_nat (String.length l) <? INPUT_SIZE - 1)
  && negb (String.eqb l "exit").

(** A session told line by line: the prompt, then the line interpreted,
    and one more prompt when the input has come to its end. *)
Fixpoint session (long_bits : Z) (fuel : nat) (lines : list string) : M Z :=
  match lines with
  | [] => fun s => Ok 0 (printf (prompt s) s)
  | l :: rest =>
      fun s =>
        (let* _ := interpret long_bits fuel l in
         session long_bits fuel rest) (printf (prompt s) s)
  end.

(** ** What was printed *)

(** The state [s] had [pre] been printed before everything else, and the
    state [s] had nothing been printed. *)
Definition before (pre : string) (s : state) : state :=
  mkState (stack s) (sp s) (dictionary s) (current_word s) (compiling s)
          (compile_buffer s) (compile_size s) (input_ptr s)
          (String.append pre (out s)).

Definition mute (s : state) : state :=
  mkState (stack s) (sp s) (dictionary s) (current_word s) (compiling s)
          (compile_buffer s) (compile_size s) (input_ptr s) "".

(** A change of the state applied to the state a call ends in. *)
Definition lift {A} (f : state -> state) (r : result A) : result A :=
  match r with
  | Ok a s => Ok a (f s)
  | Exit n s => Exit n (f s)
  | Undefined u => Undefined u
  | OutOfFuel => OutOfFuel
  end.

(** How a call ends, what it returned and what was printed left out. *)
Definition erase {A} (r : result A) : result unit :=
  match r with
  | Ok _ s => Ok tt (mute s)
  | Exit n s => Exit n (mute s)
  | Undefined u => Undefined u
  | OutOfFuel => OutOfFuel
  end.

(** A computation that does not look at what was printed. *)
Definition quiet {A} (m : M A) : Prop :=
  forall pre s, m (before pre s) = lift (before pre) (m s).

(** A line of 255 characters with the digits [12] at its end, and the
    input that goes on with the digit [3]. *)
Definition line_of_255 : string :=
  Eval vm_compute in
  string_of_list_ascii (repeat " "%char 253) ++ "12".

(** ** The return stack *)

(** [rstack] and [rsp], which no word of the interpreter uses, and what
    [rpush] and [rpop] have printed. *)
Record rstate : Type := mkRstate {
  rstack : list Z;                      (* int rstack[STACK_SIZE] *)
  rsp : Z;
  rout : string
}.

Inductive rresult (A : Type) : Type :=
| ROk (a : A) (r : rstate)
| RExit (status : Z) (r : rstate)
| RUndefined (u : undefined).

Arguments ROk {A} a r.
Arguments RExit {A} status r.
Arguments RUndefined {A} u.

Definition rprintf (msg : string) (r : rstate) : rstate :=
  mkRstate (rstack r) (rsp r) (String.append (rout r) msg).

Definition rpush (val : Z) (r : rstate) : rresult unit :=
  if rsp r >=? STACK_SIZE then
    RExit 1 (rprintf ("Return stack overflow!" ++ LF) r)
  else if (0 <=? rsp r) && (Z.to_nat (rsp r) <? length (rstack r))%nat then
    ROk tt (mkRstate (<[Z.to_nat (rsp r) := val]> (rstack r)) (rsp r + 1)
              (rout r))
  else RUndefined OutOfBounds.

Definition rpop (r : rstate) : rresult Z :=
  if rsp r <=? 0 then
    RExit 1 (rprintf ("Return stack underflow!" ++ LF) r)
  else if rsp r - 1 <? STACK_SIZE then
    match rstack r !! Z.to_nat (rsp r - 1) with
    | Some v => ROk v (mkRstate (rstack r) (rsp r - 1) (rout r))
    | None => RUndefined OutOfBounds
    end
  else RUndefined OutOfBounds.

(** The return stack as the loader sets it up. *)
Definition rglobals : rstate :=
  mkRstate (repeat 0 (Z.to_nat STACK_SIZE)) 0 "".

Definition rstack_ok (r : rstate) : Prop :=
  length (rstack r) = Z.to_nat STACK_SIZE /\ 0 <= rsp r <= STACK_SIZE.

(** ** Definitions token by token *)

(** The slot the token [t] is compiled to when the dictionary is [d]: a
    tagged number, or a pointer to the entry the name finds, unless that
    is immediate. *)
Definition cell_of (long_bits : Z) (d : list Word) (t : string)
  : option cell :=
  match snd (strtol long_bits t) with
  | EmptyString => Some (tag long_bits (fst (strtol long_bits t)))
  | _ =>
      match find_word t d with
      | Some w =>
          match word_at d w with
          | Some e => if is_immediate e then None else Some (CWord w)
          | None => None
          end
      | None => None
      end
  end.

(** A text [sscanf] reads as one token that fits the array. *)
Definition token_ok (t : string) : Prop :=
  t <> "" /\ blank_free t = true /\ Z.of_nat (String.length t) < WORD_SIZE.

(** The tokens of a line, each after one blank. *)
Fixpoint line_of (ts : list string) : string :=
  match ts with
  | [] => ""
  | t :: rest => " " ++ t ++ line_of rest
  end.

(** The interpreter after the line [: X 1 2 3 ;]. *)
Definition after_X_1_2_3 : state :=
  Eval vm_compute in
  match interpret LP64 1 ": X 1 2 3 ;" boot with
  | Ok _ s => s
  | _ => boot
  end.

(** * Properties *)

(** ** The data stack *)

Lemma stack_ok_boot : stack_ok boot.
Proof.
  split; [reflexivity|]. change (sp boot) with 0. unfold STACK_SIZE. lia.
Qed.

Lemma push_ok s v :
  stack_ok s -> sp s < STACK_SIZE ->
  push v s =
  Ok tt (set_sp (sp s + 1) (set_stack (<[Z.to_nat (sp s) := v]> (stack s)) s)).
Proof.
  intros [Hlen Hsp] Hroom. unfold push, bind, stack_write, modify.
  destruct (Z.geb_spec (sp s) STACK_SIZE) as [?|_]; [lia|].
  replace ((0 <=? sp s) && (sp s <? STACK_SIZE)) with true
    by (symmetry; apply andb_true_iff; split; [apply Z.leb_le|apply Z.ltb_lt]; lia).
  replace (Z.to_nat (sp s) <? length (stack s))%nat with true
    by (symmetry; apply Nat.ltb_lt; rewrite Hlen; unfold STACK_SIZE in *; lia).
  reflexivity.
Qed.

Lemma pop_ok s :
  stack_ok s -> 0 < sp s ->
  exists v, stack s !! Z.to_nat (sp s - 1) = Some v /\
            pop s = Ok v (set_sp (sp s - 1) s).
Proof.
  intros [Hlen Hsp] Hpos.
  destruct (lookup_lt_is_Some_2 (stack s) (Z.to_nat (sp s - 1))) as [v Hv].
  { rewrite Hlen. unfold STACK_SIZE in *. lia. }
  exists v. split; [exact Hv|].
  unfold pop, bind, modify, stack_read.
  destruct (Z.leb_spec (sp s) 0) as [?|_]; [lia|].
  cbn [sp set_sp stack].
  replace ((0 <=? sp s - 1) && (sp s - 1 <? STACK_SIZE)) with true
    by (symmetry; apply andb_true_iff; split; [apply Z.leb_le|apply Z.ltb_lt]; lia).
  rewrite Hv. reflexivity.
Qed.

Lemma pop_empty s :
  sp s <= 0 -> pop s = Exit 1 (printf ("Stack underflow!" ++ LF) s).
Proof.
  intros H. unfold pop. destruct (Z.leb_spec (sp s) 0); [reflexivity|lia].
Qed.

Lemma push_full s v :
  STACK_SIZE <= sp s -> push v s = Exit 1 (printf ("Stack overflow!" ++ LF) s).
Proof.
  intros H. unfold push. destruct (Z.geb_spec (sp s) STACK_SIZE); [reflexivity|lia].
Qed.

Lemma stack_ok_push s v :
  stack_ok s -> sp s < STACK_SIZE ->
  stack_ok (set_sp (sp s + 1) (set_stack (<[Z.to_nat (sp s) := v]> (stack s)) s)).
Proof.
  intros [Hlen Hsp] Hroom. split; cbn [stack sp set_sp set_stack].
  - rewrite length_insert. exact Hlen.
  - lia.
Qed.

Lemma stack_ok_pop s :
  stack_ok s -> 0 < sp s -> stack_ok (set_sp (sp s - 1) s).
Proof. intros [Hlen Hsp] Hpos. split; cbn [stack sp set_sp]; [exact Hlen|lia]. Qed.

Lemma contents_push s v :
  stack_ok s -> sp s < STACK_SIZE ->
  contents (set_sp (sp s + 1) (set_stack (<[Z.to_nat (sp s) := v]> (stack s)) s))
  = (contents s ++ [v])%list.
Proof.
  intros [Hlen Hsp] Hroom. unfold contents. cbn [stack sp set_sp set_stack].
  replace (Z.to_nat (sp s + 1)) with (S (Z.to_nat (sp s))) by lia.
  erewrite take_S_r.
  - rewrite take_insert_ge by lia. reflexivity.
  - apply list_lookup_insert_eq. rewrite Hlen. unfold STACK_SIZE in *. lia.
Qed.

Lemma contents_pop s v :
  stack_ok s -> 0 < sp s ->
  stack s !! Z.to_nat (sp s - 1) = Some v ->
  contents s = (contents (set_sp (sp s - 1) s) ++ [v])%list.
Proof.
  intros [Hlen Hsp] Hpos Hv. unfold contents. cbn [stack sp set_sp].
  replace (Z.to_nat (sp s)) with (S (Z.to_nat (sp s - 1))) by lia.
  apply take_S_r. exact Hv.
Qed.

Lemma push_all_ok vs : forall s,
  stack_ok s -> sp s + Z.of_nat (length vs) <= STACK_SIZE ->
  exists s1, push_all vs s = Ok tt s1 /\ stack_ok s1 /\
             sp s1 = sp s + Z.of_nat (length vs) /\
             contents s1 = (contents s ++ vs)%list.
Proof.
  induction vs as [|v vs IH]; intros s Hok Hroom; cbn [push_all length] in *.
  - exists s. rewrite app_nil_r. repeat split; try apply Hok. cbn. lia.
  - assert (Hlt : sp s < STACK_SIZE) by lia.
    unfold bind. rewrite (push_ok s v Hok Hlt).
    destruct (IH _ (stack_ok_push s v Hok Hlt)) as (s1 & Hrun & Hok1 & Hsp1 & Hc1).
    { cbn [sp set_sp]. lia. }
    exists s1. rewrite Hrun, Hsp1, Hc1, (contents_push s v Hok Hlt), <- app_assoc.
    cbn [sp set_sp]. repeat split; try apply Hok1. lia.
Qed.

Lemma pop_n_ok vs : forall s base,
  stack_ok s -> contents s = (base ++ vs)%list ->
  pop_n (length vs) s = Ok (rev vs) (set_sp (sp s - Z.of_nat (length vs)) s).
Proof.
  induction vs as [|x vs IH] using rev_ind; intros s base Hok Hc.
  - cbn [pop_n length rev]. unfold ret. change (Z.of_nat 0) with 0.
    rewrite Z.sub_0_r. destruct s; reflexivity.
  - assert (Hpos : 0 < sp s).
    { destruct (Z.lt_trichotomy 0 (sp s)) as [?|[E|?]]; [assumption| |destruct Hok; lia].
      unfold contents in Hc. rewrite <- E in Hc. cbn in Hc.
      destruct base; destruct vs; discriminate. }
    destruct (pop_ok s Hok Hpos) as (v & Hv & Hpop).
    rewrite (contents_pop s v Hok Hpos Hv), app_assoc in Hc.
    apply app_inj_tail in Hc as [Hc ->].
    rewrite length_app, Nat.add_comm, rev_app_distr. cbn [length Nat.add rev app pop_n].
    unfold bind at 1. rewrite Hpop.
    unfold bind at 1. rewrite (IH _ base (stack_ok_pop s Hok Hpos) Hc).
    unfold ret. cbn [sp set_sp]. f_equal.
    replace (sp s - 1 - Z.of_nat (length vs)) with (sp s - Z.of_nat (S (length vs))) by lia.
    reflexivity.
Qed.

(** C8.  The data stack is last-in first-out.  After any pushes [vs] that
    leave room for one more value, [pop] straight after [push v] returns
    [v] and leaves the depth and the contents as they were before that
    push.  When the pushes started on an empty stack, popping as many
    values as were pushed returns them in reverse order, and the next
    [pop] prints the underflow message and exits with status 1. *)
Theorem lifo_law s vs v :
  stack_ok s -> sp s + Z.of_nat (length vs) < STACK_SIZE ->
  exists s1 s2 s3,
    push_all vs s = Ok tt s1 /\ contents s1 = (contents s ++ vs)%list /\
    push v s1 = Ok tt s2 /\ pop s2 = Ok v s3 /\
    sp s3 = sp s1 /\ contents s3 = contents s1 /\
    (sp s = 0 ->
     exists s4, pop_n (length vs) s3 = Ok (rev vs) s4 /\ sp s4 = 0 /\
                pop s4 = Exit 1 (printf ("Stack underflow!" ++ LF) s4)).
Proof.
  intros Hok Hroom.
  destruct (push_all_ok vs s Hok) as (s1 & Hrun & Hok1 & Hsp1 & Hc1); [lia|].
  assert (Hlt : sp s1 < STACK_SIZE) by lia.
  pose proof (stack_ok_push s1 v Hok1 Hlt) as Hok2.
  destruct (pop_ok _ Hok2) as (v' & Hv' & Hpop); [cbn [sp set_sp]; destruct Hok1; lia|].
  cbn [sp set_sp stack set_stack] in Hv', Hpop.
  replace (sp s1 + 1 - 1) with (sp s1) in Hv', Hpop by lia.
  rewrite list_lookup_insert_eq in Hv'
    by (destruct Hok1 as [-> ?]; unfold STACK_SIZE in *; lia).
  injection Hv' as <-.
  eexists s1, _, _. split; [exact Hrun|]. split; [exact Hc1|].
  split; [apply (push_ok s1 v Hok1 Hlt)|]. split; [exact Hpop|].
  assert (Hc3 : contents (set_sp (sp s1)
                  (set_stack (<[Z.to_nat (sp s1) := v]> (stack s1)) s1)) = contents s1).
  { unfold contents. cbn [sp set_sp stack set_stack]. apply take_insert_ge. lia. }
  split; [reflexivity|]. split; [exact Hc3|].
  intros Hempty.
  assert (Hok3 : stack_ok (set_sp (sp s1)
                  (set_stack (<[Z.to_nat (sp s1) := v]> (stack s1)) s1))).
  { destruct Hok1 as [Hl Hs]. split; cbn [sp set_sp stack set_stack];
      [rewrite length_insert; exact Hl | exact Hs]. }
  eexists. split.
  - apply (pop_n_ok vs _ (contents s) Hok3). rewrite Hc3. exact Hc1.
  - cbn [sp set_sp]. split; [lia|]. apply pop_empty. cbn [sp set_sp]. lia.
Qed.

Lemma lifo_law_witness :
  exists s1 s2 s3,
    push_all [7; 8] boot = Ok tt s1 /\ contents s1 = (contents boot ++ [7; 8])%list /\
    push 9 s1 = Ok tt s2 /\ pop s2 = Ok 9 s3 /\
    sp s3 = sp s1 /\ contents s3 = contents s1 /\
    (sp boot = 0 ->
     exists s4, pop_n (length [7; 8]) s3 = Ok (rev [7; 8]) s4 /\ sp s4 = 0 /\
                pop s4 = Exit 1 (printf ("Stack underflow!" ++ LF) s4)).
Proof.
  apply (lifo_law boot [7; 8] 9).
  - exact stack_ok_boot.
  - vm_compute. reflexivity.
Defined.

(** ** Text written to the output *)

Lemma append_nil_r (a : string) : a ++ "" = a.
Proof. induction a as [|c a IH]; cbn; [reflexivity | rewrite IH; reflexivity]. Qed.

Lemma append_assoc (a b c : string) : (a ++ b) ++ c = a ++ (b ++ c).
Proof. induction a as [|x a IH]; cbn; [reflexivity | rewrite IH; reflexivity]. Qed.

Lemma length_append (a b : string) :
  String.length (a ++ b) = (String.length a + String.length b)%nat.
Proof. induction a as [|x a IH]; cbn; [reflexivity | rewrite IH; reflexivity]. Qed.

Lemma printf_nil s : printf "" s = s.
Proof. unfold printf. rewrite append_nil_r. destruct s; reflexivity. Qed.

Lemma printf_printf a b s : printf b (printf a s) = printf (a ++ b) s.
Proof. unfold printf. cbn. rewrite append_assoc. reflexivity. Qed.

Lemma stack_read_ok s i v :
  0 <= i < STACK_SIZE -> stack s !! Z.to_nat i = Some v ->
  stack_read i s = Ok v s.
Proof.
  intros Hi Hv. unfold stack_read.
  replace ((0 <=? i) && (i <? STACK_SIZE)) with true
    by (symmetry; apply andb_true_iff; split; [apply Z.leb_le|apply Z.ltb_lt]; lia).
  rewrite Hv. reflexivity.
Qed.

Lemma dots_loop_ok n : forall i s,
  stack_ok s -> 0 <= i -> i + Z.of_nat n <= STACK_SIZE ->
  Prim.dots_loop n i s =
  Ok tt (printf (show_cells (take n (drop (Z.to_nat i) (stack s)))) s).
Proof.
  induction n as [|n IH]; intros i s Hok Hi Hn.
  - cbn. rewrite printf_nil. reflexivity.
  - destruct (lookup_lt_is_Some_2 (stack s) (Z.to_nat i)) as [v Hv].
    { destruct Hok as [-> _]. unfold STACK_SIZE in *. lia. }
    cbn [Prim.dots_loop]. unfold bind at 1.
    rewrite (stack_read_ok s i v) by (try exact Hv; lia).
    unfold bind at 1, modify at 1. rewrite IH.
    + cbn [stack printf]. rewrite (drop_S _ _ _ Hv).
      replace (Z.to_nat (i + 1)) with (S (Z.to_nat i)) by lia.
      cbn [take show_cells]. fold (printf (fmt_d v ++ " ") s).
      rewrite printf_printf, append_assoc. reflexivity.
    + exact Hok.
    + lia.
    + lia.
Qed.

Lemma dots_ok s : stack_ok s -> Prim.dots s = Ok tt (printf (dots_text s) s).
Proof.
  intros Hok. unfold Prim.dots. unfold bind at 1, modify at 1.
  unfold bind at 1. rewrite dots_loop_ok.
  - unfold modify. cbn [stack printf sp]. f_equal.
    fold (printf ("<sp=" ++ fmt_d (sp s) ++ "> ") s).
    rewrite !printf_printf. unfold dots_text, contents.
    rewrite drop_0, !append_assoc. reflexivity.
  - exact Hok.
  - lia.
  - cbn [sp printf]. destruct Hok. lia.
Qed.

(** C9.  Executing an entry whose code is [dots], the code of [.S], in any
    state of the data stack, the empty one included, appends to the output
    the depth followed by the cells from bottom to top, and changes neither
    the depth nor any cell of the stack. *)
Theorem dots_writes_and_keeps_stack fuel w entry s :
  stack_ok s ->
  word_at (dictionary s) w = Some entry -> code entry = Some p_dots ->
  exists s',
    execute_word (S fuel) w s = Ok tt s' /\
    out s' = out s ++ dots_text s /\
    sp s' = sp s /\ stack s' = stack s /\ contents s' = contents s.
Proof.
  intros Hok Hw Hc. exists (printf (dots_text s) s).
  cbn [execute_word]. rewrite Hw, Hc. cbn [run_prim].
  rewrite (dots_ok s Hok). repeat split.
Qed.

Lemma dots_writes_and_keeps_stack_witness :
  contents stack_1_2_3 = [1; 2; 3] /\
  dots_text stack_1_2_3 = "<sp=3> 1 2 3 " ++ LF /\
  exists s',
    execute_word 1 13%nat stack_1_2_3 = Ok tt s' /\
    out s' = out stack_1_2_3 ++ dots_text stack_1_2_3 /\
    sp s' = sp stack_1_2_3 /\ stack s' = stack stack_1_2_3 /\
    contents s' = contents stack_1_2_3.
Proof.
  split; [reflexivity|]. split; [vm_compute; reflexivity|].
  apply (dots_writes_and_keeps_stack 0 13%nat
           (new_word ".S" (Some p_dots) false) stack_1_2_3).
  - split; [reflexivity|]. cbn. unfold STACK_SIZE. lia.
  - reflexivity.
  - reflexivity.
Defined.

(** ** Tokens that are not found *)

(** What [interpret] does with a token that is no number and is in no
    entry: it prints the message, ends a running compilation through
    [end_compile], and leaves the loop. *)
Lemma interpret_token_unknown lb fuel word s :
  snd (strtol lb word) <> "" ->
  find_word word (dictionary s) = None ->
  interpret_token lb fuel word s =
  Ok false (let s1 := printf ("Unknown word: " ++ word ++ LF) s in
            if compiling s then end_compile s1 else s1).
Proof.
  intros Hnum Hfind. unfold interpret_token.
  destruct (strtol lb word) as [num endptr]. cbn [snd] in Hnum.
  destruct endptr; [congruence|]. rewrite Hfind. reflexivity.
Qed.

(** ** Primitives outside their domain *)

Lemma dup_empty s : sp s = 0 -> Prim.dup s = Undefined OutOfBounds.
Proof. intros H. unfold Prim.dup, bind, stack_read. rewrite H. reflexivity. Qed.

(** C3.  [DUP] on an empty stack reads [stack[-1]]: it does not go through
    [pop], prints nothing and does not exit; so does the line [DUP] typed
    into a fresh interpreter, whereas [DROP] in the same state reports the
    underflow. *)
Theorem dup_on_empty_stack_reads_outside (fuel : nat) :
  (forall s, sp s = 0 -> Prim.dup s = Undefined OutOfBounds) /\
  interpret LP64 (S fuel) "DUP" boot = Undefined OutOfBounds /\
  interpret LP64 (S fuel) "DROP" boot =
    Exit 1 (printf ("Stack underflow!" ++ LF) (set_input_ptr "" boot)).
Proof. split; [exact dup_empty|]. split; reflexivity. Qed.

Lemma int_div_zero op a s : Prim.int_div op a 0 s = Undefined DivisionByZero.
Proof. reflexivity. Qed.

(** Two pops in a row from a stack of depth two or more. *)
Lemma pop_pop_ok s :
  stack_ok s -> 2 <= sp s ->
  exists b a,
    stack s !! Z.to_nat (sp s - 1) = Some b /\
    stack s !! Z.to_nat (sp s - 2) = Some a /\
    pop s = Ok b (set_sp (sp s - 1) s) /\
    pop (set_sp (sp s - 1) s) = Ok a (set_sp (sp s - 2) s).
Proof.
  intros Hok Hsp.
  destruct (pop_ok s Hok) as (b & Hb & Hpop1); [lia|].
  destruct (pop_ok _ (stack_ok_pop s Hok ltac:(lia))) as (a & Ha & Hpop2);
    [cbn [sp set_sp]; lia|].
  cbn [sp set_sp stack] in Ha, Hpop2.
  replace (sp s - 1 - 1) with (sp s - 2) in Ha, Hpop2 by lia.
  exists b, a. repeat split; assumption.
Qed.

Lemma divide_by_zero s :
  stack_ok s -> 2 <= sp s -> stack s !! Z.to_nat (sp s - 1) = Some 0 ->
  Prim.divide s = Undefined DivisionByZero /\
  Prim.mod_ s = Undefined DivisionByZero.
Proof.
  intros Hok Hsp Htop.
  destruct (pop_pop_ok s Hok Hsp) as (b & a & Hb & _ & Hpop1 & Hpop2).
  assert (b = 0) by congruence. subst b.
  unfold Prim.divide, Prim.mod_, bind. rewrite Hpop1, Hpop2. split; reflexivity.
Qed.

(** C5.  With two values or more on the stack and 0 on top, [/] and [MOD]
    reach the C division with a zero divisor: nothing is tested, nothing
    is printed and nothing exits.  So do the lines [1 0 /] and [1 0 MOD]
    typed into a fresh interpreter. *)
Theorem division_by_zero_is_not_caught (fuel : nat) :
  (forall s,
     stack_ok s -> 2 <= sp s -> stack s !! Z.to_nat (sp s - 1) = Some 0 ->
     Prim.divide s = Undefined DivisionByZero /\
     Prim.mod_ s = Undefined DivisionByZero) /\
  interpret LP64 (S fuel) "1 0 /" boot = Undefined DivisionByZero /\
  interpret LP64 (S fuel) "1 0 MOD" boot = Undefined DivisionByZero.
Proof. split; [exact divide_by_zero|]. split; reflexivity. Qed.

(** ** States the interpreter can be in *)

Lemma inv_core s s' : core s' = core s -> inv s -> inv s'.
Proof.
  unfold core. intros E [H1 H2 H3 H4 H5 H6].
  injection E as Ed Ec Eb Es Ew.
  split; rewrite ?Ed, ?Ec, ?Eb, ?Es, ?Ew; assumption.
Qed.

Lemma keeps_preserves {A} (m : M A) : keeps m -> preserves m.
Proof.
  intros H s a s' Hi Hm. exact (inv_core _ _ (proj1 (H _ _ _ Hm)) Hi).
Qed.

Lemma keeps_ret {A} (a : A) : keeps (ret a).
Proof. intros s x s' [= _ <-]. split; reflexivity. Qed.

Lemma keeps_undef {A} u : keeps (@undef A u).
Proof. intros s x s' [=]. Qed.

Lemma keeps_bind {A B} (m : M A) (k : A -> M B) :
  keeps m -> (forall a, keeps (k a)) -> keeps (bind m k).
Proof.
  intros Hm Hk s b s' H. unfold bind in H.
  destruct (m s) as [a s1| | |] eqn:E; try discriminate.
  destruct (Hk _ _ _ _ H) as [-> ->]. exact (Hm _ _ _ E).
Qed.

Lemma keeps_state {A} (f : state -> M A) :
  (forall s0, keeps (f s0)) -> keeps (fun s => f s s).
Proof. intros H s a s' E. exact (H s _ _ _ E). Qed.

Lemma keeps_printf msg : keeps (modify (printf msg)).
Proof. intros s a s' [= _ <-]. split; reflexivity. Qed.

Lemma keeps_set_sp v : keeps (modify (set_sp v)).
Proof. intros s a s' [= _ <-]. split; reflexivity. Qed.

Lemma keeps_stack_read i : keeps (stack_read i).
Proof.
  intros s a s' H. unfold stack_read in H.
  destruct ((0 <=? i) && (i <? STACK_SIZE)); [|discriminate].
  destruct (stack s !! Z.to_nat i); [|discriminate].
  injection H as _ <-. split; reflexivity.
Qed.

Lemma keeps_stack_write i v : keeps (stack_write i v).
Proof.
  intros s a s' H. unfold stack_write in H.
  destruct (_ && _); [|discriminate].
  injection H as _ <-. split; reflexivity.
Qed.

Lemma keeps_push v : keeps (push v).
Proof.
  intros s a s' H. unfold push in H.
  destruct (sp s >=? STACK_SIZE); [discriminate|].
  revert H. apply keeps_bind; [apply keeps_stack_write|intros; apply keeps_set_sp].
Qed.

Lemma keeps_pop : keeps pop.
Proof.
  intros s a s' H. unfold pop in H.
  destruct (sp s <=? 0); [discriminate|].
  revert H. apply keeps_bind; [apply keeps_set_sp|intros; apply keeps_stack_read].
Qed.

Lemma keeps_int_div op a b : keeps (Prim.int_div op a b).
Proof.
  unfold Prim.int_div. destruct (b =? 0); [apply keeps_undef|].
  destruct (_ && _); [apply keeps_undef|apply keeps_ret].
Qed.

Lemma keeps_dots_loop n : forall i, keeps (Prim.dots_loop n i).
Proof.
  induction n as [|n IH]; intros i; cbn [Prim.dots_loop].
  - apply keeps_ret.
  - apply keeps_bind; [apply keeps_stack_read|intros v].
    apply keeps_bind; [apply keeps_printf|intros _; apply IH].
Qed.

Create HintDb keeps.
#[local] Hint Resolve keeps_ret keeps_undef keeps_printf keeps_set_sp
  keeps_stack_read keeps_stack_write keeps_push keeps_pop keeps_int_div
  keeps_dots_loop : keeps.

Ltac keeps_steps :=
  repeat (apply keeps_bind; [|intros ?]); auto with keeps.

(** Every primitive but [:] and [;] works on the data stack and the
    output only. *)
Lemma keeps_run_prim p :
  p <> p_colon -> p <> p_semicolon -> keeps (run_prim p).
Proof.
  intros Hc Hs.
  destruct p; try congruence; cbn [run_prim];
    unfold Prim.add, Prim.sub, Prim.mul, Prim.divide, Prim.mod_,
      Prim.drop, Prim.swap, Prim.over, Prim.rot, Prim.emit, Prim.cr, Prim.dot,
      Prim.eq, Prim.lt, Prim.gt, Prim.and, Prim.or, Prim.not, binary;
    try (keeps_steps; fail).
  - apply (keeps_state (fun s => let* a := stack_read (sp s - 1) in push a)).
    intros s0. keeps_steps.
  - apply (keeps_state (fun s =>
      let* _ := modify (printf ("<sp=" ++ fmt_d (sp s) ++ "> ")) in
      let* _ := Prim.dots_loop (Z.to_nat (sp s)) 0 in
      modify (printf LF))).
    intros s0. keeps_steps.
Qed.

(** ** Pointers into the dictionary *)

Lemma word_at_lt d : forall p e, word_at d p = Some e -> (p < length d)%nat.
Proof.
  induction d as [|w d IH]; intros p e H; cbn in *; [discriminate|].
  destruct (Nat.eqb_spec p (length d)); [lia|]. apply IH in H. lia.
Qed.

Lemma word_at_In d : forall p e, word_at d p = Some e -> In e d.
Proof.
  induction d as [|w d IH]; intros p e H; cbn in *; [discriminate|].
  destruct (p =? length d)%nat; [injection H as ->; now left|].
  right. exact (IH _ _ H).
Qed.

(** An entry put in front moves no older entry. *)
Lemma word_at_cons_old e0 d p e :
  word_at d p = Some e -> word_at (e0 :: d) p = Some e.
Proof.
  intros H. cbn. pose proof (word_at_lt _ _ _ H).
  destruct (Nat.eqb_spec p (length d)); [lia|exact H].
Qed.

Lemma find_word_word_at nm d : forall p,
  find_word nm d = Some p ->
  exists e, word_at d p = Some e /\ strcasecmp (name e) nm = 0.
Proof.
  induction d as [|w d IH]; intros p H; cbn in *; [discriminate|].
  destruct (Z.eqb_spec (strcasecmp (name w) nm) 0) as [E|_].
  - injection H as <-. exists w. rewrite Nat.eqb_refl. split; [reflexivity|exact E].
  - destruct (IH _ H) as (e & He & Hn). exists e. split; [|exact Hn].
    pose proof (word_at_lt _ _ _ He).
    destruct (Nat.eqb_spec p (length d)); [lia|exact He].
Qed.

Lemma length_set_data q b d : length (set_data q b d) = length d.
Proof.
  induction d as [|w d IH]; cbn; [reflexivity|].
  destruct (q =? length d)%nat; cbn; [reflexivity|rewrite IH; reflexivity].
Qed.

(** Storing a body changes neither the name, nor the flag, nor the code of
    any entry. *)
Lemma word_at_set_data q b d : forall p e,
  word_at d p = Some e ->
  exists e', word_at (set_data q b d) p = Some e' /\
             name e' = name e /\ is_immediate e' = is_immediate e /\
             code e' = code e.
Proof.
  induction d as [|w d IH]; intros p e H; cbn in *; [discriminate|].
  destruct (q =? length d)%nat; cbn.
  - destruct (p =? length d)%nat.
    + injection H as <-. eexists. split; [reflexivity|]. repeat split.
    + exists e. repeat split. exact H.
  - rewrite length_set_data. destruct (p =? length d)%nat.
    + injection H as <-. exists w. repeat split.
    + exact (IH _ _ H).
Qed.

Lemma In_set_data q b d e :
  In e (set_data q b d) ->
  exists e0, In e0 d /\ name e = name e0 /\
             is_immediate e = is_immediate e0 /\ code e = code e0 /\
             (data e = data e0 \/ data e = b).
Proof.
  induction d as [|w d IH]; cbn; [intros []|].
  destruct (q =? length d)%nat; cbn.
  - intros [E|H].
    + exists w. rewrite <- E. cbn. repeat split; auto.
    + exists e. repeat split; auto.
  - intros [E|H].
    + exists e. repeat split; auto.
    + destruct (IH H) as (e0 & Hin & Hrest).
      exists e0. split; [right; exact Hin|exact Hrest].
Qed.

Lemma find_word_set_data nm q b d :
  find_word nm (set_data q b d) = find_word nm d.
Proof.
  induction d as [|w d IH]; cbn; [reflexivity|].
  destruct (q =? length d)%nat; cbn.
  - reflexivity.
  - rewrite length_set_data, IH. reflexivity.
Qed.

Lemma plain_cell_cons e0 d c : plain_cell d c -> plain_cell (e0 :: d) c.
Proof.
  destruct c as [v|p]; [trivial|]. intros (e & He & Hi).
  exists e. split; [apply word_at_cons_old; exact He|exact Hi].
Qed.

Lemma plain_cell_set_data q b d c :
  plain_cell d c -> plain_cell (set_data q b d) c.
Proof.
  destruct c as [v|p]; [trivial|]. intros (e & He & Hi).
  destruct (word_at_set_data q b d p e He) as (e' & He' & _ & Hi' & _).
  exists e'. split; [exact He'|congruence].
Qed.

(** ** The invariant is kept *)

Lemma preserves_bind {A B} (m : M A) (k : A -> M B) :
  preserves m -> (forall a, preserves (k a)) -> preserves (bind m k).
Proof.
  intros Hm Hk s b s' Hi H. unfold bind in H.
  destruct (m s) as [a s1| | |] eqn:E; try discriminate.
  exact (Hk _ _ _ _ (Hm _ _ _ Hi E) H).
Qed.

Lemma next_token_core s t s' : next_token s = Ok t s' -> core s' = core s.
Proof.
  intros H. unfold next_token in H.
  destruct (sscanf_s (input_ptr s)) as [tok|]; [|injection H as _ <-; reflexivity].
  destruct (_ >=? _); [discriminate|].
  unfold bind, advance, ret in H.
  destruct (strstr (input_ptr s) tok); [|discriminate].
  injection H as _ <-. reflexivity.
Qed.

Lemma preserves_next_token : preserves next_token.
Proof. intros s t s' Hi H. exact (inv_core _ _ (next_token_core _ _ _ H) Hi). Qed.

Lemma inv_new_entry nm s :
  inv s ->
  inv (start_compile
         (set_current_word (Some (length (dictionary s)))
            (set_dictionary (new_word nm None false :: dictionary s) s))).
Proof.
  intros [H1 H2 H3 H4 H5 H6]. split; cbn.
  - intros e [<-|Hin] Hi; [discriminate|]. exact (H1 _ Hin Hi).
  - destruct (_ =? 0); [discriminate|exact H2].
  - intros e body [<-|Hin] Hd; [discriminate|].
    eapply Forall_impl; [exact (H3 _ _ Hin Hd)|]. intros c. apply plain_cell_cons.
  - intros buf [= <-]. constructor.
  - intros _. exists []. cbn. repeat split; lia.
  - intros cw [= <-]. rewrite Nat.eqb_refl. eexists. repeat split.
Qed.

Lemma preserves_colon : preserves colon.
Proof.
  unfold colon. apply preserves_bind.
  - apply preserves_next_token.
  - intros [nm|].
    + intros s a s' Hi [= _ <-]. apply inv_new_entry. exact Hi.
    + apply keeps_preserves, keeps_printf.
Qed.

Lemma inv_end_compile s : inv s -> inv (end_compile s).
Proof.
  intros [H1 H2 H3 H4 H5 H6]. unfold end_compile.
  destruct (current_word s) as [p|]; split; cbn; try assumption;
    try discriminate.
  - intros e Hin Hi.
    destruct (In_set_data _ _ _ _ Hin) as (e0 & Hin0 & Hn & Him & Hc & _).
    rewrite Hn, Hc. apply H1; [exact Hin0|congruence].
  - rewrite find_word_set_data. exact H2.
  - intros e body Hin Hd.
    destruct (In_set_data _ _ _ _ Hin) as (e0 & Hin0 & _ & _ & _ & [Hd0|Hd0]).
    + eapply Forall_impl; [apply (H3 e0 body Hin0); congruence|].
      intros c. apply plain_cell_set_data.
    + eapply Forall_impl; [apply (H4 body); congruence|].
      intros c. apply plain_cell_set_data.
Qed.

Lemma preserves_semicolon : preserves semicolon.
Proof.
  intros s a s' Hi H. unfold semicolon in H.
  destruct (negb (compiling s)); injection H as _ <-.
  - apply (inv_core s); [reflexivity|exact Hi].
  - apply inv_end_compile. exact Hi.
Qed.

Lemma inv_compile_item c s a s' :
  inv s -> plain_cell (dictionary s) c ->
  compile_item c s = Ok a s' -> inv s'.
Proof.
  intros [H1 H2 H3 H4 H5 H6] Hplain H. unfold compile_item in H.
  destruct (compile_buffer s) as [buf|] eqn:Eb; [|discriminate].
  unfold compile_pos in H. rewrite Eb in H.
  destruct (Z.ltb_spec (Z.of_nat (length buf))
              (if Z.of_nat (length buf) >=? compile_size s
               then to_int (compile_size s * 2) else compile_size s)) as [Hlt|];
    [|discriminate].
  injection H as _ <-. split; cbn; try assumption.
  - intros b [= <-]. apply Forall_app. split; [apply H4; reflexivity|].
    constructor; [exact Hplain|constructor].
  - intros _. eexists. split; [reflexivity|].
    rewrite length_app. cbn [length]. lia.
Qed.

Lemma preserves_run_prim p : preserves (run_prim p).
Proof.
  destruct p;
    try (apply keeps_preserves, keeps_run_prim; discriminate).
  - apply preserves_colon.
  - apply preserves_semicolon.
Qed.

Lemma preserves_execute_body (exec : ptr -> M unit) body :
  (forall w, preserves (exec w)) -> preserves (execute_body exec body).
Proof.
  intros Hexec. induction body as [|val rest IH]; cbn [execute_body].
  - apply keeps_preserves, keeps_ret.
  - apply preserves_bind; [|intros _; exact IH].
    destruct val as [v|w]; cbn [execute_cell]; [|apply Hexec].
    destruct (Z.odd v); apply keeps_preserves; auto with keeps.
Qed.

Lemma preserves_execute_word fuel : forall w, preserves (execute_word fuel w).
Proof.
  induction fuel as [|fuel IH]; intros w s a s' Hi H; cbn [execute_word] in H;
    [discriminate|].
  destruct (word_at (dictionary s) w) as [entry|]; [|discriminate].
  destruct (code entry) as [f|].
  - exact (preserves_run_prim f _ _ _ Hi H).
  - destruct (data entry) as [body|].
    + exact (preserves_execute_body _ body IH _ _ _ Hi H).
    + injection H as _ <-. exact Hi.
Qed.

Lemma preserves_interpret_token lb fuel word :
  preserves (interpret_token lb fuel word).
Proof.
  intros s b s' Hi H. unfold interpret_token in H.
  destruct (strtol lb word) as [num endptr].
  destruct endptr as [|c r].
  - unfold bind, ret in H. destruct (compiling s).
    + destruct (compile_item (tag lb num) s) as [a s1| | |] eqn:E;
        try discriminate.
      injection H as _ <-.
      refine (inv_compile_item (tag lb num) _ _ _ Hi _ E). exact I.
    + destruct (push (to_int num) s) as [a s1| | |] eqn:E; try discriminate.
      injection H as _ <-. exact (keeps_preserves _ (keeps_push _) _ _ _ Hi E).
  - destruct (find_word word (dictionary s)) as [w|] eqn:Ef.
    + destruct (find_word_word_at _ _ _ Ef) as (e & He & _). rewrite He in H.
      unfold bind, ret in H.
      destruct (compiling s && negb (is_immediate e)) eqn:Ec.
      * destruct (compile_item (CWord w) s) as [a s1| | |] eqn:E;
          try discriminate.
        injection H as _ <-. refine (inv_compile_item _ _ _ _ Hi _ E).
        exists e. split; [exact He|].
        apply andb_true_iff in Ec as [_ Ec].
        destruct (is_immediate e); [discriminate|reflexivity].
      * destruct (execute_word fuel w s) as [a s1| | |] eqn:E;
          try discriminate.
        injection H as _ <-. exact (preserves_execute_word _ _ _ _ _ Hi E).
    + injection H as _ <-. cbn [compiling printf].
      destruct (compiling s).
      * apply inv_end_compile. apply (inv_core s); [reflexivity|exact Hi].
      * apply (inv_core s); [reflexivity|exact Hi].
Qed.

Lemma inv_boot : inv boot.
Proof.
  split.
  - intros e Hin Hi. cbn in Hin.
    repeat (destruct Hin as [<-|Hin]; [try discriminate Hi; split; reflexivity|]).
    destruct Hin.
  - discriminate.
  - intros e body Hin Hd. cbn in Hin.
    repeat (destruct Hin as [<-|Hin]; [discriminate Hd|]). destruct Hin.
  - discriminate.
  - discriminate.
  - discriminate.
Qed.

(** Every state at the head of the loop satisfies the invariant. *)
Lemma reachable_inv lb s : reachable lb s -> inv s.
Proof.
  induction 1 as [|s line _ IH|s fuel word s1 b s2 _ IH Ht Hs].
  - exact inv_boot.
  - apply (inv_core s); [reflexivity|exact IH].
  - apply (preserves_interpret_token lb fuel word s1 b s2); [|exact Hs].
    exact (preserves_next_token _ _ _ IH Ht).
Qed.

(** The states a run of [interpret] ends in are states at the head of the
    loop. *)
Lemma interpret_loop_reachable lb fuel n : forall s s',
  reachable lb s -> interpret_loop lb fuel n s = Ok tt s' -> reachable lb s'.
Proof.
  induction n as [|n IH]; intros s s' Hr H; cbn [interpret_loop] in H;
    [discriminate|].
  unfold bind at 1 in H.
  destruct (next_token s) as [[word|] s1| | |] eqn:Et; try discriminate.
  - unfold bind at 1 in H.
    destruct (interpret_token lb fuel word s1) as [b s2| | |] eqn:Es;
      try discriminate.
    pose proof (reach_token lb s fuel word s1 b s2 Hr Et Es) as Hr2.
    destruct b; [exact (IH _ _ Hr2 H)|].
    injection H as <-. exact Hr2.
  - unfold next_token in Et.
    destruct (sscanf_s (input_ptr s)) as [tok|].
    + destruct (_ >=? _); [discriminate|].
      unfold bind, advance, ret in Et.
      destruct (strstr (input_ptr s) tok); discriminate.
    + injection Et as <-. injection H as <-. exact Hr.
Qed.

Lemma interpret_reachable lb fuel line s s' :
  reachable lb s -> interpret lb fuel line s = Ok tt s' -> reachable lb s'.
Proof.
  intros Hr H. unfold interpret in H.
  exact (interpret_loop_reachable _ _ _ _ _ (reach_line lb s line Hr) H).
Qed.

Lemma to_int_small z : INT_MIN <= z <= INT_MAX -> to_int z = z.
Proof.
  unfold INT_MIN, INT_MAX, to_int, wrap. intros H.
  rewrite Z.mod_small by lia. lia.
Qed.

Lemma word_at_set_data_same q b d : forall e,
  word_at d q = Some e ->
  word_at (set_data q b d) q =
  Some (mkWord (name e) (is_immediate e) (code e) b).
Proof.
  induction d as [|w d IH]; intros e H; cbn in *; [discriminate|].
  destruct (q =? length d)%nat eqn:E; cbn.
  - rewrite E. injection H as <-. reflexivity.
  - rewrite length_set_data, E. exact (IH _ H).
Qed.

(** ** Redefinition *)

Lemma extends_refl s : extends s s.
Proof. intros p e H _. exact H. Qed.

Lemma extends_trans s1 s2 s3 : extends s1 s2 -> extends s2 s3 -> extends s1 s3.
Proof. intros H12 H23 p e H Hf. exact (H23 _ _ (H12 _ _ H Hf) Hf). Qed.

Lemma keeps_grows {A} (m : M A) : keeps m -> grows m.
Proof.
  intros Hk s a s' _ Hm p e H _.
  destruct (Hk _ _ _ Hm) as [E _]. unfold core in E.
  injection E as -> _ _ _ _. exact H.
Qed.

Lemma grows_next_token : grows next_token.
Proof.
  intros s t s' _ Hm p e H _.
  pose proof (next_token_core _ _ _ Hm) as E. unfold core in E.
  injection E as -> _ _ _ _. exact H.
Qed.

Lemma grows_bind {A B} (m : M A) (k : A -> M B) :
  preserves m -> grows m -> (forall a, grows (k a)) -> grows (bind m k).
Proof.
  intros Hp Hm Hk s b s' Hi H. unfold bind in H.
  destruct (m s) as [a s1| | |] eqn:E; try discriminate.
  exact (extends_trans _ _ _ (Hm _ _ _ Hi E) (Hk _ _ _ _ (Hp _ _ _ Hi E) H)).
Qed.

Lemma word_at_set_data_other q b d : forall p,
  p <> q -> word_at (set_data q b d) p = word_at d p.
Proof.
  induction d as [|w d IH]; intros p Hne; cbn; [reflexivity|].
  destruct (Nat.eqb_spec q (length d)) as [->|Hq]; cbn.
  - destruct (Nat.eqb_spec p (length d)); [contradiction|reflexivity].
  - rewrite length_set_data, IH by exact Hne. reflexivity.
Qed.

(** [end_compile] writes to the entry under definition only, which is not
    finished. *)
Lemma extends_end_compile s : inv s -> extends s (end_compile s).
Proof.
  intros Hi p e H Hf. unfold end_compile.
  destruct (current_word s) as [cw|] eqn:Ecw; cbn; [|exact H].
  destruct (inv_current s Hi cw Ecw) as (e0 & He0 & Hc0 & Hd0).
  rewrite word_at_set_data_other; [exact H|].
  intros ->. rewrite He0 in H. injection H as <-.
  destruct Hf as [Hf|Hf]; contradiction.
Qed.

Lemma grows_colon : grows colon.
Proof.
  unfold colon. apply grows_bind.
  - apply preserves_next_token.
  - apply grows_next_token.
  - intros [nm|]; [|apply keeps_grows, keeps_printf].
    intros s a s' _ [= _ <-] p e H _. cbn. apply word_at_cons_old. exact H.
Qed.

Lemma grows_semicolon : grows semicolon.
Proof.
  intros s a s' Hi H. unfold semicolon in H.
  destruct (negb (compiling s)); injection H as _ <-.
  - intros p e Hp _. exact Hp.
  - apply extends_end_compile. exact Hi.
Qed.

Lemma grows_run_prim p : grows (run_prim p).
Proof.
  destruct p; try (apply keeps_grows, keeps_run_prim; discriminate).
  - apply grows_colon.
  - apply grows_semicolon.
Qed.

Lemma grows_execute_body (exec : ptr -> M unit) body :
  (forall w, preserves (exec w)) -> (forall w, grows (exec w)) ->
  grows (execute_body exec body).
Proof.
  intros Hp Hg. induction body as [|val rest IH]; cbn [execute_body].
  - apply keeps_grows, keeps_ret.
  - assert (Hk : forall v, keeps (if Z.odd v then push (decode v)
                                   else undef WildPointer))
      by (intros v; destruct (Z.odd v); auto with keeps).
    apply grows_bind; [| |intros _; exact IH];
      destruct val as [v|w]; cbn [execute_cell];
      [apply keeps_preserves, Hk|apply Hp|apply keeps_grows, Hk|apply Hg].
Qed.

Lemma grows_execute_word fuel : forall w, grows (execute_word fuel w).
Proof.
  induction fuel as [|fuel IH]; intros w s a s' Hi H; cbn [execute_word] in H;
    [discriminate|].
  destruct (word_at (dictionary s) w) as [entry|]; [|discriminate].
  destruct (code entry) as [f|].
  - exact (grows_run_prim f _ _ _ Hi H).
  - destruct (data entry) as [body|].
    + exact (grows_execute_body _ body (preserves_execute_word fuel) IH
               _ _ _ Hi H).
    + injection H as _ <-. apply extends_refl.
Qed.

Lemma extends_compile_item c s a s' :
  compile_item c s = Ok a s' -> extends s s'.
Proof.
  unfold compile_item. destruct (compile_buffer s); [|discriminate].
  destruct (_ <? _); [|discriminate].
  intros [= _ <-] p e H _. exact H.
Qed.

Lemma grows_interpret_token lb fuel word : grows (interpret_token lb fuel word).
Proof.
  intros s b s' Hi H. unfold interpret_token in H.
  destruct (strtol lb word) as [num endptr].
  destruct endptr as [|c r].
  - unfold bind, ret in H. destruct (compiling s).
    + destruct (compile_item (tag lb num) s) as [a s1| | |] eqn:E;
        try discriminate.
      injection H as _ <-. exact (extends_compile_item _ _ _ _ E).
    + destruct (push (to_int num) s) as [a s1| | |] eqn:E; try discriminate.
      injection H as _ <-. exact (keeps_grows _ (keeps_push _) _ _ _ Hi E).
  - destruct (find_word word (dictionary s)) as [w|].
    + unfold bind, ret in H. destruct (compiling s && negb _).
      * destruct (compile_item (CWord w) s) as [a s1| | |] eqn:E;
          try discriminate.
        injection H as _ <-. exact (extends_compile_item _ _ _ _ E).
      * destruct (execute_word fuel w s) as [a s1| | |] eqn:E;
          try discriminate.
        injection H as _ <-. exact (grows_execute_word _ _ _ _ _ Hi E).
    + injection H as _ <-. cbn [compiling printf].
      destruct (compiling s).
      * apply (extends_trans _ (printf ("Unknown word: " ++ word ++ LF) s)).
        -- intros p e Hp _. exact Hp.
        -- apply extends_end_compile. apply (inv_core s); [reflexivity|exact Hi].
      * intros p e Hp _. exact Hp.
Qed.

Lemma extends_interpret_loop lb fuel n : forall s s',
  reachable lb s -> interpret_loop lb fuel n s = Ok tt s' -> extends s s'.
Proof.
  induction n as [|n IH]; intros s s' Hr H; cbn [interpret_loop] in H;
    [discriminate|].
  unfold bind at 1 in H.
  destruct (next_token s) as [[word|] s1| | |] eqn:Et; try discriminate.
  - unfold bind at 1 in H.
    destruct (interpret_token lb fuel word s1) as [b s2| | |] eqn:Es;
      try discriminate.
    pose proof (reachable_inv lb s Hr) as Hi.
    pose proof (preserves_next_token _ _ _ Hi Et) as Hi1.
    assert (H12 : extends s s2).
    { apply (extends_trans _ s1).
      - exact (grows_next_token _ _ _ Hi Et).
      - exact (grows_interpret_token lb fuel word _ _ _ Hi1 Es). }
    destruct b.
    + apply (extends_trans _ s2); [exact H12|].
      exact (IH _ _ (reach_token lb s fuel word s1 true s2 Hr Et Es) H).
    + injection H as <-. exact H12.
  - injection H as <-.
    exact (grows_next_token _ _ _ (reachable_inv lb s Hr) Et).
Qed.

(** Any further line leaves the finished entries where and as they are. *)
Lemma extends_interpret lb fuel line s s' :
  reachable lb s -> interpret lb fuel line s = Ok tt s' -> extends s s'.
Proof.
  intros Hr H. unfold interpret in H.
  apply (extends_trans _ (set_input_ptr line s)).
  - intros p e Hp _. exact Hp.
  - exact (extends_interpret_loop _ _ _ _ _ (reach_line lb s line Hr) H).
Qed.

(** C1.  A pointer compiled into a body is bound for good, a name is
    looked up anew each time.  In general: whatever line is interpreted
    next, every finished entry stays under its pointer, unchanged, and a
    new entry put in front of the dictionary is the one [find_word]
    returns for its name.  In particular, after [: F 1 ;], [: G F ;] and
    [: F 2 ;] the body of [G] holds a pointer to the first entry named
    [F], while a lookup of [F] finds the second one; so executing [G]
    pushes 1 and executing [F] pushes 2. *)
Theorem shadowing_keeps_captured_word (fuel : nat) :
  (forall lb fuel' line s s' p e,
     reachable lb s -> interpret lb fuel' line s = Ok tt s' ->
     word_at (dictionary s) p = Some e -> finished e ->
     word_at (dictionary s') p = Some e) /\
  (forall nm e0 d,
     strcasecmp (name e0) nm = 0 ->
     find_word nm (e0 :: d) = Some (length d) /\
     word_at (e0 :: d) (length d) = Some e0) /\
  exists s older newer g,
    interpret_lines LP64 (S (S fuel)) [": F 1 ;"; ": G F ;"; ": F 2 ;"] boot
      = Ok tt s /\
    find_word "F" (dictionary s) = Some newer /\
    find_word "G" (dictionary s) = Some g /\
    older <> newer /\
    data <$> word_at (dictionary s) g = Some (Some [CWord older]) /\
    data <$> word_at (dictionary s) older = Some (Some [tag LP64 1]) /\
    data <$> word_at (dictionary s) newer = Some (Some [tag LP64 2]) /\
    (exists s1, interpret LP64 (S (S fuel)) "G" s = Ok tt s1 /\
                contents s1 = [1]) /\
    (exists s2, interpret LP64 (S (S fuel)) "F" s = Ok tt s2 /\
                contents s2 = [2]).
Proof.
  split; [|split].
  - intros lb fuel' line s s' p e Hr Hrun Hp Hf.
    exact (extends_interpret lb fuel' line s s' Hr Hrun p e Hp Hf).
  - intros nm e0 d Hn. cbn [find_word word_at]. rewrite Hn, Nat.eqb_refl.
    split; reflexivity.
  - eexists _, 22%nat, 24%nat, 23%nat.
    split; [vm_compute; reflexivity|].
    split; [reflexivity|]. split; [reflexivity|]. split; [discriminate|].
    split; [reflexivity|]. split; [reflexivity|]. split; [reflexivity|].
    split; eexists; (split; [vm_compute; reflexivity | reflexivity]).
Qed.

Lemma shadowing_keeps_captured_word_witness :
  let first_F := mkWord "F" false None (Some [tag LP64 1]) in
  reachable LP64 after_F_and_G /\
  word_at (dictionary after_F_and_G) 22%nat = Some first_F /\
  finished first_F /\
  exists s',
    interpret LP64 1 ": F 2 ;" after_F_and_G = Ok tt s' /\
    find_word "F" (dictionary s') = Some 24%nat /\
    word_at (dictionary s') 22%nat = Some first_F.
Proof.
  intros first_F.
  assert (Hr : reachable LP64 after_F_and_G).
  { apply (interpret_reachable LP64 1 ": G F ;"
             (set_input_ptr "" (set_dictionary (first_F :: dictionary boot) boot))).
    - apply (interpret_reachable LP64 1 ": F 1 ;" boot);
        [apply reach_boot|vm_compute; reflexivity].
    - vm_compute. reflexivity. }
  assert (Hf : finished first_F) by (right; discriminate).
  split; [exact Hr|]. split; [reflexivity|]. split; [exact Hf|].
  eexists. split; [vm_compute; reflexivity|]. split; [reflexivity|].
  destruct (shadowing_keeps_captured_word 0) as [Hkeep _].
  eapply (Hkeep LP64 1%nat ": F 2 ;" after_F_and_G _ 22%nat first_F Hr);
    [vm_compute; reflexivity|reflexivity|exact Hf].
Defined.

(** ** Immediate words *)

(** C6.  In every state the interpreter can be in: a token met while
    compiling that resolves to an immediate entry is executed at once, and
    this ends the definition with exactly the slots compiled before the
    token as the body of the word being defined; and no body in the
    dictionary holds a pointer to an immediate entry, the entry of [;]
    among them. *)
Theorem immediate_word_is_run_not_compiled lb s :
  reachable lb s ->
  (forall fuel word w e,
     compiling s = true ->
     snd (strtol lb word) <> "" ->
     find_word word (dictionary s) = Some w ->
     word_at (dictionary s) w = Some e -> is_immediate e = true ->
     code e = Some p_semicolon /\
     exists s',
       interpret_token lb (S fuel) word s = Ok true s' /\
       compiling s' = false /\
       forall cw, current_word s = Some cw ->
         data <$> word_at (dictionary s') cw = Some (compile_buffer s)) /\
  (forall e body p,
     In e (dictionary s) -> data e = Some body -> In (CWord p) body ->
     exists e', word_at (dictionary s) p = Some e' /\
                is_immediate e' = false).
Proof.
  intros Hr. pose proof (reachable_inv lb s Hr) as [H1 H2 H3 H4 H5 H6].
  split.
  - intros fuel word w e Hc Hnum Hf Hw Hi.
    destruct (H1 e (word_at_In _ _ _ Hw) Hi) as [_ Hcode].
    split; [exact Hcode|]. exists (end_compile s). split; [|split].
    + unfold interpret_token.
      destruct (strtol lb word) as [num endptr]. cbn [snd] in Hnum.
      destruct endptr; [congruence|].
      rewrite Hf, Hw, Hc, Hi. cbn [negb andb]. unfold bind.
      cbn [execute_word]. rewrite Hw, Hcode. cbn [run_prim].
      unfold semicolon. rewrite Hc. reflexivity.
    + reflexivity.
    + intros cw Hcw. destruct (H6 cw Hcw) as (e0 & He0 & _).
      unfold end_compile. rewrite Hcw. cbn [dictionary set_dictionary
        set_current_word set_compiling set_compile_size set_compile_buffer].
      rewrite (word_at_set_data_same _ _ _ _ He0). reflexivity.
  - intros e body p Hin Hd Hp.
    pose proof (H3 e body Hin Hd) as Hall.
    rewrite List.Forall_forall in Hall. exact (Hall _ Hp).
Qed.

Lemma reachable_compiling_X : reachable LP64 compiling_X.
Proof.
  apply reach_line.
  apply (interpret_reachable LP64 1 ": X 1" boot after_colon_X_1).
  - apply reach_boot.
  - vm_compute. reflexivity.
Defined.

Lemma immediate_word_is_run_not_compiled_witness :
  reachable LP64 compiling_X /\
  (code (new_word ";" (Some p_semicolon) true) = Some p_semicolon /\
   exists s',
     interpret_token LP64 1 ";" compiling_X = Ok true s' /\
     compiling s' = false /\
     forall cw, current_word compiling_X = Some cw ->
       data <$> word_at (dictionary s') cw = Some (Some [tag LP64 1])) /\
  (forall e body p,
     In e (dictionary compiling_X) -> data e = Some body ->
     In (CWord p) body ->
     exists e', word_at (dictionary compiling_X) p = Some e' /\
                is_immediate e' = false).
Proof.
  destruct (immediate_word_is_run_not_compiled LP64 compiling_X
              reachable_compiling_X) as [Hrun Hbodies].
  split; [exact reachable_compiling_X|]. split; [|exact Hbodies].
  apply (Hrun 0%nat ";" 21%nat (new_word ";" (Some p_semicolon) true)).
  - reflexivity.
  - vm_compute. discriminate.
  - reflexivity.
  - reflexivity.
  - reflexivity.
Defined.

(** C10.  In every state the interpreter can be in while compiling, the
    token [:] resolves to an entry that is not immediate, and [interpret]
    hands a pointer to that entry to [compile_item] instead of executing
    it.  As long as the body has fewer than 2^30 slots, so that doubling
    the capacity stays within [int], this adds the pointer to the
    compilation buffer and changes nothing else but the capacity: the
    dictionary, the word being defined and the compiling flag stay as
    they were, so no new definition is started. *)
Theorem colon_is_compiled_while_compiling lb s :
  reachable lb s -> compiling s = true ->
  exists p e buf,
    find_word ":" (dictionary s) = Some p /\
    word_at (dictionary s) p = Some e /\ is_immediate e = false /\
    compile_buffer s = Some buf /\
    (forall fuel,
       interpret_token lb fuel ":" s =
       (let* _ := compile_item (CWord p) in ret true) s) /\
    (Z.of_nat (length buf) < 2 ^ 30 ->
     forall fuel, exists size,
       interpret_token lb fuel ":" s =
       Ok true (set_compile_buffer (Some (buf ++ [CWord p])%list)
                  (set_compile_size size s))).
Proof.
  intros Hr Hc. pose proof (reachable_inv lb s Hr) as [H1 H2 H3 H4 H5 H6].
  destruct (find_word ":" (dictionary s)) as [p|] eqn:Ef; [|congruence].
  destruct (find_word_word_at _ _ _ Ef) as (e & He & Hn).
  destruct (H5 Hc) as (buf & Hb & Hsize & Hlen).
  assert (Hi : is_immediate e = false).
  { destruct (is_immediate e) eqn:Ei; [|reflexivity].
    destruct (H1 e (word_at_In _ _ _ He) Ei) as [Hname _].
    rewrite Hname in Hn. discriminate Hn. }
  assert (Hstep : forall fuel,
            interpret_token lb fuel ":" s =
            (let* _ := compile_item (CWord p) in ret true) s).
  { intros fuel. unfold interpret_token. change (strtol lb ":") with (0, ":").
    cbn iota. rewrite Ef, He, Hc, Hi. reflexivity. }
  exists p, e, buf. repeat (split; [first [assumption|reflexivity]|]).
  intros Hsmall fuel.
  exists (if Z.of_nat (length buf) >=? compile_size s
          then to_int (compile_size s * 2) else compile_size s).
  rewrite Hstep.
  unfold bind, compile_item, compile_pos. rewrite Hb.
  match goal with |- context [if ?a <? ?b then _ else _] =>
    destruct (Z.ltb_spec a b) as [_|Hge] end.
  - reflexivity.
  - exfalso. revert Hge.
    destruct (Z.geb_spec (Z.of_nat (length buf)) (compile_size s)); [|lia].
    rewrite to_int_small by (unfold INT_MIN, INT_MAX; lia). lia.
Qed.

Lemma colon_is_compiled_while_compiling_witness :
  reachable LP64 compiling_X /\ compiling compiling_X = true /\
  exists p e buf,
    find_word ":" (dictionary compiling_X) = Some p /\
    word_at (dictionary compiling_X) p = Some e /\
    is_immediate e = false /\
    compile_buffer compiling_X = Some buf /\
    (forall fuel,
       interpret_token LP64 fuel ":" compiling_X =
       (let* _ := compile_item (CWord p) in ret true) compiling_X) /\
    (Z.of_nat (length buf) < 2 ^ 30 ->
     forall fuel, exists size,
       interpret_token LP64 fuel ":" compiling_X =
       Ok true (set_compile_buffer (Some (buf ++ [CWord p])%list)
                  (set_compile_size size compiling_X))).
Proof.
  split; [exact reachable_compiling_X|]. split; [reflexivity|].
  apply (colon_is_compiled_while_compiling LP64 compiling_X).
  - exact reachable_compiling_X.
  - reflexivity.
Defined.

(** ** Unknown words *)

Lemma next_token_state s t s1 :
  next_token s = Ok t s1 -> s1 = set_input_ptr (input_ptr s1) s.
Proof.
  intros H. unfold next_token in H.
  destruct (sscanf_s (input_ptr s)) as [tok|].
  - destruct (_ >=? _); [discriminate|].
    unfold bind, advance, ret in H.
    destruct (strstr (input_ptr s) tok); [|discriminate].
    injection H as _ <-. reflexivity.
  - injection H as _ <-. destruct s; reflexivity.
Qed.

(** C2.  In every state the interpreter can be in while compiling, an
    unknown token makes [interpret] call [end_compile], which stores the
    slots compiled so far as the body of the word under definition.  So
    on the line [: FOO 1 2 BAR 3 ;] the unknown token [BAR] is reported,
    and the two literals compiled before it become the body of the new
    entry [FOO]: a later [FOO] pushes 1 and 2. *)
Theorem unknown_word_keeps_partial_body (fuel : nat) :
  (forall lb fuel' word s cw,
     reachable lb s -> compiling s = true -> current_word s = Some cw ->
     snd (strtol lb word) <> "" -> find_word word (dictionary s) = None ->
     exists s',
       interpret_token lb fuel' word s = Ok false s' /\
       compiling s' = false /\
       data <$> word_at (dictionary s') cw = Some (compile_buffer s)) /\
  exists s foo,
    interpret LP64 (S fuel) ": FOO 1 2 BAR 3 ;" boot = Ok tt s /\
    out s = "Unknown word: BAR" ++ LF /\
    compiling s = false /\
    find_word "FOO" (dictionary s) = Some foo /\
    data <$> word_at (dictionary s) foo = Some (Some [tag LP64 1; tag LP64 2]) /\
    exists s1, interpret LP64 (S fuel) "FOO" s = Ok tt s1 /\
               contents s1 = [1; 2].
Proof.
  split.
  - intros lb fuel' word s cw Hr Hc Hcw Hnum Hf.
    destruct (inv_current s (reachable_inv lb s Hr) cw Hcw) as (e & He & _).
    rewrite (interpret_token_unknown lb fuel' word s Hnum Hf), Hc.
    eexists. split; [reflexivity|]. split; [reflexivity|].
    unfold end_compile. simpl_state. rewrite Hcw. simpl_state.
    rewrite (word_at_set_data_same _ _ _ _ He). reflexivity.
  - eexists _, 22%nat.
    split; [vm_compute; reflexivity|].
    repeat (split; [reflexivity|]).
    eexists. split; [vm_compute; reflexivity | reflexivity].
Qed.

(** ** Reading a token *)

Lemma strstr_eqn hay needle :
  strstr hay needle =
  if String.prefix needle hay then Some hay
  else match hay with
       | String _ r => strstr r needle
       | EmptyString => None
       end.
Proof. destruct hay; reflexivity. Qed.

Lemma prefix_app t r : String.prefix t (t ++ r) = true.
Proof.
  induction t as [|c t IH]; cbn; [destruct r; reflexivity|].
  destruct (ascii_dec c c); [exact IH|congruence].
Qed.

Lemma str_drop_app t r : str_drop (String.length t) (t ++ r) = r.
Proof. induction t as [|c t IH]; cbn; [destruct r; reflexivity|exact IH]. Qed.

Lemma span_token_app t r :
  blank_free t = true -> token_end r = true -> span_token (t ++ r) = (t, r).
Proof.
  intros Ht Hr. induction t as [|c t IH]; cbn in *.
  - destruct r as [|d r]; [reflexivity|]. cbn in Hr. cbn. rewrite Hr. reflexivity.
  - apply andb_true_iff in Ht as [Hc Ht].
    destruct (isspace c); [discriminate|]. rewrite (IH Ht). reflexivity.
Qed.

Lemma skip_space_app pre t r :
  blank pre = true -> t <> "" -> blank_free t = true ->
  skip_space (pre ++ t ++ r) = t ++ r.
Proof.
  intros Hp Hne Ht. induction pre as [|c pre IH]; cbn in *.
  - destruct t as [|d t]; [congruence|]. cbn in *.
    apply andb_true_iff in Ht as [Hd _].
    destruct (isspace d); [discriminate|reflexivity].
  - apply andb_true_iff in Hp as [Hc Hp]. rewrite Hc. exact (IH Hp).
Qed.

(** [strstr] finds the token where [sscanf] read it. *)
Lemma strstr_app pre t r :
  blank pre = true -> t <> "" -> blank_free t = true ->
  strstr (pre ++ t ++ r) t = Some (t ++ r).
Proof.
  intros Hp Hne Ht. induction pre as [|c pre IH].
  - cbn [append]. rewrite strstr_eqn, prefix_app. reflexivity.
  - cbn [append]. rewrite strstr_eqn.
    destruct t as [|d t]; [congruence|].
    cbn in Hp, Ht. apply andb_true_iff in Hp as [Hc Hp].
    apply andb_true_iff in Ht as [Hd Ht'].
    cbn [String.prefix]. destruct (ascii_dec d c) as [->|_].
    + rewrite Hc in Hd. discriminate.
    + apply IH. exact Hp.
Qed.

Lemma next_token_app s pre t r :
  input_ptr s = pre ++ t ++ r ->
  blank pre = true -> t <> "" -> blank_free t = true ->
  token_end r = true -> Z.of_nat (String.length t) < WORD_SIZE ->
  next_token s = Ok (Some t) (set_input_ptr r s).
Proof.
  intros Hin Hp Hne Ht Hr Hlen. unfold next_token, sscanf_s.
  rewrite Hin, (skip_space_app pre t r Hp Hne Ht), (span_token_app t r Ht Hr).
  cbn [fst]. destruct t as [|c t]; [congruence|].
  destruct (Z.geb_spec (Z.of_nat (String.length (String c t))) WORD_SIZE);
    [lia|].
  unfold bind, advance, ret.
  rewrite Hin, (strstr_app pre (String c t) r Hp Hne Ht), str_drop_app.
  reflexivity.
Qed.

Lemma next_token_end s :
  blank (input_ptr s) = true -> next_token s = Ok None s.
Proof.
  intros Hb. unfold next_token, sscanf_s.
  assert (H : forall x, blank x = true -> skip_space x = "").
  { induction x as [|c x IH]; cbn; [reflexivity|].
    intros Hx. apply andb_true_iff in Hx as [Hc Hx]. rewrite Hc. exact (IH Hx). }
  rewrite (H _ Hb). reflexivity.
Qed.

(** What [sscanf] reads at the front of a line. *)
Lemma skip_space_token pre t r :
  blank pre = true -> t <> "" -> blank_free t = true ->
  token_end r = true ->
  sscanf_s (pre ++ t ++ r) = Some t.
Proof.
  intros Hp Hne Ht Hr. unfold sscanf_s.
  rewrite (skip_space_app pre t r Hp Hne Ht), (span_token_app t r Ht Hr).
  destruct t; [congruence|reflexivity].
Qed.

(** A token too long for the array [sscanf] fills. *)
Lemma next_token_long s pre t r :
  input_ptr s = pre ++ t ++ r ->
  blank pre = true -> blank_free t = true -> token_end r = true ->
  WORD_SIZE <= Z.of_nat (String.length t) ->
  next_token s = Undefined BufferOverrun.
Proof.
  intros Hin Hp Ht Hr Hlen. unfold next_token.
  assert (Hne : t <> "") by (intros ->; cbn in Hlen; unfold WORD_SIZE in Hlen; lia).
  rewrite Hin, (skip_space_token pre t r Hp Hne Ht Hr).
  destruct (Z.geb_spec (Z.of_nat (String.length t)) WORD_SIZE); [reflexivity|lia].
Qed.

(** C7.  When the next token of the line is no number and is in no entry,
    and has fewer than 32 characters, the run of [interpret] ends normally
    at once: the message naming the token is added to the output, the
    rest of the line stays unread behind the cursor, the data stack is as
    it was, and the interpreter is not compiling.  When it was not
    compiling before either, the dictionary is untouched and any further
    line is interpreted exactly as it would have been without the faulty
    line, apart from the message in the output.  When the token has 32
    characters or more, nothing of this happens: [sscanf] has run over the
    end of the array it was given before the token is looked up. *)
Theorem unknown_word_ends_the_line_only lb fuel n s pre word r :
  input_ptr s = pre ++ word ++ r ->
  blank pre = true -> word <> "" -> blank_free word = true ->
  token_end r = true ->
  snd (strtol lb word) <> "" ->
  find_word word (dictionary s) = None ->
  let msg := "Unknown word: " ++ word ++ LF in
  (Z.of_nat (String.length word) < WORD_SIZE ->
   exists s2,
     interpret_loop lb fuel (S n) s = Ok tt s2 /\
     out s2 = out s ++ msg /\
     input_ptr s2 = r /\
     stack s2 = stack s /\ sp s2 = sp s /\
     compiling s2 = false /\
     (compiling s = false ->
      dictionary s2 = dictionary s /\
      forall fuel' line,
        interpret lb fuel' line s2 = interpret lb fuel' line (printf msg s))) /\
  (WORD_SIZE <= Z.of_nat (String.length word) ->
   interpret_loop lb fuel (S n) s = Undefined BufferOverrun).
Proof.
  intros Hin Hp Hne Hbf Hr Hnum Hf msg. split; intros Hlen.
  - pose proof (next_token_app s pre word r Hin Hp Hne Hbf Hr Hlen) as Ht.
    exists (if compiling s then end_compile (printf msg (set_input_ptr r s))
            else printf msg (set_input_ptr r s)).
    split.
    + cbn [interpret_loop]. unfold bind at 1. rewrite Ht.
      unfold bind at 1.
      rewrite (interpret_token_unknown lb fuel word (set_input_ptr r s) Hnum Hf).
      reflexivity.
    + destruct (compiling s) eqn:E.
      * unfold end_compile. simpl_state.
        destruct (current_word s); simpl_state;
          repeat split; intros; discriminate.
      * simpl_state. repeat split; exact E.
  - cbn [interpret_loop]. unfold bind at 1.
    rewrite (next_token_long s pre word r Hin Hp Hbf Hr Hlen). reflexivity.
Qed.

Lemma unknown_word_ends_the_line_only_witness :
  (exists s2,
     interpret LP64 1 "FOOBAR 1 +" boot = Ok tt s2 /\
     out s2 = out boot ++ "Unknown word: FOOBAR" ++ LF /\
     input_ptr s2 = " 1 +" /\
     stack s2 = stack boot /\ sp s2 = sp boot /\ compiling s2 = false /\
     dictionary s2 = dictionary boot /\
     exists s3, interpret LP64 1 "1 2 +" s2 = Ok tt s3 /\ contents s3 = [3]) /\
  interpret LP64 1 "ABCDEFGHIJKLMNOPQRSTUVWXYZABCDEF 1 +" boot =
    Undefined BufferOverrun.
Proof.
  assert (N1 : snd (strtol LP64 "FOOBAR") <> "") by (vm_compute; discriminate).
  assert (N2 : snd (strtol LP64 "ABCDEFGHIJKLMNOPQRSTUVWXYZABCDEF") <> "")
    by (vm_compute; discriminate).
  assert (L1 : Z.of_nat (String.length "FOOBAR") < WORD_SIZE)
    by (vm_compute; reflexivity).
  assert (L2 : WORD_SIZE <=
               Z.of_nat (String.length "ABCDEFGHIJKLMNOPQRSTUVWXYZABCDEF"))
    by (vm_compute; discriminate).
  split.
  - destruct (proj1 (unknown_word_ends_the_line_only LP64 1 10
                       (set_input_ptr "FOOBAR 1 +" boot) "" "FOOBAR" " 1 +"
                       eq_refl eq_refl ltac:(discriminate) eq_refl eq_refl
                       N1 eq_refl) L1)
      as (s2 & Hrun & Hout & Hptr & Hst & Hsp & Hc & Hnext).
    destruct (Hnext eq_refl) as [Hd Hline].
    exists s2. split; [exact Hrun|]. split; [exact Hout|].
    split; [exact Hptr|]. split; [exact Hst|]. split; [exact Hsp|].
    split; [exact Hc|]. split; [exact Hd|].
    rewrite Hline. eexists. split; [vm_compute; reflexivity|reflexivity].
  - exact (proj2 (unknown_word_ends_the_line_only LP64 1 36
                    (set_input_ptr "ABCDEFGHIJKLMNOPQRSTUVWXYZABCDEF 1 +" boot)
                    "" "ABCDEFGHIJKLMNOPQRSTUVWXYZABCDEF" " 1 +"
                    eq_refl eq_refl ltac:(discriminate) eq_refl eq_refl
                    N2 eq_refl) L2).
Defined.

(** ** The loop of [interpret] ends *)

Lemma keeps_reads {A} (m : M A) : keeps m -> reads m.
Proof. intros Hk s a s' H. destruct (Hk _ _ _ H) as [_ ->]. lia. Qed.

Lemma reads_bind {A B} (m : M A) (k : A -> M B) :
  reads m -> (forall a, reads (k a)) -> reads (bind m k).
Proof.
  intros Hm Hk s b s' H. unfold bind in H.
  destruct (m s) as [a s1| | |] eqn:E; try discriminate.
  pose proof (Hm _ _ _ E). pose proof (Hk _ _ _ _ H). lia.
Qed.

Lemma strstr_length needle : forall hay y,
  strstr hay needle = Some y ->
  String.prefix needle y = true /\
  (String.length y <= String.length hay)%nat.
Proof.
  induction hay as [|c hay IH]; intros y H; rewrite strstr_eqn in H.
  - destruct (String.prefix needle "") eqn:E; [|discriminate].
    injection H as <-. split; [exact E|lia].
  - destruct (String.prefix needle (String c hay)) eqn:E.
    + injection H as <-. split; [exact E|lia].
    + destruct (IH _ H) as [Hp Hl]. split; [exact Hp|cbn; lia].
Qed.

Lemma str_drop_prefix needle : forall y,
  String.prefix needle y = true ->
  (String.length (str_drop (String.length needle) y) + String.length needle
   = String.length y)%nat.
Proof.
  induction needle as [|c needle IH]; intros y H.
  - cbn. destruct y; cbn; lia.
  - destruct y as [|d y]; cbn in H; [discriminate|].
    destruct (ascii_dec c d); [|discriminate].
    cbn. rewrite <- (IH _ H). lia.
Qed.

(** A token read moves the cursor forward by one character at least. *)
Lemma next_token_shorter s w s1 :
  next_token s = Ok (Some w) s1 ->
  (String.length (input_ptr s1) < String.length (input_ptr s))%nat.
Proof.
  intros H. unfold next_token in H.
  destruct (sscanf_s (input_ptr s)) as [tok|] eqn:Et; [|discriminate].
  destruct (_ >=? _); [discriminate|].
  unfold bind, advance, ret in H.
  destruct (strstr (input_ptr s) tok) as [y|] eqn:Ey; [|discriminate].
  injection H as _ <-. cbn [input_ptr set_input_ptr].
  destruct (strstr_length _ _ _ Ey) as [Hp Hl].
  pose proof (str_drop_prefix _ _ Hp) as Hd.
  assert (Hne : (0 < String.length tok)%nat).
  { unfold sscanf_s in Et.
    destruct (fst (span_token (skip_space (input_ptr s)))); [discriminate|].
    injection Et as <-. cbn. lia. }
  lia.
Qed.

Lemma next_token_none s s1 : next_token s = Ok None s1 -> s1 = s.
Proof.
  intros H. unfold next_token in H.
  destruct (sscanf_s (input_ptr s)) as [tok|].
  - destruct (_ >=? _); [discriminate|].
    unfold bind, advance, ret in H.
    destruct (strstr (input_ptr s) tok); discriminate.
  - injection H as <-. reflexivity.
Qed.

Lemma reads_next_token : reads next_token.
Proof.
  intros s [w|] s1 H.
  - pose proof (next_token_shorter _ _ _ H). lia.
  - rewrite (next_token_none _ _ H). lia.
Qed.

Lemma reads_run_prim p : reads (run_prim p).
Proof.
  destruct p; try (apply keeps_reads, keeps_run_prim; discriminate).
  - unfold run_prim, colon. apply reads_bind; [apply reads_next_token|].
    intros [nm|]; [|apply keeps_reads, keeps_printf].
    intros s a s' [= _ <-]. cbn. lia.
  - intros s a s' H. cbn [run_prim] in H. unfold semicolon in H.
    destruct (negb (compiling s)); injection H as _ <-; unfold end_compile;
      [|destruct (current_word s)]; cbn; lia.
Qed.

Lemma reads_execute_body (exec : ptr -> M unit) body :
  (forall w, reads (exec w)) -> reads (execute_body exec body).
Proof.
  intros Hexec. induction body as [|val rest IH]; cbn [execute_body].
  - apply keeps_reads, keeps_ret.
  - apply reads_bind; [|intros _; exact IH].
    destruct val as [v|w]; cbn [execute_cell]; [|apply Hexec].
    destruct (Z.odd v); apply keeps_reads; auto with keeps.
Qed.

Lemma reads_execute_word fuel : forall w, reads (execute_word fuel w).
Proof.
  induction fuel as [|fuel IH]; intros w s a s' H; cbn [execute_word] in H;
    [discriminate|].
  destruct (word_at (dictionary s) w) as [entry|]; [|discriminate].
  destruct (code entry) as [f|].
  - exact (reads_run_prim f _ _ _ H).
  - destruct (data entry) as [body|].
    + exact (reads_execute_body _ body IH _ _ _ H).
    + injection H as _ <-. lia.
Qed.

Lemma reads_compile_item c : reads (compile_item c).
Proof.
  intros s a s' H. unfold compile_item in H.
  destruct (compile_buffer s); [|discriminate].
  destruct (_ <? _); [|discriminate]. injection H as _ <-. cbn. lia.
Qed.

Lemma reads_interpret_token lb fuel word : reads (interpret_token lb fuel word).
Proof.
  intros s b s' H. unfold interpret_token in H.
  destruct (strtol lb word) as [num endptr].
  destruct endptr as [|c r].
  - revert H. apply reads_bind; [|intros _; apply keeps_reads, keeps_ret].
    destruct (compiling s);
      [apply reads_compile_item|apply keeps_reads, keeps_push].
  - destruct (find_word word (dictionary s)) as [w|].
    + revert H. apply reads_bind; [|intros _; apply keeps_reads, keeps_ret].
      destruct (compiling s && negb _);
        [apply reads_compile_item|apply reads_execute_word].
    + injection H as _ <-. simpl_state.
      destruct (compiling s);
        [unfold end_compile; simpl_state; destruct (current_word s)|];
        simpl_state; lia.
Qed.

(** Once the bound of the loop exceeds the number of characters behind the
    cursor, its value is of no consequence: the loop ends by itself. *)
Lemma interpret_loop_bound lb fuel n : forall m s,
  (String.length (input_ptr s) < n)%nat ->
  (String.length (input_ptr s) < m)%nat ->
  interpret_loop lb fuel n s = interpret_loop lb fuel m s.
Proof.
  induction n as [|n IH]; intros m s Hn Hm; [lia|].
  destruct m as [|m]; [lia|]. cbn [interpret_loop].
  unfold bind at 1 3.
  destruct (next_token s) as [[word|] s1| | |] eqn:Et; try reflexivity.
  pose proof (next_token_shorter _ _ _ Et) as Hlt.
  unfold bind.
  destruct (interpret_token lb fuel word s1) as [[] s2| | |] eqn:Es;
    try reflexivity.
  pose proof (reads_interpret_token lb fuel word _ _ _ Es).
  apply IH; lia.
Qed.

(** The bound [interpret] starts the loop with is large enough. *)
Lemma interpret_bound lb fuel n line s :
  (String.length line < n)%nat ->
  interpret_loop lb fuel n (set_input_ptr line s) = interpret lb fuel line s.
Proof.
  intros Hn. unfold interpret. apply interpret_loop_bound; cbn; lia.
Qed.

(** ** The tag of a literal *)

Lemma wrap_small bits z :
  0 < bits -> - 2 ^ (bits - 1) <= z < 2 ^ (bits - 1) -> wrap bits z = z.
Proof.
  intros Hb Hz. unfold wrap.
  replace (2 ^ bits) with (2 * 2 ^ (bits - 1))
    by (rewrite <- Z.pow_succ_r by lia; f_equal; lia).
  rewrite Z.mod_small by lia. lia.
Qed.

Lemma lor_double_1 z : Z.lor (2 * z) 1 = 2 * z + 1.
Proof.
  pose proof (Z.add_lor_land (2 * z) 1) as H.
  replace (Z.land (2 * z) 1) with 0 in H; [lia|].
  change 1 with (Z.ones 1). rewrite Z.land_ones by lia.
  change (2 ^ 1) with 2. rewrite Z.mul_comm, Z.mod_mul by lia. reflexivity.
Qed.

(** With more than 32 bits in a [long], the tagged literal is odd and
    decodes to the [int] it was made from. *)
Lemma decode_tag lb n :
  32 < lb -> INT_MIN <= n <= INT_MAX ->
  exists v, tag lb n = CNum v /\ Z.odd v = true /\ decode v = n.
Proof.
  unfold INT_MIN, INT_MAX. intros Hlb Hn.
  assert (Hpow : 2 ^ 32 <= 2 ^ (lb - 1)) by (apply Z.pow_le_mono_r; lia).
  exists (2 * n + 1). unfold tag, decode.
  rewrite Z.shiftl_mul_pow2 by lia. change (2 ^ 1) with 2.
  rewrite wrap_small by lia.
  rewrite (Z.mul_comm n 2), lor_double_1. split; [reflexivity|]. split.
  - rewrite Z.add_comm, Z.odd_add_mul_2. reflexivity.
  - rewrite Z.shiftr_div_pow2 by lia. change (2 ^ 1) with 2.
    replace ((2 * n + 1) / 2) with n
      by (apply Z.div_unique with 1; lia).
    apply to_int_small. unfold INT_MIN, INT_MAX. lia.
Qed.

(** ** One token at a time *)

Lemma loop_step lb fuel n s w s1 s2 :
  next_token s = Ok (Some w) s1 ->
  interpret_token lb fuel w s1 = Ok true s2 ->
  interpret_loop lb fuel (S n) s = interpret_loop lb fuel n s2.
Proof.
  intros Ht Hs. cbn [interpret_loop]. unfold bind at 1. rewrite Ht.
  unfold bind at 1. rewrite Hs. reflexivity.
Qed.

Lemma loop_stop lb fuel n s :
  next_token s = Ok None s -> interpret_loop lb fuel (S n) s = Ok tt s.
Proof.
  intros Ht. cbn [interpret_loop]. unfold bind at 1. rewrite Ht. reflexivity.
Qed.

(** A word met outside a definition is executed. *)
Lemma interpret_token_call lb fuel w p s :
  snd (strtol lb w) <> "" ->
  find_word w (dictionary s) = Some p ->
  compiling s = false ->
  interpret_token lb fuel w s = (let* _ := execute_word fuel p in ret true) s.
Proof.
  intros Hnum Hf Hc. unfold interpret_token.
  destruct (strtol lb w) as [num endptr]. cbn [snd] in Hnum.
  destruct endptr; [congruence|]. rewrite Hf, Hc. reflexivity.
Qed.

(** An immediate word met inside a definition is executed as well. *)
Lemma interpret_token_immediate lb fuel w p e s :
  snd (strtol lb w) <> "" ->
  find_word w (dictionary s) = Some p ->
  word_at (dictionary s) p = Some e -> is_immediate e = true ->
  interpret_token lb fuel w s = (let* _ := execute_word fuel p in ret true) s.
Proof.
  intros Hnum Hf He Hi. unfold interpret_token.
  destruct (strtol lb w) as [num endptr]. cbn [snd] in Hnum.
  destruct endptr; [congruence|]. rewrite Hf, He, Hi, andb_false_r.
  reflexivity.
Qed.


Lemma execute_colon fuel p e nm s s1 :
  word_at (dictionary s) p = Some e -> code e = Some p_colon ->
  next_token s = Ok (Some nm) s1 ->
  execute_word (S fuel) p s =
  Ok tt (start_compile
           (set_current_word (Some (length (dictionary s1)))
              (set_dictionary (new_word nm None false :: dictionary s1) s1))).
Proof.
  intros He Hc Ht. cbn [execute_word]. rewrite He, Hc. cbn [run_prim].
  unfold colon, bind. rewrite Ht. reflexivity.
Qed.

Lemma execute_semicolon fuel p e s :
  word_at (dictionary s) p = Some e -> code e = Some p_semicolon ->
  compiling s = true ->
  execute_word (S fuel) p s = Ok tt (end_compile s).
Proof.
  intros He Hc Hcomp. cbn [execute_word]. rewrite He, Hc. cbn [run_prim].
  unfold semicolon. rewrite Hcomp. reflexivity.
Qed.


(** ** Literals *)



(** ** The decimal spelling of an [int] *)

Lemma digits_uint d : forall acc,
  digits acc (NilEmpty.string_of_uint d) = (uint_value d acc, "").
Proof. induction d; intros acc; cbn; [reflexivity|..]; apply IHd. Qed.

Lemma uint_value_acc d : forall acc,
  Z.pos (Pos.of_uint_acc d acc) = uint_value d (Z.pos acc).
Proof.
  induction d; intros acc; cbn [Pos.of_uint_acc uint_value];
    [reflexivity|..]; rewrite IHd; f_equal; lia.
Qed.

Lemma uint_value_of_uint d : Z.of_N (Pos.of_uint d) = uint_value d 0.
Proof.
  induction d; cbn [Pos.of_uint uint_value Z.of_N]; [reflexivity|exact IHd|..];
    apply uint_value_acc.
Qed.

Lemma uint_value_to_uint p : uint_value (Pos.to_uint p) 0 = Z.pos p.
Proof. rewrite <- uint_value_of_uint, DecimalPos.Unsigned.of_to. reflexivity. Qed.

Lemma uint_value_lower d : forall acc,
  0 <= acc -> acc * 10 ^ Z.of_nat (Decimal.nb_digits d) <= uint_value d acc.
Proof.
  induction d; intros acc Hacc; cbn [uint_value Decimal.nb_digits];
    [rewrite Z.pow_0_r; lia|..];
    rewrite Nat2Z.inj_succ, Z.pow_succ_r by lia;
    (etransitivity; [|apply IHd; lia]);
    pose proof (Z.pow_pos_nonneg 10 (Z.of_nat (Decimal.nb_digits d))); nia.
Qed.

(** The numeral of a positive number starts with a digit other than 0. *)
Lemma to_uint_head p :
  Pos.to_uint p <> Decimal.Nil /\
  forall l, Pos.to_uint p <> Decimal.D0 l.
Proof.
  split; [apply Unsigned.to_uint_nonnil|]. intros l E.
  pose proof (Unsigned.to_of (Pos.to_uint p)) as H.
  rewrite Unsigned.of_to in H. cbn [N.to_uint] in H.
  rewrite E in H. unfold Decimal.unorm in H.
  destruct (Decimal.nzhead (Decimal.D0 l)) eqn:En.
  - apply (Unsigned.to_uint_nonzero p). rewrite E. exact H.
  - exact (nzhead_nonzero _ _ En).
  - discriminate H.
  - discriminate H.
  - discriminate H.
  - discriminate H.
  - discriminate H.
  - discriminate H.
  - discriminate H.
  - discriminate H.
  - discriminate H.
Qed.

Lemma length_string_of_uint d :
  String.length (NilEmpty.string_of_uint d) = Decimal.nb_digits d.
Proof. induction d; cbn; [reflexivity|..]; rewrite IHd; reflexivity. Qed.

Lemma blank_free_string_of_uint d :
  blank_free (NilEmpty.string_of_uint d) = true.
Proof. induction d; cbn; [reflexivity|..]; exact IHd. Qed.

(** A positive number below 10^10 has at most ten digits. *)
Lemma nb_digits_to_uint p :
  Z.pos p < 10 ^ 10 -> (Decimal.nb_digits (Pos.to_uint p) <= 10)%nat.
Proof.
  intros Hp. destruct (to_uint_head p) as [Hnil Hd0].
  pose proof (uint_value_to_uint p) as Hval.
  destruct (Pos.to_uint p) as [|l|l|l|l|l|l|l|l|l|l] eqn:E;
    [congruence|exfalso; exact (Hd0 l eq_refl)|..];
    cbn [uint_value Decimal.nb_digits] in *;
    (destruct (Nat.le_gt_cases (Decimal.nb_digits l) 9) as [|Hbig]; [lia|]);
    exfalso;
    match type of Hval with uint_value l ?a = _ =>
      pose proof (uint_value_lower l a ltac:(lia)) as Hlow end;
    assert (Hpow : 10 ^ 10 <= 10 ^ Z.of_nat (Decimal.nb_digits l))
      by (apply Z.pow_le_mono_r; lia);
    nia.
Qed.

Lemma digit_not_space c : isdigit c = true -> isspace c = false.
Proof.
  unfold isdigit, isspace. intros H.
  apply andb_true_iff in H as [H1 H2].
  apply Z.leb_le in H1. apply Z.leb_le in H2.
  apply orb_false_iff. split; [apply Z.eqb_neq; lia|].
  apply andb_false_iff. right. apply Z.leb_gt. lia.
Qed.

Lemma digit_not_sign c :
  isdigit c = true -> Ascii.eqb c "-" = false /\ Ascii.eqb c "+" = false.
Proof.
  intros H. split; apply Ascii.eqb_neq; intros ->; discriminate H.
Qed.

(** [strtol] on a numeral without sign, and on one with a minus sign. *)
Lemma strtol_unsigned lb c r :
  isdigit c = true ->
  strtol lb (String c r) =
  (Z.max (LONG_MIN lb) (Z.min (LONG_MAX lb) (fst (digits 0 (String c r)))),
   snd (digits 0 (String c r))).
Proof.
  intros Hd. destruct (digit_not_sign c Hd) as [Hm Hp].
  unfold strtol. cbn [skip_space]. rewrite (digit_not_space c Hd), Hm, Hp, Hd.
  destruct (digits 0 (String c r)). reflexivity.
Qed.

Lemma strtol_minus lb c r :
  isdigit c = true ->
  strtol lb (String "-" (String c r)) =
  (Z.max (LONG_MIN lb) (Z.min (LONG_MAX lb) (- fst (digits 0 (String c r)))),
   snd (digits 0 (String c r))).
Proof.
  intros Hd. unfold strtol.
  change (skip_space (String "-" (String c r))) with (String "-" (String c r)).
  cbn [Ascii.eqb Bool.eqb]. rewrite Hd.
  destruct (digits 0 (String c r)). reflexivity.
Qed.

Lemma string_of_uint_head d :
  d <> Decimal.Nil ->
  exists c r, NilEmpty.string_of_uint d = String c r /\ isdigit c = true.
Proof.
  destruct d; [congruence|..]; intros _; cbn; eexists _, _;
    (split; [reflexivity|reflexivity]).
Qed.

(** The spelling [printf("%d")] gives an [int] is a token that [strtol]
    reads back in full as that [int]. *)
Lemma fmt_d_token lb n :
  32 <= lb -> INT_MIN <= n <= INT_MAX ->
  fmt_d n <> "" /\ blank_free (fmt_d n) = true /\
  Z.of_nat (String.length (fmt_d n)) < WORD_SIZE /\
  strtol lb (fmt_d n) = (n, "").
Proof.
  unfold INT_MIN, INT_MAX. intros Hlb Hn.
  assert (Hpow : 2 ^ 31 <= 2 ^ (lb - 1)) by (apply Z.pow_le_mono_r; lia).
  destruct n as [|p|p].
  - change (fmt_d 0) with "0". repeat split; try discriminate.
    rewrite (strtol_unsigned lb "0" "" eq_refl).
    change (digits 0 "0") with (0, ""). cbn [fst snd].
    unfold LONG_MIN, LONG_MAX. f_equal. lia.
  - destruct (to_uint_head p) as [Hnil _].
    destruct (string_of_uint_head _ Hnil) as (c & r & Es & Hc).
    assert (Ef : fmt_d (Z.pos p) = NilEmpty.string_of_uint (Pos.to_uint p)).
    { unfold fmt_d. cbn. destruct (Pos.to_uint p); [congruence|..]; reflexivity. }
    rewrite Ef. split; [rewrite Es; discriminate|].
    split; [apply blank_free_string_of_uint|]. split.
    + rewrite length_string_of_uint.
      pose proof (nb_digits_to_uint p ltac:(lia)). unfold WORD_SIZE. lia.
    + rewrite Es, (strtol_unsigned lb c r Hc), <- Es, digits_uint.
      cbn [fst snd]. rewrite uint_value_to_uint.
      unfold LONG_MIN, LONG_MAX. f_equal. lia.
  - destruct (to_uint_head p) as [Hnil _].
    destruct (string_of_uint_head _ Hnil) as (c & r & Es & Hc).
    assert (Ef : fmt_d (Z.neg p)
                 = String "-" (NilEmpty.string_of_uint (Pos.to_uint p))).
    { unfold fmt_d. cbn. destruct (Pos.to_uint p); [congruence|..]; reflexivity. }
    rewrite Ef. split; [discriminate|].
    split; [cbn [blank_free]; rewrite blank_free_string_of_uint; reflexivity|].
    split.
    + cbn [String.length]. rewrite length_string_of_uint.
      pose proof (nb_digits_to_uint p ltac:(lia)). unfold WORD_SIZE. lia.
    + rewrite Es, (strtol_minus lb c r Hc), <- Es, digits_uint.
      cbn [fst snd]. rewrite uint_value_to_uint.
      unfold LONG_MIN, LONG_MAX. f_equal. lia.
Qed.





(** A definition may take the name of [;]: from then on the token finds the
    new entry, which is not immediate, and is compiled like any other
    word. *)
Remark semicolon_can_be_shadowed :
  exists s,
    interpret LP64 1 ": ; 1 ;" boot = Ok tt s /\
    compiling s = true /\
    compile_buffer s = Some [tag LP64 1; CWord 22%nat] /\
    name <$> word_at (dictionary s) 22%nat = Some ";" /\
    is_immediate <$> word_at (dictionary s) 22%nat = Some false.
Proof. eexists. split; [vm_compute; reflexivity|]. repeat split. Qed.

(** * Further properties *)

(** ** The primitives on a stack deep enough *)

Lemma length_contents s :
  stack_ok s -> Z.of_nat (length (contents s)) = sp s.
Proof.
  intros [Hlen Hsp]. unfold contents. rewrite length_take, Hlen.
  unfold STACK_SIZE in *. lia.
Qed.

Lemma push_spec s v :
  stack_ok s -> sp s < STACK_SIZE ->
  exists s',
    push v s = Ok tt s' /\ stack_ok s' /\
    contents s' = (contents s ++ [v])%list /\ rest s' = rest s.
Proof.
  intros Hok Hroom. eexists. split; [apply (push_ok s v Hok Hroom)|].
  split; [apply (stack_ok_push s v Hok Hroom)|].
  split; [apply (contents_push s v Hok Hroom)|reflexivity].
Qed.

Lemma pop_spec s base v :
  stack_ok s -> contents s = (base ++ [v])%list ->
  exists s',
    pop s = Ok v s' /\ stack_ok s' /\ contents s' = base /\ rest s' = rest s.
Proof.
  intros Hok Hc.
  assert (Hpos : 0 < sp s).
  { rewrite <- (length_contents s Hok), Hc, length_app. cbn. lia. }
  destruct (pop_ok s Hok Hpos) as (v' & Hv & Hpop).
  rewrite (contents_pop s v' Hok Hpos Hv) in Hc.
  apply app_inj_tail in Hc as [Hc Hvv]. subst v'.
  eexists. split; [exact Hpop|]. split; [apply (stack_ok_pop s Hok Hpos)|].
  split; [exact Hc|reflexivity].
Qed.

Lemma bind_pop {B} (k : Z -> M B) s base v :
  stack_ok s -> contents s = (base ++ [v])%list ->
  exists s1,
    bind pop k s = k v s1 /\ stack_ok s1 /\ contents s1 = base /\
    rest s1 = rest s.
Proof.
  intros Hok Hc. destruct (pop_spec s base v Hok Hc) as (s1 & E & H).
  exists s1. split; [unfold bind; rewrite E; reflexivity|exact H].
Qed.

Lemma bind_push {B} (k : unit -> M B) s v :
  stack_ok s -> sp s < STACK_SIZE ->
  exists s1,
    bind (push v) k s = k tt s1 /\ stack_ok s1 /\
    contents s1 = (contents s ++ [v])%list /\ rest s1 = rest s.
Proof.
  intros Hok Hroom. destruct (push_spec s v Hok Hroom) as (s1 & E & H).
  exists s1. split; [unfold bind; rewrite E; reflexivity|exact H].
Qed.

Ltac pop_now base v :=
  match goal with
  | Hok : stack_ok ?s, Hc : contents ?s = _ |- context [bind pop ?k ?s] =>
      let s1 := fresh "s" in
      let E := fresh "E" in
      let Hok1 := fresh "Hok" in
      let Hc1 := fresh "Hc" in
      let Hr1 := fresh "Hr" in
      destruct (bind_pop k s base v Hok) as (s1 & E & Hok1 & Hc1 & Hr1);
      [first [exact Hc | rewrite Hc; cbn [app]; rewrite <- ?app_assoc; reflexivity]|];
      rewrite E; clear E
  end.

Ltac room :=
  match goal with
  | Hok : stack_ok ?s, Hc : contents ?s = _ |- sp ?s < STACK_SIZE =>
      rewrite <- (length_contents s Hok), Hc;
      repeat match goal with
             | H : Z.of_nat (length _) <= STACK_SIZE |- _ =>
                 rewrite ?length_app in H; cbn [length] in H
             end;
      rewrite ?length_app; cbn [length]; lia
  end.

Ltac push_now :=
  match goal with
  | Hok : stack_ok ?s, Hc : contents ?s = _
    |- context [bind (push ?v) ?k ?s] =>
      let s1 := fresh "s" in
      let E := fresh "E" in
      let Hok1 := fresh "Hok" in
      let Hc1 := fresh "Hc" in
      let Hr1 := fresh "Hr" in
      destruct (bind_push k s v Hok) as (s1 & E & Hok1 & Hc1 & Hr1);
      [room|]; rewrite E; clear E; rewrite Hc in Hc1
  | Hok : stack_ok ?s, Hc : contents ?s = _ |- context [push ?v ?s] =>
      let s1 := fresh "s" in
      let E := fresh "E" in
      let Hok1 := fresh "Hok" in
      let Hc1 := fresh "Hc" in
      let Hr1 := fresh "Hr" in
      destruct (push_spec s v Hok) as (s1 & E & Hok1 & Hc1 & Hr1);
      [room|]; rewrite E; clear E; rewrite Hc in Hc1
  end.

Ltac stack_done :=
  eexists; split; [reflexivity|]; split; [assumption|];
  split; [match goal with
          | H : contents ?s = _ |- contents ?s = _ => rewrite H
          end; rewrite <- ?app_assoc; reflexivity
         |congruence].

Lemma binary_effect f a b : stack_effect (binary f) [a; b] [f a b].
Proof.
  intros s base Hok Hc Hroom. unfold binary.
  pop_now (base ++ [a])%list b. pop_now base a. push_now. stack_done.
Qed.

Lemma top_of_contents s base v :
  stack_ok s -> contents s = (base ++ [v])%list ->
  stack_read (sp s - 1) s = Ok v s.
Proof.
  intros Hok Hc.
  assert (Hpos : 0 < sp s).
  { rewrite <- (length_contents s Hok), Hc, length_app. cbn. lia. }
  destruct (pop_ok s Hok Hpos) as (v' & Hv & _).
  rewrite (contents_pop s v' Hok Hpos Hv) in Hc.
  apply app_inj_tail in Hc as [_ <-].
  apply stack_read_ok; [destruct Hok; lia|exact Hv].
Qed.

Lemma swap_effect a b : stack_effect Prim.swap [a; b] [b; a].
Proof.
  intros s base Hok Hc Hroom. unfold Prim.swap.
  pop_now (base ++ [a])%list b. pop_now base a.
  push_now. push_now. stack_done.
Qed.

Lemma over_effect a b : stack_effect Prim.over [a; b] [a; b; a].
Proof.
  intros s base Hok Hc Hroom. unfold Prim.over.
  pop_now (base ++ [a])%list b. pop_now base a.
  push_now. push_now. push_now. stack_done.
Qed.

Lemma rot_effect a b c : stack_effect Prim.rot [a; b; c] [b; c; a].
Proof.
  intros s base Hok Hc Hroom. unfold Prim.rot.
  pop_now (base ++ [a; b])%list c. pop_now (base ++ [a])%list b.
  pop_now base a. push_now. push_now. push_now. stack_done.
Qed.

Lemma drop_effect a : stack_effect Prim.drop [a] [].
Proof.
  intros s base Hok Hc Hroom. unfold Prim.drop.
  pop_now base a. unfold ret. rewrite app_nil_r.
  eexists. repeat split; try eassumption; apply Hok0.
Qed.

Lemma dup_effect a : stack_effect Prim.dup [a] [a; a].
Proof.
  intros s base Hok Hc Hroom. unfold Prim.dup, bind.
  rewrite (top_of_contents s base a Hok Hc).
  push_now. stack_done.
Qed.

Lemma not_effect a : stack_effect Prim.not [a] [Z.lnot a].
Proof.
  intros s base Hok Hc Hroom. unfold Prim.not.
  pop_now base a. push_now. stack_done.
Qed.

(** X1.  Each of [+ - * = < > AND OR], run on a stack with [a] below [b]
    on top, takes both off and pushes its result, [a] being the left
    operand; nothing else changes. *)
Theorem binary_words_take_two_leave_one p f s base a b :
  binary_op p = Some f ->
  stack_ok s -> contents s = (base ++ [a; b])%list ->
  exists s',
    run_prim p s = Ok tt s' /\ stack_ok s' /\
    contents s' = (base ++ [f a b])%list /\ rest s' = rest s.
Proof.
  intros Hp Hok Hc.
  assert (Hroom : Z.of_nat (length (base ++ [f a b])%list) <= STACK_SIZE).
  { pose proof (length_contents s Hok) as Hl. rewrite Hc in Hl.
    rewrite length_app in *. cbn [length] in *. destruct Hok. lia. }
  destruct p; cbn [binary_op] in Hp; try discriminate; injection Hp as <-;
    cbn [run_prim];
    unfold Prim.add, Prim.sub, Prim.mul, Prim.eq, Prim.lt, Prim.gt, Prim.and,
      Prim.or;
    match goal with
    | |- context [binary ?g s] =>
        apply (binary_effect g a b s base Hok Hc); exact Hroom
    end.
Qed.

Lemma binary_words_take_two_leave_one_witness :
  binary_op p_sub = Some (fun a b => to_int (a - b)) /\
  stack_ok stack_7_3 /\ contents stack_7_3 = ([] ++ [7; 3])%list /\
  exists s',
    run_prim p_sub stack_7_3 = Ok tt s' /\ stack_ok s' /\
    contents s' = ([] ++ [to_int (7 - 3)])%list /\ rest s' = rest stack_7_3.
Proof.
  assert (Hok : stack_ok stack_7_3)
    by (split; [reflexivity|cbn; unfold STACK_SIZE; lia]).
  split; [reflexivity|]. split; [exact Hok|]. split; [reflexivity|].
  exact (binary_words_take_two_leave_one p_sub _ stack_7_3 [] 7 3
           eq_refl Hok eq_refl).
Defined.

(** ** Underflow and overflow *)

Lemma bind_pop_empty {B} (k : Z -> M B) s :
  sp s <= 0 ->
  bind pop k s = Exit 1 (printf ("Stack underflow!" ++ LF) s).
Proof. intros H. unfold bind. rewrite (pop_empty s H). reflexivity. Qed.

Lemma bind_pop_any {B} (k : Z -> M B) s :
  stack_ok s -> 0 < sp s ->
  exists v s1,
    bind pop k s = k v s1 /\ stack_ok s1 /\ sp s1 = sp s - 1 /\
    out s1 = out s /\ core s1 = core s.
Proof.
  intros Hok Hpos. destruct (pop_ok s Hok Hpos) as (v & _ & E).
  exists v, (set_sp (sp s - 1) s). unfold bind. rewrite E.
  split; [reflexivity|]. split; [apply (stack_ok_pop s Hok Hpos)|].
  repeat split.
Qed.

Ltac pop_or_fail :=
  match goal with
  | Hok : stack_ok ?s |- context [bind pop ?k ?s] =>
      let Hcase := fresh "Hcase" in
      destruct (Z_le_gt_dec (sp s) 0) as [Hcase|Hcase];
      [ rewrite (bind_pop_empty k s Hcase)
      | first
          [ exfalso; lia
          | let v := fresh "v" in
            let s1 := fresh "s" in
            let E := fresh "E" in
            let Hok1 := fresh "Hok" in
            let Hsp := fresh "Hsp" in
            let Ho := fresh "Ho" in
            let Hcore := fresh "Hcore" in
            destruct (bind_pop_any k s Hok) as
              (v & s1 & E & Hok1 & Hsp & Ho & Hcore);
            [lia|]; rewrite E; clear E ] ]
  end.

(** X2.  Every primitive but [DUP], run on a stack with fewer cells than
    it takes, prints the underflow message and exits with status 1; the
    dictionary and the compiler are as they were. *)
Theorem primitives_report_underflow p s :
  stack_ok s -> p <> p_dup -> sp s < Z.of_nat (arity p) ->
  exists s',
    run_prim p s = Exit 1 s' /\
    out s' = out s ++ "Stack underflow!" ++ LF /\ core s' = core s.
Proof.
  intros Hok Hdup Hsp.
  assert (Hlow : 0 <= sp s) by (destruct Hok; lia).
  destruct p; cbn [arity] in Hsp; try congruence; try lia; cbn [run_prim];
    unfold Prim.add, Prim.sub, Prim.mul, Prim.divide, Prim.mod_, Prim.drop,
      Prim.swap, Prim.over, Prim.rot, Prim.emit, Prim.dot, Prim.eq, Prim.lt,
      Prim.gt, Prim.and, Prim.or, Prim.not, binary;
    repeat pop_or_fail;
    (eexists; split; [reflexivity|]; split;
       [ cbn [out printf]; congruence
       | match goal with
         | |- core (printf _ ?x) = _ => change (core x = core s); congruence
         end ]).
Qed.

Lemma primitives_report_underflow_witness :
  stack_ok stack_7_3 /\ p_rot <> p_dup /\
  sp stack_7_3 < Z.of_nat (arity p_rot) /\
  exists s',
    run_prim p_rot stack_7_3 = Exit 1 s' /\
    out s' = out stack_7_3 ++ "Stack underflow!" ++ LF /\
    core s' = core stack_7_3.
Proof.
  assert (Hok : stack_ok stack_7_3)
    by (split; [reflexivity|cbn; unfold STACK_SIZE; lia]).
  assert (Hne : p_rot <> p_dup) by discriminate.
  assert (Hsp : sp stack_7_3 < Z.of_nat (arity p_rot)) by (cbn; lia).
  split; [exact Hok|]. split; [exact Hne|]. split; [exact Hsp|].
  exact (primitives_report_underflow p_rot stack_7_3 Hok Hne Hsp).
Defined.

(** ** How the stack words compose *)

Lemma stack_ok_7_3 : stack_ok stack_7_3.
Proof. split; [reflexivity|cbn; unfold STACK_SIZE; lia]. Qed.

Lemma stack_ok_1_2_3 : stack_ok stack_1_2_3.
Proof. split; [reflexivity|cbn; unfold STACK_SIZE; lia]. Qed.

Lemma room_of_contents s base pre post :
  stack_ok s -> contents s = (base ++ pre)%list ->
  (length post <= length pre)%nat ->
  Z.of_nat (length (base ++ post)%list) <= STACK_SIZE.
Proof.
  intros Hok Hc Hle. pose proof (length_contents s Hok) as Hl.
  rewrite Hc in Hl. rewrite length_app in *. destruct Hok. lia.
Qed.

(** X3.  [SWAP] exchanges the two cells on top, and a second [SWAP] puts
    the stack back as it was. *)
Theorem swap_twice_restores s base a b :
  stack_ok s -> contents s = (base ++ [a; b])%list ->
  exists s1 s2,
    Prim.swap s = Ok tt s1 /\ contents s1 = (base ++ [b; a])%list /\
    Prim.swap s1 = Ok tt s2 /\ contents s2 = contents s /\ rest s2 = rest s.
Proof.
  intros Hok Hc.
  destruct (swap_effect a b s base Hok Hc) as (s1 & E1 & Hok1 & Hc1 & Hr1);
    [apply (room_of_contents s base [a; b]); auto|].
  destruct (swap_effect b a s1 base Hok1 Hc1) as (s2 & E2 & Hok2 & Hc2 & Hr2);
    [apply (room_of_contents s base [a; b]); auto|].
  exists s1, s2. repeat split; try assumption; congruence.
Qed.

Lemma swap_twice_restores_witness :
  stack_ok stack_7_3 /\ contents stack_7_3 = ([] ++ [7; 3])%list /\
  exists s1 s2,
    Prim.swap stack_7_3 = Ok tt s1 /\ contents s1 = ([] ++ [3; 7])%list /\
    Prim.swap s1 = Ok tt s2 /\ contents s2 = contents stack_7_3 /\
    rest s2 = rest stack_7_3.
Proof.
  split; [exact stack_ok_7_3|]. split; [reflexivity|].
  exact (swap_twice_restores stack_7_3 [] 7 3 stack_ok_7_3 eq_refl).
Defined.

(** X4.  On a stack that is neither empty nor full, [DUP] pushes a copy
    of the top cell and [DROP] after it puts the stack back as it was. *)
Theorem dup_then_drop_restores s base a :
  stack_ok s -> contents s = (base ++ [a])%list -> sp s < STACK_SIZE ->
  exists s1 s2,
    Prim.dup s = Ok tt s1 /\ contents s1 = (base ++ [a; a])%list /\
    Prim.drop s1 = Ok tt s2 /\ contents s2 = contents s /\ rest s2 = rest s.
Proof.
  intros Hok Hc Hroom.
  assert (Hlen : Z.of_nat (length (base ++ [a; a])%list) <= STACK_SIZE).
  { pose proof (length_contents s Hok) as Hl. rewrite Hc in Hl.
    rewrite length_app in *. cbn [length] in *. lia. }
  destruct (dup_effect a s base Hok Hc Hlen) as (s1 & E1 & Hok1 & Hc1 & Hr1).
  destruct (drop_effect a s1 (base ++ [a])%list Hok1) as
    (s2 & E2 & Hok2 & Hc2 & Hr2).
  { rewrite Hc1, <- app_assoc. reflexivity. }
  { rewrite app_nil_r. apply (room_of_contents s base [a]); auto. }
  exists s1, s2. rewrite app_nil_r in Hc2.
  repeat split; try assumption; congruence.
Qed.

Lemma dup_then_drop_restores_witness :
  stack_ok stack_7_3 /\ contents stack_7_3 = ([7] ++ [3])%list /\
  sp stack_7_3 < STACK_SIZE /\
  exists s1 s2,
    Prim.dup stack_7_3 = Ok tt s1 /\ contents s1 = ([7] ++ [3; 3])%list /\
    Prim.drop s1 = Ok tt s2 /\ contents s2 = contents stack_7_3 /\
    rest s2 = rest stack_7_3.
Proof.
  assert (Hsp : sp stack_7_3 < STACK_SIZE) by (cbn; unfold STACK_SIZE; lia).
  split; [exact stack_ok_7_3|]. split; [reflexivity|]. split; [exact Hsp|].
  exact (dup_then_drop_restores stack_7_3 [7] 3 stack_ok_7_3 eq_refl Hsp).
Defined.

(** X5.  On a stack with room for one more cell, [OVER] pushes a copy of
    the cell below the top, leaving the two cells it read in place. *)
Theorem over_copies_second s base a b :
  stack_ok s -> contents s = (base ++ [a; b])%list -> sp s < STACK_SIZE ->
  exists s1,
    Prim.over s = Ok tt s1 /\ stack_ok s1 /\
    contents s1 = (contents s ++ [a])%list /\ rest s1 = rest s.
Proof.
  intros Hok Hc Hroom.
  assert (Hlen : Z.of_nat (length (base ++ [a; b; a])%list) <= STACK_SIZE).
  { pose proof (length_contents s Hok) as Hl. rewrite Hc in Hl.
    rewrite length_app in *. cbn [length] in *. lia. }
  destruct (over_effect a b s base Hok Hc Hlen) as (s1 & E1 & Hok1 & Hc1 & Hr1).
  exists s1. split; [exact E1|]. split; [exact Hok1|]. split; [|exact Hr1].
  rewrite Hc1, Hc, <- app_assoc. reflexivity.
Qed.

Lemma over_copies_second_witness :
  stack_ok stack_7_3 /\ contents stack_7_3 = ([] ++ [7; 3])%list /\
  sp stack_7_3 < STACK_SIZE /\
  exists s1,
    Prim.over stack_7_3 = Ok tt s1 /\ stack_ok s1 /\
    contents s1 = (contents stack_7_3 ++ [7])%list /\
    rest s1 = rest stack_7_3.
Proof.
  assert (Hsp : sp stack_7_3 < STACK_SIZE) by (cbn; unfold STACK_SIZE; lia).
  split; [exact stack_ok_7_3|]. split; [reflexivity|]. split; [exact Hsp|].
  exact (over_copies_second stack_7_3 [] 7 3 stack_ok_7_3 eq_refl Hsp).
Defined.

(** X6.  [ROT] brings the third cell from the top to the top, and three
    [ROT]s in a row put the stack back as it was. *)
Theorem rot_three_times_restores s base a b c :
  stack_ok s -> contents s = (base ++ [a; b; c])%list ->
  exists s1 s2 s3,
    Prim.rot s = Ok tt s1 /\ contents s1 = (base ++ [b; c; a])%list /\
    Prim.rot s1 = Ok tt s2 /\ contents s2 = (base ++ [c; a; b])%list /\
    Prim.rot s2 = Ok tt s3 /\ contents s3 = contents s /\ rest s3 = rest s.
Proof.
  intros Hok Hc.
  assert (Hlen : forall x y z,
            Z.of_nat (length (base ++ [x; y; z])%list) <= STACK_SIZE).
  { intros. apply (room_of_contents s base [a; b; c]); auto. }
  destruct (rot_effect a b c s base Hok Hc (Hlen _ _ _)) as
    (s1 & E1 & Hok1 & Hc1 & Hr1).
  destruct (rot_effect b c a s1 base Hok1 Hc1 (Hlen _ _ _)) as
    (s2 & E2 & Hok2 & Hc2 & Hr2).
  destruct (rot_effect c a b s2 base Hok2 Hc2 (Hlen _ _ _)) as
    (s3 & E3 & Hok3 & Hc3 & Hr3).
  exists s1, s2, s3. repeat split; try assumption; congruence.
Qed.

Lemma rot_three_times_restores_witness :
  stack_ok stack_1_2_3 /\ contents stack_1_2_3 = ([] ++ [1; 2; 3])%list /\
  exists s1 s2 s3,
    Prim.rot stack_1_2_3 = Ok tt s1 /\ contents s1 = ([] ++ [2; 3; 1])%list /\
    Prim.rot s1 = Ok tt s2 /\ contents s2 = ([] ++ [3; 1; 2])%list /\
    Prim.rot s2 = Ok tt s3 /\ contents s3 = contents stack_1_2_3 /\
    rest s3 = rest stack_1_2_3.
Proof.
  split; [exact stack_ok_1_2_3|]. split; [reflexivity|].
  exact (rot_three_times_restores stack_1_2_3 [] 1 2 3 stack_ok_1_2_3 eq_refl).
Defined.

(** ** Flags *)

Lemma land_flag x y : Z.land (flag x) (flag y) = flag (x && y).
Proof. destruct x, y; reflexivity. Qed.

Lemma lor_flag x y : Z.lor (flag x) (flag y) = flag (x || y).
Proof. destruct x, y; reflexivity. Qed.

Lemma lnot_flag x : Z.lnot (flag x) = flag (negb x).
Proof. destruct x; reflexivity. Qed.

(** X7.  On the results of comparisons, which are -1 for true and 0 for
    false, the bitwise words act as the logical connectives: [AND] gives
    the flag of the conjunction, [OR] of the disjunction, and [NOT] turns
    the flag on top into the flag of the negation. *)
Theorem bitwise_words_on_flags s base x y :
  stack_ok s -> contents s = (base ++ [flag x; flag y])%list ->
  (exists s', Prim.and s = Ok tt s' /\
              contents s' = (base ++ [flag (x && y)])%list) /\
  (exists s', Prim.or s = Ok tt s' /\
              contents s' = (base ++ [flag (x || y)])%list) /\
  (exists s', Prim.not s = Ok tt s' /\
              contents s' = (base ++ [flag x; flag (negb y)])%list).
Proof.
  intros Hok Hc.
  assert (H1 : Z.of_nat (length (base ++ [0])%list) <= STACK_SIZE)
    by (apply (room_of_contents s base [flag x; flag y]); cbn; auto).
  split; [|split].
  - destruct (binary_effect Z.land _ _ s base Hok Hc) as (s' & E & _ & Hc' & _);
      [rewrite length_app in *; exact H1|].
    exists s'. rewrite <- land_flag. split; assumption.
  - destruct (binary_effect Z.lor _ _ s base Hok Hc) as (s' & E & _ & Hc' & _);
      [rewrite length_app in *; exact H1|].
    exists s'. rewrite <- lor_flag. split; assumption.
  - destruct (not_effect (flag y) s (base ++ [flag x])%list Hok) as
      (s' & E & _ & Hc' & _).
    + rewrite Hc, <- app_assoc. reflexivity.
    + rewrite <- app_assoc.
      apply (room_of_contents s base [flag x; flag y]); cbn; auto.
    + exists s'. rewrite <- lnot_flag, Hc', <- app_assoc. split; [exact E|reflexivity].
Qed.

Lemma bitwise_words_on_flags_witness :
  stack_ok stack_flags /\
  contents stack_flags = ([] ++ [flag true; flag false])%list /\
  (exists s', Prim.and stack_flags = Ok tt s' /\
              contents s' = ([] ++ [flag (true && false)])%list) /\
  (exists s', Prim.or stack_flags = Ok tt s' /\
              contents s' = ([] ++ [flag (true || false)])%list) /\
  (exists s', Prim.not stack_flags = Ok tt s' /\
              contents s' = ([] ++ [flag true; flag (negb false)])%list).
Proof.
  assert (Hok : stack_ok stack_flags)
    by (split; [reflexivity|cbn; unfold STACK_SIZE; lia]).
  split; [exact Hok|]. split; [reflexivity|].
  exact (bitwise_words_on_flags stack_flags [] true false Hok eq_refl).
Defined.

(** ** Division *)

(** X8.  With a divisor other than 0, and apart from [INT_MIN] divided by
    -1, [/] pushes the quotient rounded towards zero and [MOD] the
    remainder that goes with it: the two results satisfy
    [a = b * q + r], the remainder is smaller than the divisor in absolute
    value and has the sign of the dividend. *)
Theorem division_words s base a b :
  stack_ok s -> contents s = (base ++ [a; b])%list ->
  b <> 0 -> ~ (a = INT_MIN /\ b = -1) ->
  exists q r s1 s2,
    Prim.divide s = Ok tt s1 /\ contents s1 = (base ++ [q])%list /\
    Prim.mod_ s = Ok tt s2 /\ contents s2 = (base ++ [r])%list /\
    a = b * q + r /\ Z.abs r < Z.abs b /\ 0 <= r * a.
Proof.
  intros Hok Hc Hb Hover.
  assert (Hdiv : forall op, Prim.int_div op a b = ret (op a b)).
  { intros op. unfold Prim.int_div.
    destruct (Z.eqb_spec b 0); [contradiction|].
    destruct (Z.eqb_spec a INT_MIN), (Z.eqb_spec b (-1)); cbn [andb];
      try reflexivity. exfalso. apply Hover. split; assumption. }
  assert (Heff : forall op,
            exists s',
              (let* y := pop in let* x := pop in
               let* q := Prim.int_div op x y in push q) s = Ok tt s' /\
              contents s' = (base ++ [op a b])%list).
  { intros op. pop_now (base ++ [a])%list b. pop_now base a.
    rewrite Hdiv. unfold bind at 1, ret.
    assert (Hroom : Z.of_nat (length (base ++ [op a b])%list) <= STACK_SIZE)
      by (apply (room_of_contents s base [a; b]); cbn; auto).
    push_now. eexists. split; [reflexivity|assumption]. }
  destruct (Heff Z.quot) as (s1 & E1 & Hc1).
  destruct (Heff Z.rem) as (s2 & E2 & Hc2).
  exists (Z.quot a b), (Z.rem a b), s1, s2.
  split; [exact E1|]. split; [exact Hc1|]. split; [exact E2|].
  split; [exact Hc2|]. split; [apply Z.quot_rem'|].
  split; [apply Z.rem_bound_abs; exact Hb|apply Z.rem_sign_mul; exact Hb].
Qed.

Lemma division_words_witness :
  stack_ok stack_7_3 /\ contents stack_7_3 = ([] ++ [7; 3])%list /\
  3 <> 0 /\ ~ (7 = INT_MIN /\ 3 = -1) /\
  exists q r s1 s2,
    Prim.divide stack_7_3 = Ok tt s1 /\ contents s1 = ([] ++ [q])%list /\
    Prim.mod_ stack_7_3 = Ok tt s2 /\ contents s2 = ([] ++ [r])%list /\
    7 = 3 * q + r /\ Z.abs r < Z.abs 3 /\ 0 <= r * 7.
Proof.
  assert (H3 : 3 <> 0) by discriminate.
  assert (Hno : ~ (7 = INT_MIN /\ 3 = -1)) by (intros [_ H]; discriminate H).
  split; [exact stack_ok_7_3|]. split; [reflexivity|]. split; [exact H3|].
  split; [exact Hno|].
  exact (division_words stack_7_3 [] 7 3 stack_ok_7_3 eq_refl H3 Hno).
Defined.

(** X9.  [INT_MIN] divided by -1 has no value in [int]: [/] and [MOD]
    reach the C operators with these operands, without a test. *)
Theorem division_of_int_min_by_minus_one s base :
  stack_ok s -> contents s = (base ++ [INT_MIN; -1])%list ->
  Prim.divide s = Undefined DivisionOverflow /\
  Prim.mod_ s = Undefined DivisionOverflow.
Proof.
  intros Hok Hc. unfold Prim.divide, Prim.mod_.
  split; pop_now (base ++ [INT_MIN])%list (-1); pop_now base INT_MIN;
    reflexivity.
Qed.

Lemma division_of_int_min_by_minus_one_witness :
  stack_ok stack_int_min_m1 /\
  contents stack_int_min_m1 = ([] ++ [INT_MIN; -1])%list /\
  Prim.divide stack_int_min_m1 = Undefined DivisionOverflow /\
  Prim.mod_ stack_int_min_m1 = Undefined DivisionOverflow.
Proof.
  assert (Hok : stack_ok stack_int_min_m1)
    by (split; [reflexivity|cbn; unfold STACK_SIZE; lia]).
  split; [exact Hok|]. split; [reflexivity|].
  exact (division_of_int_min_by_minus_one stack_int_min_m1 [] Hok eq_refl).
Defined.

(** ** A full stack *)

Lemma last_two (l : list Z) :
  (2 <= length l)%nat -> exists l1 x1 x0, l = (l1 ++ [x1; x0])%list.
Proof.
  intros H. destruct l as [|x0 l0 _] using rev_ind; [cbn in H; lia|].
  destruct l0 as [|x1 l1 _] using rev_ind; [cbn in H; lia|].
  exists l1, x1, x0. rewrite <- app_assoc. reflexivity.
Qed.

Lemma rest_out s s' : rest s' = rest s -> out s' = out s.
Proof. intros H. exact (f_equal snd H). Qed.

Lemma stack_ok_full : stack_ok full_stack.
Proof. split; [reflexivity|cbn; unfold STACK_SIZE; lia]. Qed.

(** X10.  When the data stack holds 256 cells, every step that would add
    one prints the overflow message and exits with status 1: [DUP],
    [OVER], and a number typed outside a definition. *)
Theorem full_stack_overflows lb fuel word num s :
  stack_ok s -> sp s = STACK_SIZE ->
  strtol lb word = (num, "") -> compiling s = false ->
  let full := "Stack overflow!" ++ LF in
  (exists s', Prim.dup s = Exit 1 s' /\ out s' = out s ++ full) /\
  (exists s', Prim.over s = Exit 1 s' /\ out s' = out s ++ full) /\
  interpret_token lb fuel word s = Exit 1 (printf full s).
Proof.
  intros Hok Hsp Hnum Hc full.
  pose proof (length_contents s Hok) as Hlen.
  destruct (last_two (contents s)) as (l1 & x1 & x0 & Ec);
    [unfold STACK_SIZE in *; lia|].
  split; [|split].
  - unfold Prim.dup, bind.
    rewrite (top_of_contents s (l1 ++ [x1])%list x0 Hok)
      by (rewrite Ec, <- app_assoc; reflexivity).
    rewrite push_full by lia. eexists. split; reflexivity.
  - unfold Prim.over.
    pop_now (l1 ++ [x1])%list x0. pop_now l1 x1.
    assert (Hroom : Z.of_nat (length (l1 ++ [x1; x0])%list) <= STACK_SIZE).
    { rewrite Ec in Hlen. lia. }
    push_now. push_now.
    unfold bind.
    rewrite push_full.
    + eexists. split; [reflexivity|]. cbn [out printf].
      repeat match goal with
             | H : rest _ = rest _ |- _ => apply rest_out in H
             end.
      subst full. congruence.
    + rewrite <- (length_contents s3 Hok3), Hc3, <- Hsp, <- Hlen, Ec,
        <- app_assoc.
      reflexivity.
  - unfold interpret_token. rewrite Hnum, Hc. unfold bind.
    rewrite push_full by lia. reflexivity.
Qed.

Lemma full_stack_overflows_witness :
  stack_ok full_stack /\ sp full_stack = STACK_SIZE /\
  strtol LP64 "5" = (5, "") /\ compiling full_stack = false /\
  (exists s', Prim.dup full_stack = Exit 1 s' /\
              out s' = out full_stack ++ "Stack overflow!" ++ LF) /\
  (exists s', Prim.over full_stack = Exit 1 s' /\
              out s' = out full_stack ++ "Stack overflow!" ++ LF) /\
  interpret_token LP64 1 "5" full_stack =
    Exit 1 (printf ("Stack overflow!" ++ LF) full_stack).
Proof.
  assert (Hn : strtol LP64 "5" = (5, "")) by (vm_compute; reflexivity).
  split; [exact stack_ok_full|]. split; [reflexivity|]. split; [exact Hn|].
  split; [reflexivity|].
  exact (full_stack_overflows LP64 1 "5" 5 full_stack stack_ok_full eq_refl
           Hn eq_refl).
Defined.

(** ** Output *)

(** X11.  [.] takes the top cell off and writes it in decimal followed
    by a blank; [EMIT] takes the top cell off and writes the one character
    whose code is the cell reduced modulo 256.  Neither touches the cells
    below, the dictionary or the compiler. *)
Theorem output_words_take_the_top s base v :
  stack_ok s -> contents s = (base ++ [v])%list ->
  (exists s', Prim.dot s = Ok tt s' /\ contents s' = base /\
              out s' = out s ++ fmt_d v ++ " " /\ core s' = core s) /\
  (exists s', Prim.emit s = Ok tt s' /\ contents s' = base /\
              out s' = out s ++ String (char_of v) "" /\ core s' = core s).
Proof.
  intros Hok Hc. unfold Prim.dot, Prim.emit.
  split; pop_now base v; unfold modify;
    (eexists; split; [reflexivity|]; split; [exact Hc0|];
     unfold rest in Hr;
     apply (f_equal snd) in Hr as Ho; apply (f_equal fst) in Hr as Hcore;
     apply (f_equal fst) in Hcore; cbn [fst snd] in Ho, Hcore;
     cbn [out printf]; split; [congruence|exact Hcore]).
Qed.

Lemma output_words_take_the_top_witness :
  stack_ok stack_7_3 /\ contents stack_7_3 = ([7] ++ [3])%list /\
  (exists s', Prim.dot stack_7_3 = Ok tt s' /\ contents s' = [7] /\
              out s' = out stack_7_3 ++ fmt_d 3 ++ " " /\
              core s' = core stack_7_3) /\
  (exists s', Prim.emit stack_7_3 = Ok tt s' /\ contents s' = [7] /\
              out s' = out stack_7_3 ++ String (char_of 3) "" /\
              core s' = core stack_7_3).
Proof.
  split; [exact stack_ok_7_3|]. split; [reflexivity|].
  exact (output_words_take_the_top stack_7_3 [7] 3 stack_ok_7_3 eq_refl).
Defined.

(** X12.  What [.] writes for an [int] reads back as that [int]: outside
    a definition, the line made of the decimal spelling of [n] and the
    blank that [.] puts after it pushes [n] and changes nothing else but
    the cursor. *)
Theorem printed_number_reads_back lb fuel n s :
  32 <= lb -> INT_MIN <= n <= INT_MAX ->
  stack_ok s -> sp s < STACK_SIZE -> compiling s = false ->
  exists s',
    interpret lb fuel (fmt_d n ++ " ") s = Ok tt s' /\
    contents s' = (contents s ++ [n])%list /\
    core s' = core s /\ out s' = out s.
Proof.
  intros Hlb Hn Hok Hroom Hc.
  destruct (fmt_d_token lb n Hlb Hn) as (Hne & Hbf & Hlen & Hnum).
  unfold interpret. rewrite length_append. cbn [String.length].
  rewrite Nat.add_1_r.
  erewrite loop_step; cycle 1.
  { apply (next_token_app _ "" (fmt_d n) " "); token_side. }
  { unfold interpret_token. rewrite Hnum. simpl_state. rewrite Hc.
    unfold bind. rewrite (to_int_small n Hn).
    rewrite push_ok; [reflexivity|exact Hok|exact Hroom]. }
  rewrite loop_stop by (apply next_token_end; reflexivity).
  eexists. split; [reflexivity|].
  split; [|split; reflexivity].
  exact (contents_push (set_input_ptr " " (set_input_ptr (fmt_d n ++ " ") s))
           n Hok Hroom).
Qed.

Lemma printed_number_reads_back_witness :
  32 <= LP64 /\ INT_MIN <= -42 <= INT_MAX /\
  stack_ok stack_7_3 /\ sp stack_7_3 < STACK_SIZE /\
  compiling stack_7_3 = false /\
  exists s',
    interpret LP64 0 (fmt_d (-42) ++ " ") stack_7_3 = Ok tt s' /\
    contents s' = (contents stack_7_3 ++ [-42])%list /\
    core s' = core stack_7_3 /\ out s' = out stack_7_3.
Proof.
  assert (H1 : 32 <= LP64) by (unfold LP64; lia).
  assert (H2 : INT_MIN <= -42 <= INT_MAX) by (unfold INT_MIN, INT_MAX; lia).
  assert (H3 : sp stack_7_3 < STACK_SIZE) by (cbn; unfold STACK_SIZE; lia).
  split; [exact H1|]. split; [exact H2|]. split; [exact stack_ok_7_3|].
  split; [exact H3|]. split; [reflexivity|].
  exact (printed_number_reads_back LP64 0 (-42) stack_7_3 H1 H2 stack_ok_7_3
           H3 eq_refl).
Defined.

(** ** Tokens and names *)

(** X13.  A token of 32 characters or more does not fit the array
    [sscanf] is given: a line [interpret] meets such a token at the front
    of, and a [:] that finds one where the name should be, both run over
    the end of the array. *)
Theorem long_token_overruns_the_buffer lb fuel pre t r s :
  blank pre = true -> blank_free t = true -> token_end r = true ->
  WORD_SIZE <= Z.of_nat (String.length t) ->
  interpret lb fuel (pre ++ t ++ r) s = Undefined BufferOverrun /\
  colon (set_input_ptr (pre ++ t ++ r) s) = Undefined BufferOverrun.
Proof.
  intros Hp Ht Hr Hlen.
  assert (Hn : next_token (set_input_ptr (pre ++ t ++ r) s) =
               Undefined BufferOverrun).
  { apply (next_token_long _ pre t r); [reflexivity|assumption..]. }
  split.
  - unfold interpret. cbn [interpret_loop]. unfold bind. rewrite Hn.
    reflexivity.
  - unfold colon, bind. rewrite Hn. reflexivity.
Qed.

Lemma long_token_overruns_the_buffer_witness :
  let t := "12345678901234567890123456789012" in
  blank " " = true /\ blank_free t = true /\ token_end " +" = true /\
  WORD_SIZE <= Z.of_nat (String.length t) /\
  interpret LP64 1 (" " ++ t ++ " +") boot = Undefined BufferOverrun /\
  colon (set_input_ptr (" " ++ t ++ " +") boot) = Undefined BufferOverrun.
Proof.
  intros t.
  assert (H : WORD_SIZE <= Z.of_nat (String.length t))
    by (unfold WORD_SIZE; cbn; lia).
  split; [reflexivity|]. split; [reflexivity|]. split; [reflexivity|].
  split; [exact H|].
  exact (long_token_overruns_the_buffer LP64 1 " " t " +" boot
           eq_refl eq_refl eq_refl H).
Defined.

Lemma strcasecmp_fold a : forall b b',
  fold_case b = fold_case b' -> strcasecmp a b = strcasecmp a b'.
Proof.
  induction a as [|c a IH]; intros [|d b] [|d' b'] H; cbn in H;
    try discriminate; try reflexivity;
    injection H as Hd Hb; cbn [strcasecmp]; rewrite Hd.
  - reflexivity.
  - rewrite (IH b b' Hb). reflexivity.
Qed.

Lemma strcasecmp_refl a : strcasecmp a a = 0.
Proof.
  induction a as [|c a IH]; cbn; [reflexivity|].
  rewrite Z.eqb_refl. exact IH.
Qed.

(** X14.  The lookup does not tell upper case from lower case: two
    spellings with the same letters find the same entry of any
    dictionary, and an entry whose name has the letters of the spelling
    makes the lookup succeed. *)
Theorem lookup_ignores_case nm nm' d :
  fold_case nm = fold_case nm' ->
  find_word nm d = find_word nm' d /\
  (forall e, In e d -> name e = nm -> find_word nm' d <> None).
Proof.
  intros H.
  assert (Hf : forall d, find_word nm d = find_word nm' d).
  { clear d. induction d as [|w d IH]; cbn; [reflexivity|].
    rewrite (strcasecmp_fold (name w) nm nm' H), IH. reflexivity. }
  split; [apply Hf|].
  intros e Hin Hname. rewrite <- Hf. clear Hf.
  induction d as [|w d IH]; [contradiction|]. cbn.
  destruct Hin as [->|Hin].
  - rewrite Hname, strcasecmp_refl. cbn. discriminate.
  - destruct (strcasecmp (name w) nm =? 0); [discriminate|exact (IH Hin)].
Qed.

Lemma lookup_ignores_case_witness :
  fold_case "SWAP" = fold_case "swap" /\
  find_word "SWAP" (dictionary boot) = find_word "swap" (dictionary boot) /\
  (forall e, In e (dictionary boot) -> name e = "SWAP" ->
             find_word "swap" (dictionary boot) <> None).
Proof.
  split; [reflexivity|].
  exact (lookup_ignores_case "SWAP" "swap" (dictionary boot) eq_refl).
Defined.

(** ** Recursion *)

(** X15.  An entry whose body starts with a pointer to the entry itself
    never returns: whatever depth of nested calls is allowed, it is used
    up. *)
Theorem self_call_never_returns p e rest s :
  word_at (dictionary s) p = Some e -> code e = None ->
  data e = Some (CWord p :: rest) ->
  forall fuel, execute_word fuel p s = OutOfFuel.
Proof.
  intros Hw Hc Hd fuel. induction fuel as [|fuel IH]; [reflexivity|].
  cbn [execute_word]. rewrite Hw, Hc, Hd.
  cbn [execute_body execute_cell]. unfold bind. rewrite IH. reflexivity.
Qed.

Lemma self_call_never_returns_witness :
  word_at (dictionary after_X_X) 22%nat =
    Some (mkWord "X" false None (Some [CWord 22%nat])) /\
  forall fuel, execute_word fuel 22%nat after_X_X = OutOfFuel.
Proof.
  split; [reflexivity|].
  exact (self_call_never_returns 22%nat _ [] after_X_X eq_refl eq_refl eq_refl).
Defined.

Lemma strncpy_short n : forall t,
  (String.length t <= n)%nat -> strncpy n t = t.
Proof.
  induction n as [|n IH]; intros [|c t] H; cbn in *;
    [reflexivity|lia|reflexivity|].
  rewrite IH by lia. reflexivity.
Qed.

Lemma new_word_short nm c i :
  Z.of_nat (String.length nm) < WORD_SIZE ->
  new_word nm c i = mkWord nm i c None.
Proof.
  intros H. unfold new_word. rewrite strncpy_short; [reflexivity|].
  unfold WORD_SIZE in *. lia.
Qed.

(** X16.  The entry of a definition is linked into the dictionary before
    its body is read, so a name used in its own definition finds the new
    entry, not an older one of that name: after [: nm nm ;] the body of
    [nm] is one pointer to the entry itself.  [:] and [;] are required to
    have their first meaning. *)
Theorem name_in_its_own_body_is_itself lb fuel nm s pc ec ps es :
  compiling s = false ->
  find_word ":" (dictionary s) = Some pc ->
  word_at (dictionary s) pc = Some ec -> code ec = Some p_colon ->
  find_word ";" (dictionary s) = Some ps ->
  word_at (dictionary s) ps = Some es -> code es = Some p_semicolon ->
  is_immediate es = true ->
  nm <> "" -> blank_free nm = true ->
  Z.of_nat (String.length nm) < WORD_SIZE ->
  snd (strtol lb nm) <> "" -> strcasecmp nm ";" <> 0 ->
  exists s',
    interpret lb (S fuel) (": " ++ nm ++ " " ++ nm ++ " ;") s = Ok tt s' /\
    dictionary s' =
      mkWord nm false None (Some [CWord (length (dictionary s))])
        :: dictionary s /\
    word_at (dictionary s') (length (dictionary s)) =
      Some (mkWord nm false None (Some [CWord (length (dictionary s))])) /\
    compiling s' = false /\ stack s' = stack s /\ sp s' = sp s /\
    out s' = out s.
Proof.
  intros Hc Hfc Hwc Hcc Hfs Hws Hcs His Hne Hbf Hlen Hnum Hsemi.
  set (p := length (dictionary s)).
  unfold interpret.
  replace (S (String.length (": " ++ nm ++ " " ++ nm ++ " ;")))
    with (4 + (2 + (String.length nm + String.length nm)))%nat
    by (repeat (rewrite ?length_append; cbn [String.length]); lia).
  cbn [Nat.add].
  (* the token [:] and the name it reads *)
  erewrite loop_step; cycle 1.
  { apply (next_token_app _ "" ":" (" " ++ nm ++ " " ++ nm ++ " ;"));
      token_side. }
  { rewrite (interpret_token_call lb (S fuel) ":" pc);
      [|vm_compute; discriminate|exact Hfc|exact Hc].
    unfold bind. erewrite execute_colon; [reflexivity|exact Hwc|exact Hcc|].
    apply (next_token_app _ " " nm (" " ++ nm ++ " ;")); token_side. }
  simpl_state. rewrite (new_word_short nm None false Hlen). fold p.
  (* the name in the body *)
  erewrite loop_step; cycle 1.
  { apply (next_token_app _ " " nm " ;"); token_side. }
  { unfold interpret_token.
    destruct (strtol lb nm) as [num endptr]. cbn [snd] in Hnum.
    destruct endptr as [|c0 e0]; [congruence|].
    unfold start_compile. simpl_state.
    cbn [find_word name]. rewrite strcasecmp_refl. cbn [Z.eqb].
    cbn [word_at]. fold p. rewrite Nat.eqb_refl. cbn [is_immediate andb negb].
    unfold bind, compile_item, compile_pos. simpl_state. cbn.
    reflexivity. }
  (* the token [;] *)
  erewrite loop_step; cycle 1.
  { apply (next_token_app _ " " ";" ""); token_side. }
  { simpl_state.
    rewrite (interpret_token_immediate lb (S fuel) ";" ps es);
      [|vm_compute; discriminate
       |simpl_state; cbn [find_word name];
        destruct (Z.eqb_spec (strcasecmp nm ";") 0); [contradiction|exact Hfs]
       |simpl_state; apply word_at_cons_old; exact Hws
       |exact His].
    unfold bind. erewrite execute_semicolon;
      [reflexivity|simpl_state; apply word_at_cons_old; exact Hws
      |exact Hcs|reflexivity]. }
  rewrite loop_stop by (apply next_token_end; reflexivity).
  eexists. split; [reflexivity|].
  unfold end_compile. simpl_state. cbn [set_data]. fold p.
  rewrite Nat.eqb_refl. cbn [name is_immediate code].
  split; [reflexivity|]. split; [|repeat split; reflexivity].
  cbn [word_at]. fold p. rewrite Nat.eqb_refl. reflexivity.
Qed.

Lemma name_in_its_own_body_is_itself_witness :
  exists s',
    interpret LP64 1 (": " ++ "X" ++ " " ++ "X" ++ " ;") boot = Ok tt s' /\
    dictionary s' =
      mkWord "X" false None (Some [CWord (length (dictionary boot))])
        :: dictionary boot /\
    word_at (dictionary s') (length (dictionary boot)) =
      Some (mkWord "X" false None (Some [CWord (length (dictionary boot))])) /\
    compiling s' = false /\ stack s' = stack boot /\ sp s' = sp boot /\
    out s' = out boot.
Proof.
  refine (name_in_its_own_body_is_itself LP64 0 "X" boot 20%nat _ 21%nat _
            eq_refl eq_refl eq_refl eq_refl eq_refl eq_refl eq_refl eq_refl
            _ eq_refl _ _ _).
  - discriminate.
  - unfold WORD_SIZE. cbn. lia.
  - vm_compute. discriminate.
  - vm_compute. discriminate.
Defined.

(** ** What stays in the dictionary *)

Lemma older_refl s : older s s.
Proof. exists []. reflexivity. Qed.

Lemma older_trans s1 s2 s3 : older s1 s2 -> older s2 s3 -> older s1 s3.
Proof.
  intros [n1 H1] [n2 H2]. exists (n2 ++ n1)%list.
  rewrite H2, H1, app_assoc. reflexivity.
Qed.

Lemma older_core s s' : core s' = core s -> older s s'.
Proof.
  intros E. unfold core in E. injection E as E _ _ _ _.
  exists []. rewrite E. reflexivity.
Qed.

Lemma keeps_retains {A} (m : M A) : keeps m -> retains m.
Proof. intros Hk s a s' Hm. apply older_core, (Hk _ _ _ Hm). Qed.

Lemma retains_bind {A B} (m : M A) (k : A -> M B) :
  retains m -> (forall a, retains (k a)) -> retains (bind m k).
Proof.
  intros Hm Hk s b s' H. unfold bind in H.
  destruct (m s) as [a s1| | |] eqn:E; try discriminate.
  exact (older_trans _ _ _ (Hm _ _ _ E) (Hk _ _ _ _ H)).
Qed.

Lemma retains_next_token : retains next_token.
Proof. intros s t s' H. apply older_core, (next_token_core _ _ _ H). Qed.

Lemma header_set_data q b d :
  map header (set_data q b d) = map header d.
Proof.
  induction d as [|w d IH]; cbn; [reflexivity|].
  destruct (q =? length d)%nat; cbn; [reflexivity|].
  rewrite IH. reflexivity.
Qed.

Lemma older_end_compile s : older s (end_compile s).
Proof.
  exists []. unfold end_compile.
  destruct (current_word s); simpl_state; [|reflexivity].
  apply header_set_data.
Qed.

Lemma retains_colon : retains colon.
Proof.
  unfold colon. apply retains_bind; [apply retains_next_token|].
  intros [nm|]; [|apply keeps_retains, keeps_printf].
  intros s a s' [= _ <-].
  exists [header (new_word nm None false)]. reflexivity.
Qed.

Lemma retains_semicolon : retains semicolon.
Proof.
  intros s a s' H. unfold semicolon in H.
  destruct (negb (compiling s)); injection H as _ <-.
  - apply older_core. reflexivity.
  - apply older_end_compile.
Qed.

Lemma retains_run_prim p : retains (run_prim p).
Proof.
  destruct p; try (apply keeps_retains, keeps_run_prim; discriminate).
  - apply retains_colon.
  - apply retains_semicolon.
Qed.

Lemma retains_execute_body (exec : ptr -> M unit) body :
  (forall w, retains (exec w)) -> retains (execute_body exec body).
Proof.
  intros Hg. induction body as [|val rest IH]; cbn [execute_body].
  - apply keeps_retains, keeps_ret.
  - apply retains_bind; [|intros _; exact IH].
    destruct val as [v|w]; cbn [execute_cell]; [|apply Hg].
    apply keeps_retains. destruct (Z.odd v); auto with keeps.
Qed.

Lemma retains_execute_word fuel : forall w, retains (execute_word fuel w).
Proof.
  induction fuel as [|fuel IH]; intros w s a s' H; cbn [execute_word] in H;
    [discriminate|].
  destruct (word_at (dictionary s) w) as [entry|]; [|discriminate].
  destruct (code entry) as [f|].
  - exact (retains_run_prim f _ _ _ H).
  - destruct (data entry) as [body|].
    + exact (retains_execute_body _ body IH _ _ _ H).
    + injection H as _ <-. apply older_refl.
Qed.

Lemma retains_compile_item c : retains (compile_item c).
Proof.
  intros s a s'. unfold compile_item.
  destruct (compile_buffer s); [|discriminate].
  destruct (_ <? _); [|discriminate].
  intros [= _ <-]. exists []. reflexivity.
Qed.

Lemma retains_interpret_token lb fuel word :
  retains (interpret_token lb fuel word).
Proof.
  intros s b s' H. unfold interpret_token in H.
  destruct (strtol lb word) as [num endptr].
  destruct endptr as [|c r].
  - unfold bind, ret in H. destruct (compiling s).
    + destruct (compile_item (tag lb num) s) as [a s1| | |] eqn:E;
        try discriminate.
      injection H as _ <-. exact (retains_compile_item _ _ _ _ E).
    + destruct (push (to_int num) s) as [a s1| | |] eqn:E; try discriminate.
      injection H as _ <-. exact (keeps_retains _ (keeps_push _) _ _ _ E).
  - destruct (find_word word (dictionary s)) as [w|].
    + unfold bind, ret in H. destruct (compiling s && negb _).
      * destruct (compile_item (CWord w) s) as [a s1| | |] eqn:E;
          try discriminate.
        injection H as _ <-. exact (retains_compile_item _ _ _ _ E).
      * destruct (execute_word fuel w s) as [a s1| | |] eqn:E;
          try discriminate.
        injection H as _ <-. exact (retains_execute_word _ _ _ _ _ E).
    + injection H as _ <-. cbn [compiling printf].
      destruct (compiling s).
      * apply (older_trans _ (printf ("Unknown word: " ++ word ++ LF) s));
          [apply older_core; reflexivity|apply older_end_compile].
      * apply older_core. reflexivity.
Qed.

Lemma retains_interpret_loop lb fuel n : retains (interpret_loop lb fuel n).
Proof.
  induction n as [|n IH]; cbn [interpret_loop]; [intros s a s' [=]|].
  apply retains_bind; [apply retains_next_token|].
  intros [word|]; [|apply keeps_retains, keeps_ret].
  apply retains_bind; [apply retains_interpret_token|].
  intros [|]; [exact IH|apply keeps_retains, keeps_ret].
Qed.

Lemma retains_interpret lb fuel line : retains (interpret lb fuel line).
Proof.
  intros s a s' H. unfold interpret in H.
  apply (older_trans _ (set_input_ptr line s));
    [apply older_core; reflexivity|].
  exact (retains_interpret_loop _ _ _ _ _ _ H).
Qed.

Lemma retains_interpret_lines lb fuel lines :
  retains (interpret_lines lb fuel lines).
Proof.
  induction lines as [|l rest IH]; cbn [interpret_lines].
  - apply keeps_retains, keeps_ret.
  - apply retains_bind; [apply retains_interpret|intros _; exact IH].
Qed.

Lemma find_word_header nm d : forall d',
  map header d = map header d' -> find_word nm d = find_word nm d'.
Proof.
  induction d as [|w d IH]; intros [|w' d'] H; cbn [map] in H;
    try discriminate; [reflexivity|].
  assert (Hn : name w = name w') by (unfold header in H; congruence).
  assert (Hd : map header d = map header d')
    by (apply (f_equal (@tl _)) in H; exact H).
  cbn [find_word].
  assert (Hl : length d = length d').
  { rewrite <- (length_map header d), Hd. apply length_map. }
  rewrite Hn, Hl, (IH d' Hd). reflexivity.
Qed.

Lemma find_word_app nm newer d :
  find_word nm d <> None -> find_word nm (newer ++ d)%list <> None.
Proof.
  intros H. induction newer as [|w newer IH]; cbn; [exact H|].
  destruct (_ =? 0); [discriminate|exact IH].
Qed.

(** X17.  Nothing leaves the dictionary: whatever lines are
    interpreted, from whatever state, the entries that were there are
    still there afterwards, in their order and behind the new ones, each
    with its name, its immediacy and its code; so a name that was found is
    still found. *)
Theorem entries_are_never_removed lb fuel lines s s' :
  interpret_lines lb fuel lines s = Ok tt s' ->
  (exists newer,
     map header (dictionary s') =
     (newer ++ map header (dictionary s))%list) /\
  (forall nm, find_word nm (dictionary s) <> None ->
              find_word nm (dictionary s') <> None).
Proof.
  intros H.
  pose proof (retains_interpret_lines lb fuel lines s tt s' H) as [newer Hn].
  split; [exists newer; exact Hn|].
  intros nm Hf.
  destruct (map_eq_app _ _ _ _ Hn) as (d1 & d2 & Hd & _ & H2).
  rewrite Hd. apply find_word_app.
  rewrite (find_word_header nm d2 (dictionary s) H2). exact Hf.
Qed.

Lemma entries_are_never_removed_witness :
  interpret_lines LP64 1 [": X X ;"] boot = Ok tt after_X_X /\
  (exists newer,
     map header (dictionary after_X_X) =
     (newer ++ map header (dictionary boot))%list) /\
  (forall nm, find_word nm (dictionary boot) <> None ->
              find_word nm (dictionary after_X_X) <> None).
Proof.
  assert (H : interpret_lines LP64 1 [": X X ;"] boot = Ok tt after_X_X)
    by (vm_compute; reflexivity).
  split; [exact H|].
  exact (entries_are_never_removed LP64 1 [": X X ;"] boot after_X_X H).
Defined.

(** ** The stack pointer *)

Lemma stack_ok_same s s' :
  stack s' = stack s -> sp s' = sp s -> stack_ok s -> stack_ok s'.
Proof. intros Hs Hp [H1 H2]. split; [rewrite Hs|rewrite Hp]; assumption. Qed.

Lemma bounded_ret {A} (a : A) : bounded (ret a).
Proof. intros s x s' Hok [= _ <-]. exact Hok. Qed.

Lemma bounded_undef {A} u : bounded (@undef A u).
Proof. intros s x s' _ [=]. Qed.

Lemma bounded_bind {A B} (m : M A) (k : A -> M B) :
  bounded m -> (forall a, bounded (k a)) -> bounded (bind m k).
Proof.
  intros Hm Hk s b s' Hok H. unfold bind in H.
  destruct (m s) as [a s1| | |] eqn:E; try discriminate.
  exact (Hk _ _ _ _ (Hm _ _ _ Hok E) H).
Qed.

Lemma bounded_state {A} (f : state -> M A) :
  (forall s0, bounded (f s0)) -> bounded (fun s => f s s).
Proof. intros H s a s' Hok E. exact (H s _ _ _ Hok E). Qed.

Lemma bounded_printf msg : bounded (modify (printf msg)).
Proof.
  intros s a s' Hok [= _ <-]. exact (stack_ok_same s _ eq_refl eq_refl Hok).
Qed.

Lemma bounded_stack_read i : bounded (stack_read i).
Proof.
  intros s a s' Hok H. unfold stack_read in H.
  destruct ((0 <=? i) && (i <? STACK_SIZE)); [|discriminate].
  destruct (stack s !! Z.to_nat i); [|discriminate].
  injection H as _ <-. exact Hok.
Qed.

Lemma bounded_push v : bounded (push v).
Proof.
  intros s a s' Hok H.
  destruct (Z_lt_ge_dec (sp s) STACK_SIZE) as [Hroom|Hfull].
  - rewrite (push_ok s v Hok Hroom) in H. injection H as _ <-.
    exact (stack_ok_push s v Hok Hroom).
  - rewrite push_full in H by lia. discriminate.
Qed.

Lemma bounded_pop : bounded pop.
Proof.
  intros s a s' Hok H.
  destruct (Z_le_gt_dec (sp s) 0) as [Hempty|Hpos].
  - rewrite (pop_empty s Hempty) in H. discriminate.
  - destruct (pop_ok s Hok) as (v & _ & E); [lia|].
    rewrite E in H. injection H as _ <-. apply stack_ok_pop; [exact Hok|lia].
Qed.

Lemma bounded_int_div op a b : bounded (Prim.int_div op a b).
Proof.
  unfold Prim.int_div. destruct (b =? 0); [apply bounded_undef|].
  destruct (_ && _); [apply bounded_undef|apply bounded_ret].
Qed.

Lemma bounded_dots_loop n : forall i, bounded (Prim.dots_loop n i).
Proof.
  induction n as [|n IH]; intros i; cbn [Prim.dots_loop].
  - apply bounded_ret.
  - apply bounded_bind; [apply bounded_stack_read|intros v].
    apply bounded_bind; [apply bounded_printf|intros _; apply IH].
Qed.

Create HintDb bounded.
#[local] Hint Resolve bounded_ret bounded_undef bounded_printf
  bounded_stack_read bounded_push bounded_pop bounded_int_div
  bounded_dots_loop : bounded.

Ltac bounded_steps :=
  repeat first
    [ apply bounded_bind; [|intros ?]
    | solve [auto with bounded] ].

Lemma bounded_next_token : bounded next_token.
Proof.
  intros s t s' Hok H. rewrite (next_token_state _ _ _ H).
  exact (stack_ok_same s _ eq_refl eq_refl Hok).
Qed.

Lemma bounded_end_compile s : stack_ok s -> stack_ok (end_compile s).
Proof.
  apply stack_ok_same; unfold end_compile; destruct (current_word s);
    reflexivity.
Qed.

Lemma bounded_colon : bounded colon.
Proof.
  unfold colon. apply bounded_bind; [apply bounded_next_token|].
  intros [nm|]; [|apply bounded_printf].
  intros s a s' Hok [= _ <-]. exact (stack_ok_same s _ eq_refl eq_refl Hok).
Qed.

Lemma bounded_semicolon : bounded semicolon.
Proof.
  intros s a s' Hok H. unfold semicolon in H.
  destruct (negb (compiling s)); injection H as _ <-.
  - exact (stack_ok_same s _ eq_refl eq_refl Hok).
  - exact (bounded_end_compile s Hok).
Qed.

Lemma bounded_run_prim p : bounded (run_prim p).
Proof.
  destruct p; cbn [run_prim];
    unfold Prim.add, Prim.sub, Prim.mul, Prim.divide, Prim.mod_,
      Prim.drop, Prim.swap, Prim.over, Prim.rot, Prim.emit, Prim.cr, Prim.dot,
      Prim.eq, Prim.lt, Prim.gt, Prim.and, Prim.or, Prim.not, binary;
    try (bounded_steps; fail).
  - apply (bounded_state (fun s => let* a := stack_read (sp s - 1) in push a)).
    intros s0. bounded_steps.
  - apply (bounded_state (fun s =>
      let* _ := modify (printf ("<sp=" ++ fmt_d (sp s) ++ "> ")) in
      let* _ := Prim.dots_loop (Z.to_nat (sp s)) 0 in
      modify (printf LF))).
    intros s0. bounded_steps.
  - apply bounded_colon.
  - apply bounded_semicolon.
Qed.

Lemma bounded_execute_body (exec : ptr -> M unit) body :
  (forall w, bounded (exec w)) -> bounded (execute_body exec body).
Proof.
  intros Hg. induction body as [|val rest IH]; cbn [execute_body].
  - apply bounded_ret.
  - apply bounded_bind; [|intros _; exact IH].
    destruct val as [v|w]; cbn [execute_cell]; [|apply Hg].
    destruct (Z.odd v); auto with bounded.
Qed.

Lemma bounded_execute_word fuel : forall w, bounded (execute_word fuel w).
Proof.
  induction fuel as [|fuel IH]; intros w s a s' Hok H; cbn [execute_word] in H;
    [discriminate|].
  destruct (word_at (dictionary s) w) as [entry|]; [|discriminate].
  destruct (code entry) as [f|].
  - exact (bounded_run_prim f _ _ _ Hok H).
  - destruct (data entry) as [body|].
    + exact (bounded_execute_body _ body IH _ _ _ Hok H).
    + injection H as _ <-. exact Hok.
Qed.

Lemma bounded_compile_item c : bounded (compile_item c).
Proof.
  intros s a s' Hok. unfold compile_item.
  destruct (compile_buffer s); [|discriminate].
  destruct (_ <? _); [|discriminate].
  intros [= _ <-]. exact (stack_ok_same s _ eq_refl eq_refl Hok).
Qed.

Lemma bounded_interpret_token lb fuel word :
  bounded (interpret_token lb fuel word).
Proof.
  intros s b s' Hok H. unfold interpret_token in H.
  destruct (strtol lb word) as [num endptr].
  destruct endptr as [|c r].
  - unfold bind, ret in H. destruct (compiling s).
    + destruct (compile_item (tag lb num) s) as [a s1| | |] eqn:E;
        try discriminate.
      injection H as _ <-. exact (bounded_compile_item _ _ _ _ Hok E).
    + destruct (push (to_int num) s) as [a s1| | |] eqn:E; try discriminate.
      injection H as _ <-. exact (bounded_push _ _ _ _ Hok E).
  - destruct (find_word word (dictionary s)) as [w|].
    + unfold bind, ret in H. destruct (compiling s && negb _).
      * destruct (compile_item (CWord w) s) as [a s1| | |] eqn:E;
          try discriminate.
        injection H as _ <-. exact (bounded_compile_item _ _ _ _ Hok E).
      * destruct (execute_word fuel w s) as [a s1| | |] eqn:E;
          try discriminate.
        injection H as _ <-. exact (bounded_execute_word _ _ _ _ _ Hok E).
    + injection H as _ <-. cbn [compiling printf].
      destruct (compiling s).
      * apply bounded_end_compile.
        exact (stack_ok_same s _ eq_refl eq_refl Hok).
      * exact (stack_ok_same s _ eq_refl eq_refl Hok).
Qed.

Lemma bounded_interpret_loop lb fuel n : bounded (interpret_loop lb fuel n).
Proof.
  induction n as [|n IH]; cbn [interpret_loop]; [intros s a s' _ [=]|].
  apply bounded_bind; [apply bounded_next_token|].
  intros [word|]; [|apply bounded_ret].
  apply bounded_bind; [apply bounded_interpret_token|].
  intros [|]; [exact IH|apply bounded_ret].
Qed.

Lemma bounded_interpret lb fuel line : bounded (interpret lb fuel line).
Proof.
  intros s a s' Hok H. unfold interpret in H.
  refine (bounded_interpret_loop _ _ _ _ _ _ _ H).
  exact (stack_ok_same s _ eq_refl eq_refl Hok).
Qed.

(** X18.  The stack pointer never leaves the array: whatever lines are
    typed into the freshly started interpreter, as long as the calls
    return, [sp] lies between 0 and 256 and the cells below it are the
    contents of the stack, as many as [sp] says. *)
Theorem stack_pointer_stays_in_bounds lb fuel lines s' :
  interpret_lines lb fuel lines boot = Ok tt s' ->
  0 <= sp s' <= STACK_SIZE /\ Z.of_nat (length (contents s')) = sp s'.
Proof.
  intros H.
  assert (Hok : stack_ok s').
  { revert H. generalize stack_ok_boot. generalize boot.
    induction lines as [|l rest IH]; intros s Hok H; cbn [interpret_lines] in H.
    - injection H as <-. exact Hok.
    - unfold bind in H.
      destruct (interpret lb fuel l s) as [a s1| | |] eqn:E; try discriminate.
      exact (IH s1 (bounded_interpret _ _ _ _ _ _ Hok E) H). }
  split; [exact (proj2 Hok)|exact (length_contents s' Hok)].
Qed.

Lemma stack_pointer_stays_in_bounds_witness :
  interpret_lines LP64 1 ["7 3"] boot = Ok tt stack_7_3 /\
  0 <= sp stack_7_3 <= STACK_SIZE /\
  Z.of_nat (length (contents stack_7_3)) = sp stack_7_3.
Proof.
  assert (H : interpret_lines LP64 1 ["7 3"] boot = Ok tt stack_7_3)
    by (vm_compute; reflexivity).
  split; [exact H|].
  exact (stack_pointer_stays_in_bounds LP64 1 ["7 3"] stack_7_3 H).
Defined.

(** ** Pointers that are followed *)

Lemma sound_core s s' : core s' = core s -> sound s -> sound s'.
Proof.
  unfold core. intros [= Ed Ec Eb Es Ew] [H1 H2 H3 H4].
  split; unfold compile_pos; rewrite ?Ed, ?Ec, ?Eb, ?Es; assumption.
Qed.

Lemma fine_same {A} (a : A) s s' :
  core s' = core s -> sound s -> fine s (Ok a s').
Proof.
  intros E Hs. split; [exact (sound_core _ _ E Hs)|].
  unfold core in E. injection E as -> _ _ _ _. reflexivity.
Qed.

Lemma fine_bind {A B} (m : M A) (k : A -> M B) s :
  fine s (m s) ->
  (forall a s1, m s = Ok a s1 -> sound s1 -> fine s1 (k a s1)) ->
  fine s (bind m k s).
Proof.
  intros Hm Hk. unfold bind.
  destruct (m s) as [a s1| | |] eqn:E; try exact Hm.
  destruct Hm as [Hs1 Hl]. specialize (Hk a s1 eq_refl Hs1).
  destruct (k a s1) as [b s2| | |]; try exact Hk.
  destruct Hk as [Hs2 Hl2]. split; [exact Hs2|lia].
Qed.

Lemma tame_ret {A} (a : A) : tame (ret a).
Proof. intros s Hs. apply fine_same; [reflexivity|exact Hs]. Qed.

Lemma tame_bind {A B} (m : M A) (k : A -> M B) :
  tame m -> (forall a, tame (k a)) -> tame (bind m k).
Proof.
  intros Hm Hk s Hs. apply fine_bind; [exact (Hm s Hs)|].
  intros a s1 _ Hs1. exact (Hk a s1 Hs1).
Qed.

Lemma tame_state {A} (f : state -> M A) :
  (forall s0, tame (f s0)) -> tame (fun s => f s s).
Proof. intros H s Hs. exact (H s s Hs). Qed.

Lemma tame_printf msg : tame (modify (printf msg)).
Proof. intros s Hs. unfold modify. apply fine_same; [reflexivity|exact Hs]. Qed.

Lemma tame_set_sp v : tame (modify (set_sp v)).
Proof. intros s Hs. unfold modify. apply fine_same; [reflexivity|exact Hs]. Qed.

Lemma tame_stack_read i : tame (stack_read i).
Proof.
  intros s Hs. unfold stack_read.
  destruct ((0 <=? i) && (i <? STACK_SIZE)); [|discriminate].
  destruct (stack s !! Z.to_nat i); [|discriminate].
  apply fine_same; [reflexivity|exact Hs].
Qed.

Lemma tame_stack_write i v : tame (stack_write i v).
Proof.
  intros s Hs. unfold stack_write.
  destruct (_ && _); [|discriminate].
  unfold modify; apply fine_same; [reflexivity|exact Hs].
Qed.

Lemma tame_push v : tame (push v).
Proof.
  intros s Hs. unfold push.
  destruct (sp s >=? STACK_SIZE); [exact I|].
  apply (tame_bind _ _ (tame_stack_write _ _) (fun _ => tame_set_sp _) s Hs).
Qed.

Lemma tame_pop : tame pop.
Proof.
  intros s Hs. unfold pop.
  destruct (sp s <=? 0); [exact I|].
  apply (tame_bind _ _ (tame_set_sp _) (fun _ => tame_stack_read _) s Hs).
Qed.

Lemma tame_int_div op a b : tame (Prim.int_div op a b).
Proof.
  unfold Prim.int_div. destruct (b =? 0); [intros s _; discriminate|].
  destruct (_ && _); [intros s _; discriminate|apply tame_ret].
Qed.

Lemma tame_dots_loop n : forall i, tame (Prim.dots_loop n i).
Proof.
  induction n as [|n IH]; intros i; cbn [Prim.dots_loop].
  - apply tame_ret.
  - apply tame_bind; [apply tame_stack_read|intros v].
    apply tame_bind; [apply tame_printf|intros _; apply IH].
Qed.

Create HintDb tame.
#[local] Hint Resolve tame_ret tame_printf tame_set_sp tame_stack_read
  tame_stack_write tame_push tame_pop tame_int_div tame_dots_loop : tame.

Ltac tame_steps :=
  repeat first
    [ apply tame_bind; [|intros ?]
    | solve [auto with tame] ].

Lemma skip_space_suffix src : exists pre, src = pre ++ skip_space src.
Proof.
  induction src as [|c r [pre IH]]; [exists ""; reflexivity|]. cbn.
  destruct (isspace c); [|exists ""; reflexivity].
  exists (String c pre). cbn. rewrite <- IH. reflexivity.
Qed.

Lemma span_token_eq x : x = fst (span_token x) ++ snd (span_token x).
Proof.
  induction x as [|c r IH]; [reflexivity|]. cbn.
  destruct (isspace c); [reflexivity|].
  destruct (span_token r) as [t rest]. cbn in *. rewrite <- IH. reflexivity.
Qed.

Lemma strstr_found pre t r : strstr (pre ++ t ++ r) t <> None.
Proof.
  induction pre as [|c pre IH]; cbn [append]; rewrite strstr_eqn.
  - rewrite prefix_app. discriminate.
  - destruct (String.prefix t (String c (pre ++ t ++ r))); [discriminate|].
    exact IH.
Qed.

Lemma tame_next_token : tame next_token.
Proof.
  intros s Hs. unfold next_token, sscanf_s.
  destruct (skip_space_suffix (input_ptr s)) as [pre Hpre].
  pose proof (span_token_eq (skip_space (input_ptr s))) as Hspan.
  destruct (fst (span_token (skip_space (input_ptr s)))) as [|c t] eqn:Et.
  - apply fine_same; [reflexivity|exact Hs].
  - destruct (_ >=? _); [discriminate|].
    unfold bind, advance, ret.
    pose proof (strstr_found pre (String c t)
                  (snd (span_token (skip_space (input_ptr s))))) as Hf.
    rewrite <- Hspan, <- Hpre in Hf.
    destruct (strstr (input_ptr s) (String c t)); [|contradiction].
    apply fine_same; [reflexivity|exact Hs].
Qed.

Lemma cell_ok_le n m c : (n <= m)%nat -> cell_ok n c -> cell_ok m c.
Proof. destruct c; cbn; [trivial|lia]. Qed.

Lemma cells_ok_le n m cs :
  (n <= m)%nat -> Forall (cell_ok n) cs -> Forall (cell_ok m) cs.
Proof.
  intros Hle. apply List.Forall_impl. intros c. apply cell_ok_le. exact Hle.
Qed.

Lemma sound_new_entry nm s :
  sound s ->
  sound (start_compile
           (set_current_word (Some (length (dictionary s)))
              (set_dictionary (new_word nm None false :: dictionary s) s))).
Proof.
  intros [H1 H2 H3 H4]. split; cbn.
  - intros e body [<-|Hin] Hd; [discriminate|].
    apply (cells_ok_le (length (dictionary s))); [lia|].
    exact (H1 e body Hin Hd).
  - intros buf [= <-]. constructor.
  - discriminate.
  - intros _. exists 0%nat. cbn. lia.
Qed.

Lemma sound_end_compile s : sound s -> sound (end_compile s).
Proof.
  intros [H1 H2 H3 H4]. unfold end_compile.
  destruct (current_word s) as [cw|]; split; simpl_state;
    try discriminate; try exact H1.
  rewrite length_set_data. intros e body Hin Hd.
  destruct (In_set_data _ _ _ _ Hin) as (e0 & Hin0 & _ & _ & _ & [E|E]).
  - apply (H1 e0); [exact Hin0|congruence].
  - apply H2. congruence.
Qed.

Lemma length_end_compile s :
  length (dictionary (end_compile s)) = length (dictionary s).
Proof.
  unfold end_compile. destruct (current_word s); simpl_state;
    [apply length_set_data|reflexivity].
Qed.

Lemma tame_colon : tame colon.
Proof.
  unfold colon. apply tame_bind; [apply tame_next_token|].
  intros [nm|]; [|apply tame_printf].
  intros s Hs. split; [apply sound_new_entry; exact Hs|]. cbn. lia.
Qed.

Lemma tame_semicolon : tame semicolon.
Proof.
  intros s Hs. unfold semicolon. destruct (negb (compiling s)).
  - unfold modify; apply fine_same; [reflexivity|exact Hs].
  - split; [apply sound_end_compile; exact Hs|].
    rewrite length_end_compile. reflexivity.
Qed.

Lemma tame_run_prim p : tame (run_prim p).
Proof.
  destruct p; cbn [run_prim];
    unfold Prim.add, Prim.sub, Prim.mul, Prim.divide, Prim.mod_,
      Prim.drop, Prim.swap, Prim.over, Prim.rot, Prim.emit, Prim.cr, Prim.dot,
      Prim.eq, Prim.lt, Prim.gt, Prim.and, Prim.or, Prim.not, binary;
    try (tame_steps; fail).
  - apply (tame_state (fun s => let* a := stack_read (sp s - 1) in push a)).
    intros s0. tame_steps.
  - apply (tame_state (fun s =>
      let* _ := modify (printf ("<sp=" ++ fmt_d (sp s) ++ "> ")) in
      let* _ := Prim.dots_loop (Z.to_nat (sp s)) 0 in
      modify (printf LF))).
    intros s0. tame_steps.
  - apply tame_colon.
  - apply tame_semicolon.
Qed.

Lemma fine_execute_body (exec : ptr -> M unit) :
  (forall w s, sound s -> (w < length (dictionary s))%nat ->
               fine s (exec w s)) ->
  forall body s,
    sound s -> Forall (cell_ok (length (dictionary s))) body ->
    fine s (execute_body exec body s).
Proof.
  intros Hexec. induction body as [|val rest IH]; intros s Hs Hb;
    cbn [execute_body].
  - exact (tame_ret tt s Hs).
  - apply List.Forall_cons_iff in Hb as [Hval Hrest].
    assert (Hcell : fine s (execute_cell exec val s)).
    { destruct val as [v|w]; cbn [execute_cell cell_ok] in *.
      - rewrite Hval. exact (tame_push _ s Hs).
      - exact (Hexec w s Hs Hval). }
    apply fine_bind; [exact Hcell|].
    intros a s1 E Hs1. apply IH; [exact Hs1|].
    rewrite E in Hcell. destruct Hcell as [_ Hle].
    exact (cells_ok_le _ _ _ Hle Hrest).
Qed.

Lemma word_at_Some d : forall p,
  (p < length d)%nat -> exists e, word_at d p = Some e.
Proof.
  induction d as [|w d IH]; intros p Hp; cbn in *; [lia|].
  destruct (Nat.eqb_spec p (length d)); [eexists; reflexivity|].
  apply IH. lia.
Qed.

Lemma fine_execute_word fuel : forall w s,
  sound s -> (w < length (dictionary s))%nat -> fine s (execute_word fuel w s).
Proof.
  induction fuel as [|fuel IH]; intros w s Hs Hw; cbn [execute_word];
    [exact I|].
  destruct (word_at_Some _ _ Hw) as [entry He]. rewrite He.
  destruct (code entry) as [f|]; [exact (tame_run_prim f s Hs)|].
  destruct (data entry) as [body|] eqn:Hd; [|exact (tame_ret tt s Hs)].
  apply (fine_execute_body _ IH); [exact Hs|].
  exact (sound_bodies s Hs entry body (word_at_In _ _ _ He) Hd).
Qed.

(** A capacity at its last doubling, or one that can be doubled. *)
Lemma capacity_doubles (k : nat) :
  64 * 2 ^ Z.of_nat k <= 2 ^ 30 ->
  64 * 2 ^ Z.of_nat k = 2 ^ 30 \/ 2 * (64 * 2 ^ Z.of_nat k) <= 2 ^ 30.
Proof.
  intros H.
  destruct (Nat.le_gt_cases k 23%nat) as [Hk|Hk].
  - right. assert (2 ^ Z.of_nat k <= 2 ^ 23)
      by (apply Z.pow_le_mono_r; lia). lia.
  - destruct (Nat.eq_dec k 24%nat) as [->|Hne]; [left; reflexivity|].
    assert (2 ^ 25 <= 2 ^ Z.of_nat k) by (apply Z.pow_le_mono_r; lia). lia.
Qed.

(** The capacity [compile_item] goes on with, when it returns. *)
Lemma capacity_after (k : nat) pos size :
  size = 64 * 2 ^ Z.of_nat k -> size <= 2 ^ 30 -> 0 <= pos <= size ->
  let size' := if pos >=? size then to_int (size * 2) else size in
  (pos <? size') = true ->
  exists k' : nat,
    size' = 64 * 2 ^ Z.of_nat k' /\ size' <= 2 ^ 30 /\ pos + 1 <= size'.
Proof.
  intros Hk Hmax Hpos size' Hlt. subst size'.
  apply Z.ltb_lt in Hlt.
  destruct (Z.geb_spec pos size) as [Hge|Hless].
  - rewrite Hk in Hmax. destruct (capacity_doubles k Hmax) as [E|Hdbl].
    + exfalso. rewrite Hk, E in Hlt. rewrite Hk, E in Hpos.
      change (to_int (2 ^ 30 * 2)) with (- 2 ^ 31) in Hlt. lia.
    + assert (0 < 2 ^ Z.of_nat k) by (apply Z.pow_pos_nonneg; lia).
      rewrite to_int_small in * by (unfold INT_MIN, INT_MAX; lia).
      exists (S k). rewrite Nat2Z.inj_succ, Z.pow_succ_r by lia. lia.
  - exists k. lia.
Qed.

Lemma fine_compile_item c s :
  sound s -> compiling s = true -> cell_ok (length (dictionary s)) c ->
  fine s (compile_item c s).
Proof.
  intros Hs Hc Hcell. unfold compile_item.
  pose proof (sound_room s Hs Hc) as Hroom.
  destruct (sound_size s Hs Hc) as (k & Hk & Hmax & Hpos).
  destruct (compile_buffer s) as [buf|] eqn:Eb; [|contradiction].
  destruct (_ <? _) eqn:Hlt; [|discriminate].
  destruct Hs as [H1 H2 H3 H4]. split; [|reflexivity].
  split; simpl_state.
  - exact H1.
  - intros b [= <-]. apply Forall_app. split; [exact (H2 buf Eb)|].
    constructor; [exact Hcell|constructor].
  - discriminate.
  - intros _. unfold compile_pos in *. rewrite Eb in *. simpl_state.
    destruct (capacity_after k (Z.of_nat (length buf)) (compile_size s)
                Hk Hmax ltac:(lia) Hlt) as (k' & Hk' & Hmax' & Hpos').
    exists k'. rewrite length_app. cbn [length].
    repeat split; [exact Hk'|exact Hmax'|lia].
Qed.

Lemma odd_tag lb num : cell_ok 0 (tag lb num).
Proof.
  unfold tag, cell_ok. rewrite <- Z.bit0_odd, Z.lor_spec.
  apply orb_true_r.
Qed.

Lemma tame_interpret_token lb fuel word : tame (interpret_token lb fuel word).
Proof.
  intros s Hs. unfold interpret_token.
  destruct (strtol lb word) as [num endptr].
  destruct endptr as [|c r].
  - apply fine_bind; [|intros a s1 _ Hs1; exact (tame_ret _ s1 Hs1)].
    destruct (compiling s) eqn:Hc; [|exact (tame_push _ s Hs)].
    apply fine_compile_item; [exact Hs|exact Hc|].
    apply (cell_ok_le 0); [lia|apply odd_tag].
  - destruct (find_word word (dictionary s)) as [w|] eqn:Ef.
    + destruct (find_word_word_at _ _ _ Ef) as (e & He & _).
      pose proof (word_at_lt _ _ _ He) as Hw.
      apply fine_bind; [|intros a s1 _ Hs1; exact (tame_ret _ s1 Hs1)].
      destruct (compiling s) eqn:Hc; cbn [andb];
        [|exact (fine_execute_word fuel w s Hs Hw)].
      destruct (negb _); [|exact (fine_execute_word fuel w s Hs Hw)].
      apply fine_compile_item; [exact Hs|exact Hc|exact Hw].
    + cbn [compiling printf].
      assert (Hp : sound (printf ("Unknown word: " ++ word ++ LF) s))
        by (apply (sound_core s); [reflexivity|exact Hs]).
      destruct (compiling s).
      * split; [exact (sound_end_compile _ Hp)|].
        rewrite length_end_compile. reflexivity.
      * split; [exact Hp|reflexivity].
Qed.

Lemma tame_interpret_loop lb fuel n : tame (interpret_loop lb fuel n).
Proof.
  induction n as [|n IH]; cbn [interpret_loop]; [intros s _; exact I|].
  apply tame_bind; [apply tame_next_token|].
  intros [word|]; [|apply tame_ret].
  apply tame_bind; [apply tame_interpret_token|].
  intros [|]; [exact IH|apply tame_ret].
Qed.

Lemma tame_interpret lb fuel line : tame (interpret lb fuel line).
Proof.
  intros s Hs. unfold interpret.
  apply (tame_interpret_loop lb fuel (S (String.length line))
           (set_input_ptr line s)).
  apply (sound_core s); [reflexivity|exact Hs].
Qed.

Lemma tame_interpret_lines lb fuel lines :
  tame (interpret_lines lb fuel lines).
Proof.
  induction lines as [|l rest IH]; cbn [interpret_lines].
  - apply tame_ret.
  - apply tame_bind; [apply tame_interpret|intros _; exact IH].
Qed.

Lemma sound_boot : sound boot.
Proof.
  split.
  - intros e body Hin Hd. exfalso. revert Hd.
    let d := eval vm_compute in (dictionary boot) in
    change (dictionary boot) with d in Hin.
    cbn [In] in Hin.
    repeat (destruct Hin as [<-|Hin]; [discriminate|]). contradiction.
  - intros buf [=].
  - intros [=].
  - intros [=].
Qed.

(** X19.  No null or wild pointer is ever followed: whatever lines are
    typed into the freshly started interpreter and whatever depth of
    nested calls is allowed, the session does not end in the use of a
    pointer that is null or was never allocated.  Every slot of a body is
    an odd integer or a pointer to an entry, every token [strstr] is
    called with is found, and there is a buffer whenever a slot is
    stored. *)
Theorem no_wild_pointer_is_followed lb fuel lines :
  interpret_lines lb fuel lines boot <> Undefined WildPointer /\
  (forall s', interpret_lines lb fuel lines boot = Ok tt s' -> sound s').
Proof.
  pose proof (tame_interpret_lines lb fuel lines boot sound_boot) as H.
  split.
  - intros E. rewrite E in H. exact (H eq_refl).
  - intros s' E. rewrite E in H. exact (proj1 H).
Qed.

(** ** The undefined behaviours of the primitives *)

Lemma only_weaken {A} (P Q : undefined -> Prop) (m : M A) :
  (forall u, P u -> Q u) -> only P m -> only Q m.
Proof. intros HPQ Hm s u Hok E. exact (HPQ u (Hm s u Hok E)). Qed.

Lemma only_ret {A} P (a : A) : only P (ret a).
Proof. intros s u _ [=]. Qed.

Lemma only_modify P f : only P (modify f).
Proof. intros s u _ [=]. Qed.

Lemma only_bind {A B} P (m : M A) (k : A -> M B) :
  bounded m -> only P m -> (forall a, only P (k a)) -> only P (bind m k).
Proof.
  intros Hb Hm Hk s u Hok H. unfold bind in H.
  destruct (m s) as [a s1| |u1|] eqn:E; try discriminate.
  - exact (Hk a s1 u (Hb _ _ _ Hok E) H).
  - injection H as <-. exact (Hm s u1 Hok E).
Qed.

Lemma only_push P v : only P (push v).
Proof.
  intros s u Hok H.
  destruct (Z_lt_ge_dec (sp s) STACK_SIZE) as [Hroom|Hfull].
  - rewrite (push_ok s v Hok Hroom) in H. discriminate.
  - rewrite push_full in H by lia. discriminate.
Qed.

Lemma only_pop P : only P pop.
Proof.
  intros s u Hok H.
  destruct (Z_le_gt_dec (sp s) 0) as [Hempty|Hpos].
  - rewrite (pop_empty s Hempty) in H. discriminate.
  - destruct (pop_ok s Hok) as (v & _ & E); [lia|].
    rewrite E in H. discriminate.
Qed.

Lemma only_int_div op a b : only of_division (Prim.int_div op a b).
Proof.
  intros s u _. unfold Prim.int_div, undef, ret.
  destruct (b =? 0); [intros [= <-]; left; reflexivity|].
  destruct (_ && _); [intros [= <-]; right; reflexivity|discriminate].
Qed.

Lemma only_binary P f : only P (binary f).
Proof.
  unfold binary.
  apply only_bind; [apply bounded_pop|apply only_pop|intros b].
  apply only_bind; [apply bounded_pop|apply only_pop|intros a].
  apply only_push.
Qed.

Lemma next_token_undefined s u :
  next_token s = Undefined u -> u = BufferOverrun.
Proof.
  unfold next_token, sscanf_s.
  destruct (skip_space_suffix (input_ptr s)) as [pre Hpre].
  pose proof (span_token_eq (skip_space (input_ptr s))) as Hspan.
  destruct (fst (span_token (skip_space (input_ptr s)))) as [|c t] eqn:Et;
    [discriminate|].
  destruct (_ >=? _); [intros [= <-]; reflexivity|].
  unfold bind, advance, ret.
  pose proof (strstr_found pre (String c t)
                (snd (span_token (skip_space (input_ptr s))))) as Hf.
  rewrite <- Hspan, <- Hpre in Hf.
  destruct (strstr (input_ptr s) (String c t)); [discriminate|contradiction].
Qed.

Ltac only_steps :=
  repeat first
    [ apply only_bind; [auto with bounded| |intros ?]
    | apply only_push | apply only_pop | apply only_ret
    | apply only_modify | apply only_binary ].

Lemma to_int_range z : INT_MIN <= to_int z <= INT_MAX.
Proof.
  unfold to_int, wrap, INT_MIN, INT_MAX.
  pose proof (Z.mod_pos_bound (z + 2 ^ (32 - 1)) (2 ^ 32) ltac:(lia)). lia.
Qed.

Lemma to_int_exact z : to_int z = z <-> INT_MIN <= z <= INT_MAX.
Proof.
  split; [intros <-; apply to_int_range|apply to_int_small].
Qed.

(** X20.  What the primitives do that C leaves undefined, as long as [sp]
    is within the array and allocation succeeds.  A primitive ends in an
    undefined behaviour the model tracks in these cases only: [DUP] on the
    empty stack reads outside the array; [/] and [MOD] divide by zero or
    overflow; [:] runs over the array it reads the name into.  The one
    that is left is the overflow of [+], [-] and [*] in [int], which the
    model takes as wrap-around: these return the result reduced to 32
    bits, which is the exact result if and only if that is within
    [int]. *)
Theorem undefined_behaviours_of_the_primitives p s :
  stack_ok s ->
  (forall u,
     run_prim p s = Undefined u ->
     (p = p_dup /\ sp s = 0 /\ u = OutOfBounds) \/
     ((p = p_divide \/ p = p_mod) /\
      (u = DivisionByZero \/ u = DivisionOverflow)) \/
     (p = p_colon /\ u = BufferOverrun)) /\
  (forall f base a b,
     exact_op p = Some f -> contents s = (base ++ [a; b])%list ->
     exists s',
       run_prim p s = Ok tt s' /\
       contents s' = (base ++ [to_int (f a b)])%list /\
       (to_int (f a b) = f a b <-> INT_MIN <= f a b <= INT_MAX)).
Proof.
  intros Hok. split.
  { intros u H.
  assert (Hn : forall m : M unit, only never m -> m s = Undefined u -> False)
    by (intros m Hm E; exact (Hm s u Hok E)).
  assert (Hd : forall m : M unit,
             only of_division m -> m s = Undefined u ->
             u = DivisionByZero \/ u = DivisionOverflow)
    by (intros m Hm E; exact (Hm s u Hok E)).
  destruct p; cbn [run_prim] in H;
    try (exfalso; apply (Hn _ (only_binary never _) H));
    try (exfalso; revert H; apply Hn;
         unfold Prim.drop, Prim.swap, Prim.over, Prim.rot, Prim.emit,
           Prim.cr, Prim.dot, Prim.not;
         only_steps; fail).
  - right. left. split; [left; reflexivity|]. revert H. apply Hd.
    unfold Prim.divide.
    apply only_bind; [apply bounded_pop|apply only_pop|intros b].
    apply only_bind; [apply bounded_pop|apply only_pop|intros a].
    apply only_bind; [apply bounded_int_div|apply only_int_div|intros q].
    apply only_push.
  - right. left. split; [right; reflexivity|]. revert H. apply Hd.
    unfold Prim.mod_.
    apply only_bind; [apply bounded_pop|apply only_pop|intros b].
    apply only_bind; [apply bounded_pop|apply only_pop|intros a].
    apply only_bind; [apply bounded_int_div|apply only_int_div|intros q].
    apply only_push.
  - left. split; [reflexivity|].
    destruct (Z.eq_dec (sp s) 0) as [E0|Hne].
    + split; [exact E0|]. rewrite (dup_empty s E0) in H. congruence.
    + exfalso. destruct Hok as [Hlen Hsp].
      destruct (lookup_lt_is_Some_2 (stack s) (Z.to_nat (sp s - 1))) as [v Hv].
      { rewrite Hlen. unfold STACK_SIZE in *. lia. }
      unfold Prim.dup, bind in H.
      rewrite (stack_read_ok s (sp s - 1) v) in H by (try exact Hv; lia).
      exact (only_push never v s u (conj Hlen Hsp) H).
  - rewrite (dots_ok s Hok) in H. discriminate.
  - right. right. split; [reflexivity|].
    unfold colon, bind in H.
    destruct (next_token s) as [[nm|] s1| |u1|] eqn:E; try discriminate.
    injection H as <-. exact (next_token_undefined s u1 E).
  - unfold semicolon in H. destruct (negb (compiling s)); discriminate. }
  intros f base a b Hp Hc.
  assert (Hroom : Z.of_nat (length (base ++ [to_int (f a b)])%list)
                  <= STACK_SIZE)
    by (apply (room_of_contents s base [a; b]); [exact Hok|exact Hc|cbn; lia]).
  destruct p; cbn [exact_op] in Hp; try discriminate; injection Hp as <-;
    cbn [run_prim]; unfold Prim.add, Prim.sub, Prim.mul;
    match goal with
    | |- context [binary ?g s] =>
        destruct (binary_effect g a b s base Hok Hc Hroom)
          as (s' & E & _ & Hc' & _)
    end;
    exists s'; (split; [exact E|]); (split; [exact Hc'|]);
    apply to_int_exact.
Qed.

Lemma undefined_behaviours_of_the_primitives_witness :
  (run_prim p_dup boot = Undefined OutOfBounds /\
   ((p_dup = p_dup /\ sp boot = 0 /\ OutOfBounds = OutOfBounds) \/
    ((p_dup = p_divide \/ p_dup = p_mod) /\
     (OutOfBounds = DivisionByZero \/ OutOfBounds = DivisionOverflow)) \/
    (p_dup = p_colon /\ OutOfBounds = BufferOverrun))) /\
  (contents stack_int_max_1 = ([] ++ [INT_MAX; 1])%list /\
   exists s',
     run_prim p_add stack_int_max_1 = Ok tt s' /\
     contents s' = ([] ++ [to_int (INT_MAX + 1)])%list /\
     (to_int (INT_MAX + 1) = INT_MAX + 1 <->
      INT_MIN <= INT_MAX + 1 <= INT_MAX)).
Proof.
  assert (Hok : stack_ok stack_int_max_1).
  { split; [reflexivity|]. cbn. unfold STACK_SIZE. lia. }
  split.
  - split; [reflexivity|].
    exact (proj1 (undefined_behaviours_of_the_primitives p_dup boot
                    stack_ok_boot) OutOfBounds eq_refl).
  - split; [reflexivity|].
    exact (proj2 (undefined_behaviours_of_the_primitives p_add stack_int_max_1
                    Hok) Z.add [] INT_MAX 1 eq_refl eq_refl).
Defined.

(** ** Numbers as they are typed *)

Lemma uint_value_nonneg d : forall acc, 0 <= acc -> 0 <= uint_value d acc.
Proof.
  induction d; intros acc Hacc; cbn [uint_value]; [exact Hacc|..];
    apply IHd; lia.
Qed.

Lemma long_range lb : 0 < lb -> LONG_MIN lb <= 0 <= LONG_MAX lb.
Proof.
  intros Hlb. unfold LONG_MIN, LONG_MAX.
  assert (0 < 2 ^ (lb - 1)) by (apply Z.pow_pos_nonneg; lia). lia.
Qed.

Lemma to_int_multiple k r :
  INT_MIN <= r <= INT_MAX -> to_int (k * 2 ^ 32 + r) = r.
Proof.
  intros Hr. unfold to_int, wrap, INT_MIN, INT_MAX in *.
  replace (k * 2 ^ 32 + r + 2 ^ (32 - 1))
    with (r + 2 ^ (32 - 1) + k * 2 ^ 32) by lia.
  rewrite Z.mod_add by lia. rewrite Z.mod_small by lia. lia.
Qed.

Lemma long_bound_multiple lb :
  32 < lb -> 2 ^ (lb - 1) = 2 ^ (lb - 33) * 2 ^ 32.
Proof.
  intros Hlb. rewrite <- Z.pow_add_r by lia. f_equal. lia.
Qed.

(** X21.  A typed numeral is read as a [long], which stops at the ends
    of [long], and then cut to an [int].  Outside a definition the digits
    [d], alone or after a minus sign, push their value, or the end of
    [long] when the value is beyond it, reduced to 32 bits; where [long]
    has more than 32 bits, every numeral beyond [LONG_MAX] so pushes -1
    and every one below [LONG_MIN] pushes 0. *)
Theorem typed_numeral_saturates_then_wraps lb fuel d s :
  0 < lb -> d <> Decimal.Nil -> compiling s = false ->
  (interpret_token lb fuel (NilEmpty.string_of_uint d) s =
     (let* _ := push (to_int (Z.min (LONG_MAX lb) (uint_value d 0))) in
      ret true) s /\
   interpret_token lb fuel (String "-" (NilEmpty.string_of_uint d)) s =
     (let* _ := push (to_int (Z.max (LONG_MIN lb) (- uint_value d 0))) in
      ret true) s) /\
  (32 < lb ->
   (LONG_MAX lb <= uint_value d 0 ->
    to_int (Z.min (LONG_MAX lb) (uint_value d 0)) = -1) /\
   (- uint_value d 0 <= LONG_MIN lb ->
    to_int (Z.max (LONG_MIN lb) (- uint_value d 0)) = 0)).
Proof.
  intros Hlb Hd Hc.
  pose proof (uint_value_nonneg d 0 (Z.le_refl 0)) as Hv.
  pose proof (long_range lb Hlb) as Hr.
  destruct (string_of_uint_head d Hd) as (c & r & Es & Hdig).
  split; [split|].
  - unfold interpret_token. rewrite Es, (strtol_unsigned lb c r Hdig), <- Es.
    rewrite digits_uint. cbn [fst snd]. rewrite Hc.
    rewrite Z.max_r by lia. reflexivity.
  - unfold interpret_token. rewrite Es, (strtol_minus lb c r Hdig), <- Es.
    rewrite digits_uint. cbn [fst snd]. rewrite Hc.
    rewrite (Z.min_r (LONG_MAX lb)) by lia. reflexivity.
  - intros H32. pose proof (long_bound_multiple lb H32) as Hm. split; intros Hb.
    + rewrite Z.min_l by exact Hb. unfold LONG_MAX. rewrite Hm.
      apply (to_int_multiple (2 ^ (lb - 33)) (-1)).
      unfold INT_MIN, INT_MAX. lia.
    + rewrite Z.max_l by exact Hb. unfold LONG_MIN. rewrite Hm.
      replace (- (2 ^ (lb - 33) * 2 ^ 32)) with (- 2 ^ (lb - 33) * 2 ^ 32 + 0)
        by lia.
      apply to_int_multiple. unfold INT_MIN, INT_MAX. lia.
Qed.

Lemma typed_numeral_saturates_then_wraps_witness :
  let d := Pos.to_uint 99999999999999999999 in
  (interpret_token LP64 0 (NilEmpty.string_of_uint d) boot =
     (let* _ := push (to_int (Z.min (LONG_MAX LP64) (uint_value d 0))) in
      ret true) boot /\
   interpret_token LP64 0 (String "-" (NilEmpty.string_of_uint d)) boot =
     (let* _ := push (to_int (Z.max (LONG_MIN LP64) (- uint_value d 0))) in
      ret true) boot) /\
  (32 < LP64 ->
   (LONG_MAX LP64 <= uint_value d 0 ->
    to_int (Z.min (LONG_MAX LP64) (uint_value d 0)) = -1) /\
   (- uint_value d 0 <= LONG_MIN LP64 ->
    to_int (Z.max (LONG_MIN LP64) (- uint_value d 0)) = 0)).
Proof.
  intros d.
  assert (H1 : 0 < LP64) by (unfold LP64; lia).
  assert (H2 : d <> Decimal.Nil) by (vm_compute; discriminate).
  exact (typed_numeral_saturates_then_wraps LP64 0 d boot H1 H2 eq_refl).
Defined.

(** ** The session *)

Lemma fgets_line n : forall l rest,
  no_break l = true -> (String.length l < n)%nat ->
  fgets n (l ++ LF ++ rest) = (l ++ LF, rest).
Proof.
  induction n as [|n IH]; intros l rest Hl Hlen; [lia|].
  destruct l as [|c l]; [reflexivity|].
  cbn [no_break] in Hl. apply andb_true_iff in Hl as [Hc Hl].
  apply negb_true_iff, orb_false_iff in Hc as [Hc _].
  cbn [append fgets]. rewrite Hc.
  rewrite (IH l rest Hl) by (cbn in Hlen; lia). reflexivity.
Qed.

Lemma fgets_last n : forall l,
  no_break l = true -> (String.length l <= n)%nat -> fgets n l = (l, "").
Proof.
  induction n as [|n IH]; intros [|c l] Hl Hlen; try reflexivity;
    [cbn in Hlen; lia|].
  cbn [no_break] in Hl. apply andb_true_iff in Hl as [Hc Hl].
  apply negb_true_iff, orb_false_iff in Hc as [Hc _].
  cbn [fgets]. rewrite Hc.
  rewrite (IH l Hl) by (cbn in Hlen; lia). reflexivity.
Qed.

Lemma fgets_full n : forall a b,
  no_break a = true -> String.length a = n -> fgets n (a ++ b) = (a, b).
Proof.
  induction n as [|n IH]; intros [|c a] b Ha Hlen; try discriminate.
  - destruct b; reflexivity.
  - cbn [no_break] in Ha. apply andb_true_iff in Ha as [Hc Ha].
    apply negb_true_iff, orb_false_iff in Hc as [Hc _].
    cbn [append fgets]. rewrite Hc.
    rewrite (IH a b Ha) by (cbn in Hlen; lia). reflexivity.
Qed.

Lemma cut_newline_line l : no_break l = true -> cut_newline (l ++ LF) = l.
Proof.
  induction l as [|c l IH]; intros Hl; [reflexivity|].
  cbn [no_break] in Hl. apply andb_true_iff in Hl as [Hc Hl].
  apply negb_true_iff in Hc. cbn [append cut_newline]. rewrite Hc.
  rewrite (IH Hl). reflexivity.
Qed.

Lemma cut_newline_plain l : no_break l = true -> cut_newline l = l.
Proof.
  induction l as [|c l IH]; intros Hl; [reflexivity|].
  cbn [no_break] in Hl. apply andb_true_iff in Hl as [Hc Hl].
  apply negb_true_iff in Hc. cbn [cut_newline]. rewrite Hc.
  rewrite (IH Hl). reflexivity.
Qed.

Lemma plain_line_spec l :
  plain_line l = true ->
  no_break l = true /\ (String.length l < Z.to_nat (INPUT_SIZE - 1))%nat /\
  String.eqb l "exit" = false.
Proof.
  unfold plain_line. intros H.
  apply andb_true_iff in H as [H H3]. apply andb_true_iff in H as [H1 H2].
  apply Z.ltb_lt in H2. apply negb_true_iff in H3.
  repeat split; [exact H1| |exact H3]. unfold INPUT_SIZE in *. lia.
Qed.

(** One turn of the loop on a line that ends with a newline. *)
Lemma main_loop_line lb fuel n l rest s :
  plain_line l = true ->
  main_loop lb fuel (S n) (l ++ LF ++ rest) s =
  (let* _ := interpret lb fuel l in main_loop lb fuel n rest)
    (printf (prompt s) s).
Proof.
  intros Hl. destruct (plain_line_spec l Hl) as (Hnb & Hlen & Hex).
  cbn [main_loop].
  rewrite (fgets_line _ l rest Hnb Hlen), (cut_newline_line l Hnb), Hex.
  destruct (l ++ LF ++ rest) eqn:E; [|reflexivity].
  destruct l; discriminate E.
Qed.

Lemma length_unlines_cons l rest tail :
  String.length ((l ++ LF ++ unlines rest) ++ tail) =
  S (String.length l + String.length (unlines rest ++ tail)).
Proof. rewrite !length_append. cbn [LF String.length]. lia. Qed.

(** The input is at its end, or at a line that ends the session. *)
Lemma main_loop_end lb fuel n tail s :
  tail = "" \/
  cut_newline (fst (fgets (Z.to_nat (INPUT_SIZE - 1)) tail)) = "exit" ->
  main_loop lb fuel (S n) tail s = Ok 0 (printf (prompt s) s).
Proof.
  intros [->|H]; [reflexivity|]. cbn [main_loop].
  destruct tail as [|c tail]; [reflexivity|].
  destruct (fgets (Z.to_nat (INPUT_SIZE - 1)) (String c tail)) as [buf rest].
  cbn [fst] in H. rewrite H. reflexivity.
Qed.

Lemma main_loop_lines lb fuel lines tail : forall n s,
  Forall (fun l => plain_line l = true) lines ->
  tail = "" \/
  cut_newline (fst (fgets (Z.to_nat (INPUT_SIZE - 1)) tail)) = "exit" ->
  (String.length (unlines lines ++ tail) < n)%nat ->
  main_loop lb fuel n (unlines lines ++ tail) s = session lb fuel lines s.
Proof.
  induction lines as [|l rest IH]; intros n s Hall Hend Hn.
  - destruct n as [|n]; [lia|]. exact (main_loop_end lb fuel n tail s Hend).
  - apply List.Forall_cons_iff in Hall as [Hl Hrest].
    cbn [unlines] in *. rewrite length_unlines_cons in Hn.
    destruct n as [|n]; [lia|].
    replace ((l ++ LF ++ unlines rest) ++ tail)
      with (l ++ LF ++ unlines rest ++ tail)
      by (rewrite !append_assoc; reflexivity).
    rewrite (main_loop_line lb fuel n l _ s Hl).
    cbn [session]. unfold bind.
    destruct (interpret lb fuel l (printf (prompt s) s)); try reflexivity.
    apply IH; [exact Hrest|exact Hend|lia].
Qed.

(** X22.  [main] prints its two lines of welcome and then, turn by
    turn, a prompt, [ok> ] or [... ] inside a definition, and hands the
    line it reads to [interpret] without the newline.  It returns 0 when
    the input is at its end and when the line is [exit], which it tests
    before the line is interpreted; what follows that line is not read. *)
Theorem main_feeds_the_lines_to_interpret lb fuel lines tail :
  Forall (fun l => plain_line l = true) lines ->
  tail = "" \/ tail = "exit" \/ (exists r, tail = "exit" ++ LF ++ r) ->
  main lb fuel (unlines lines ++ tail) =
  session lb fuel lines
    (printf ("Type 'exit' to quit" ++ LF ++ LF)
       (printf ("Simple Forth Interpreter" ++ LF) boot)).
Proof.
  intros Hall Hend. unfold main. apply main_loop_lines; [exact Hall| |lia].
  destruct Hend as [->|[->|[r ->]]]; [left; reflexivity|right..];
    reflexivity.
Qed.

Lemma main_feeds_the_lines_to_interpret_witness :
  main LP64 1 (unlines ["7 3"; ": X X ;"] ++ "exit" ++ LF ++ "1 2 +") =
  session LP64 1 ["7 3"; ": X X ;"]
    (printf ("Type 'exit' to quit" ++ LF ++ LF)
       (printf ("Simple Forth Interpreter" ++ LF) boot)).
Proof.
  apply (main_feeds_the_lines_to_interpret LP64 1 ["7 3"; ": X X ;"]
           ("exit" ++ LF ++ "1 2 +")).
  - repeat constructor.
  - right. right. exists "1 2 +". reflexivity.
Defined.

(** X23.  A line is read in pieces of 255 characters: when the input
    goes on for 255 characters without a newline, these are interpreted
    as a line of their own and the loop reads on from the next character,
    so that a token at the seam is taken for two. *)
Theorem long_line_is_read_in_pieces lb fuel n a b s :
  no_break a = true -> Z.of_nat (String.length a) = INPUT_SIZE - 1 ->
  main_loop lb fuel (S n) (a ++ b) s =
  (let* _ := interpret lb fuel a in main_loop lb fuel n b)
    (printf (prompt s) s).
Proof.
  intros Ha Hlen. cbn [main_loop].
  rewrite (fgets_full _ a b Ha) by (unfold INPUT_SIZE in *; lia).
  rewrite (cut_newline_plain a Ha).
  assert (Hex : String.eqb a "exit" = false).
  { apply String.eqb_neq. intros ->. discriminate Hlen. }
  rewrite Hex. destruct (a ++ b) eqn:E; [|reflexivity].
  destruct a; [discriminate Hlen|discriminate E].
Qed.

Lemma long_line_is_read_in_pieces_witness :
  no_break line_of_255 = true /\
  Z.of_nat (String.length line_of_255) = INPUT_SIZE - 1 /\
  main_loop LP64 1 1 (line_of_255 ++ "3" ++ LF) boot =
  (let* _ := interpret LP64 1 line_of_255 in main_loop LP64 1 0 ("3" ++ LF))
    (printf (prompt boot) boot).
Proof.
  split; [reflexivity|]. split; [reflexivity|].
  exact (long_line_is_read_in_pieces LP64 1 0 line_of_255 ("3" ++ LF) boot
           eq_refl eq_refl).
Defined.

(** ** What was printed is not read *)

Lemma before_printf msg pre s :
  printf msg (before pre s) = before pre (printf msg s).
Proof. unfold printf, before. cbn. rewrite append_assoc. reflexivity. Qed.

Lemma quiet_ret {A} (a : A) : quiet (ret a).
Proof. intros pre s. reflexivity. Qed.

Lemma quiet_undef {A} u : quiet (@undef A u).
Proof. intros pre s. reflexivity. Qed.

Lemma quiet_bind {A B} (m : M A) (k : A -> M B) :
  quiet m -> (forall a, quiet (k a)) -> quiet (bind m k).
Proof.
  intros Hm Hk pre s. unfold bind. rewrite Hm.
  destruct (m s) as [a s1| | |]; cbn [lift]; try reflexivity. apply Hk.
Qed.

Lemma quiet_state {A} (f : state -> M A) :
  (forall pre s0, f (before pre s0) = f s0) ->
  (forall s0, quiet (f s0)) -> quiet (fun s => f s s).
Proof. intros Hf Hq pre s. rewrite Hf. apply Hq. Qed.

Lemma quiet_printf msg : quiet (modify (printf msg)).
Proof. intros pre s. unfold modify. rewrite before_printf. reflexivity. Qed.

Lemma quiet_set_sp v : quiet (modify (set_sp v)).
Proof. intros pre s. reflexivity. Qed.

Lemma quiet_stack_read i : quiet (stack_read i).
Proof.
  intros pre s. unfold stack_read. cbn [stack before].
  destruct (_ && _); [|reflexivity].
  destruct (stack s !! Z.to_nat i); reflexivity.
Qed.

Lemma quiet_stack_write i v : quiet (stack_write i v).
Proof.
  intros pre s. unfold stack_write. cbn [stack before].
  destruct (_ && _); reflexivity.
Qed.

Lemma quiet_push v : quiet (push v).
Proof.
  intros pre s. unfold push. cbn [sp before].
  destruct (sp s >=? STACK_SIZE).
  - rewrite before_printf. reflexivity.
  - apply (quiet_bind _ _ (quiet_stack_write _ _) (fun _ => quiet_set_sp _)).
Qed.

Lemma quiet_pop : quiet pop.
Proof.
  intros pre s. unfold pop. cbn [sp before].
  destruct (sp s <=? 0).
  - rewrite before_printf. reflexivity.
  - apply (quiet_bind _ _ (quiet_set_sp _) (fun _ => quiet_stack_read _)).
Qed.

Lemma quiet_int_div op a b : quiet (Prim.int_div op a b).
Proof.
  unfold Prim.int_div. destruct (b =? 0); [apply quiet_undef|].
  destruct (_ && _); [apply quiet_undef|apply quiet_ret].
Qed.

Lemma quiet_dots_loop n : forall i, quiet (Prim.dots_loop n i).
Proof.
  induction n as [|n IH]; intros i; cbn [Prim.dots_loop].
  - apply quiet_ret.
  - apply quiet_bind; [apply quiet_stack_read|intros v].
    apply quiet_bind; [apply quiet_printf|intros _; apply IH].
Qed.

Create HintDb quiet.
#[local] Hint Resolve quiet_ret quiet_undef quiet_printf quiet_set_sp
  quiet_stack_read quiet_stack_write quiet_push quiet_pop quiet_int_div
  quiet_dots_loop : quiet.

Ltac quiet_steps :=
  repeat first
    [ apply quiet_bind; [|intros ?]
    | solve [auto with quiet] ].

Lemma quiet_next_token : quiet next_token.
Proof.
  intros pre s. unfold next_token. cbn [input_ptr before].
  destruct (sscanf_s (input_ptr s)) as [tok|]; [|reflexivity].
  destruct (_ >=? _); [reflexivity|].
  unfold bind, advance, ret. cbn [input_ptr before].
  destruct (strstr (input_ptr s) tok); reflexivity.
Qed.

Lemma before_end_compile pre s :
  end_compile (before pre s) = before pre (end_compile s).
Proof.
  unfold end_compile. cbn [current_word before].
  destruct (current_word s); reflexivity.
Qed.

Lemma quiet_colon : quiet colon.
Proof.
  unfold colon. apply quiet_bind; [apply quiet_next_token|].
  intros [nm|]; [|apply quiet_printf]. intros pre s. reflexivity.
Qed.

Lemma quiet_semicolon : quiet semicolon.
Proof.
  intros pre s. unfold semicolon. cbn [compiling before].
  destruct (negb (compiling s)); cbn [lift].
  - rewrite before_printf. reflexivity.
  - rewrite before_end_compile. reflexivity.
Qed.

Lemma quiet_run_prim p : quiet (run_prim p).
Proof.
  destruct p; cbn [run_prim];
    unfold Prim.add, Prim.sub, Prim.mul, Prim.divide, Prim.mod_,
      Prim.drop, Prim.swap, Prim.over, Prim.rot, Prim.emit, Prim.cr, Prim.dot,
      Prim.eq, Prim.lt, Prim.gt, Prim.and, Prim.or, Prim.not, binary;
    try (quiet_steps; fail).
  - apply (quiet_state (fun s => let* a := stack_read (sp s - 1) in push a));
      [reflexivity|].
    intros s0. quiet_steps.
  - apply (quiet_state (fun s =>
      let* _ := modify (printf ("<sp=" ++ fmt_d (sp s) ++ "> ")) in
      let* _ := Prim.dots_loop (Z.to_nat (sp s)) 0 in
      modify (printf LF))); [reflexivity|].
    intros s0. quiet_steps.
  - apply quiet_colon.
  - apply quiet_semicolon.
Qed.

Lemma quiet_execute_body (exec : ptr -> M unit) body :
  (forall w, quiet (exec w)) -> quiet (execute_body exec body).
Proof.
  intros Hg. induction body as [|val rest IH]; cbn [execute_body].
  - apply quiet_ret.
  - apply quiet_bind; [|intros _; exact IH].
    destruct val as [v|w]; cbn [execute_cell]; [|apply Hg].
    destruct (Z.odd v); auto with quiet.
Qed.

Lemma quiet_execute_word fuel : forall w, quiet (execute_word fuel w).
Proof.
  induction fuel as [|fuel IH]; intros w pre s; cbn [execute_word];
    [reflexivity|].
  cbn [dictionary before].
  destruct (word_at (dictionary s) w) as [entry|]; [|reflexivity].
  destruct (code entry) as [f|]; [apply quiet_run_prim|].
  destruct (data entry) as [body|]; [|reflexivity].
  apply quiet_execute_body. exact IH.
Qed.

Lemma quiet_compile_item c : quiet (compile_item c).
Proof.
  intros pre s. unfold compile_item, compile_pos.
  cbn [compile_buffer compile_size before].
  destruct (compile_buffer s); [|reflexivity].
  destruct (_ <? _); reflexivity.
Qed.

Lemma quiet_interpret_token lb fuel word :
  quiet (interpret_token lb fuel word).
Proof.
  intros pre s. unfold interpret_token.
  destruct (strtol lb word) as [num endptr].
  cbn [compiling dictionary before].
  destruct endptr as [|c r].
  - apply quiet_bind; [|intros _; apply quiet_ret].
    destruct (compiling s); [apply quiet_compile_item|apply quiet_push].
  - destruct (find_word word (dictionary s)) as [w|].
    + apply quiet_bind; [|intros _; apply quiet_ret].
      destruct (_ && _); [apply quiet_compile_item|apply quiet_execute_word].
    + cbn [lift]. rewrite before_printf. cbn [compiling printf before].
      destruct (compiling s); [rewrite before_end_compile|]; reflexivity.
Qed.

Lemma quiet_interpret_loop lb fuel n : quiet (interpret_loop lb fuel n).
Proof.
  induction n as [|n IH]; cbn [interpret_loop]; [intros pre s; reflexivity|].
  apply quiet_bind; [apply quiet_next_token|].
  intros [word|]; [|apply quiet_ret].
  apply quiet_bind; [apply quiet_interpret_token|].
  intros [|]; [exact IH|apply quiet_ret].
Qed.

Lemma quiet_interpret lb fuel line : quiet (interpret lb fuel line).
Proof.
  intros pre s. unfold interpret.
  exact (quiet_interpret_loop lb fuel _ pre (set_input_ptr line s)).
Qed.

Lemma quiet_interpret_lines lb fuel lines :
  quiet (interpret_lines lb fuel lines).
Proof.
  induction lines as [|l rest IH]; cbn [interpret_lines].
  - apply quiet_ret.
  - apply quiet_bind; [apply quiet_interpret|intros _; exact IH].
Qed.

(** X24.  What was printed is never read back: had any text been
    printed before, the lines would be interpreted in the same way, come
    to the same end and print the same after that text. *)
Theorem output_is_never_read lb fuel lines pre s :
  interpret_lines lb fuel lines (before pre s) =
  lift (before pre) (interpret_lines lb fuel lines s).
Proof. apply quiet_interpret_lines. Qed.

Lemma before_mute s : before (out s) (mute s) = s.
Proof. destruct s. unfold before, mute. cbn. rewrite append_nil_r. reflexivity. Qed.

Lemma erase_lift {A} pre (r : result A) : erase (lift (before pre) r) = erase r.
Proof. destruct r; reflexivity. Qed.

Lemma erase_quiet {A} (m : M A) s1 s2 :
  quiet m -> mute s1 = mute s2 ->
  exists r, m s1 = lift (before (out s1)) r /\ m s2 = lift (before (out s2)) r.
Proof.
  intros Hq E. exists (m (mute s1)).
  split; [|rewrite E]; rewrite <- Hq, before_mute; reflexivity.
Qed.

Lemma mute_printf msg s : mute (printf msg s) = mute s.
Proof. reflexivity. Qed.

Lemma session_interpret_lines lb fuel lines : forall s1 s2,
  mute s1 = mute s2 ->
  erase (session lb fuel lines s1) = erase (interpret_lines lb fuel lines s2).
Proof.
  induction lines as [|l rest IH]; intros s1 s2 E;
    cbn [session interpret_lines].
  - unfold ret. cbn [erase].
    change (mute (printf (prompt s1) s1)) with (mute s1). rewrite E.
    reflexivity.
  - destruct (erase_quiet (interpret lb fuel l) (printf (prompt s1) s1) s2
                (quiet_interpret lb fuel l)) as (r & E1 & E2);
      [exact E|].
    unfold bind. rewrite E1, E2.
    destruct r as [a s'| | |]; cbn [lift erase]; try reflexivity.
    apply IH. reflexivity.
Qed.

(** X25.  Apart from what is printed, a session is its lines
    interpreted one after the other from the state [init_forth] leaves:
    [main] on these lines and [interpret] called on each in turn end in
    the same way and with the same stack, dictionary and compiler. *)
Theorem session_is_the_lines_interpreted lb fuel lines tail :
  Forall (fun l => plain_line l = true) lines ->
  tail = "" \/ tail = "exit" \/ (exists r, tail = "exit" ++ LF ++ r) ->
  erase (main lb fuel (unlines lines ++ tail)) =
  erase (interpret_lines lb fuel lines boot).
Proof.
  intros Hall Hend.
  assert (Hend' : tail = "" \/
            cut_newline (fst (fgets (Z.to_nat (INPUT_SIZE - 1)) tail)) = "exit")
    by (destruct Hend as [->|[->|[r ->]]]; [left; reflexivity|right..];
        reflexivity).
  unfold main.
  rewrite (main_loop_lines lb fuel lines tail _ _ Hall Hend') by lia.
  apply session_interpret_lines. rewrite !mute_printf. reflexivity.
Qed.

Lemma session_is_the_lines_interpreted_witness :
  erase (main LP64 1 (unlines ["7 3"; ": X X ;"] ++ "exit")) =
  erase (interpret_lines LP64 1 ["7 3"; ": X X ;"] boot).
Proof.
  apply (session_is_the_lines_interpreted LP64 1 ["7 3"; ": X X ;"] "exit").
  - repeat constructor.
  - right. left. reflexivity.
Defined.

(** ** [:] and [;] out of place *)

(** X26.  Outside a definition, a [;] only prints an error and the rest
    of the line is interpreted as if the [;] were not there; a [:] with
    nothing but blanks behind it on its line prints an error and defines
    nothing, the name is not looked for on the next line.  [:] and [;] are
    required to have their first meaning. *)
Theorem colon_and_semicolon_out_of_place lb fuel r s pc ec ps es :
  compiling s = false ->
  find_word ":" (dictionary s) = Some pc ->
  word_at (dictionary s) pc = Some ec -> code ec = Some p_colon ->
  find_word ";" (dictionary s) = Some ps ->
  word_at (dictionary s) ps = Some es -> code es = Some p_semicolon ->
  (token_end r = true ->
   interpret lb (S fuel) (";" ++ r) s =
   interpret lb (S fuel) r
     (printf ("Error: ';' outside definition" ++ LF) s)) /\
  (blank r = true ->
   interpret lb (S fuel) (":" ++ r) s =
   Ok tt (printf ("Error: expected word name after ':'" ++ LF)
            (set_input_ptr r s))).
Proof.
  intros Hc Hfc Hwc Hcc Hfs Hws Hcs. split; intros Hr; unfold interpret.
  - change (String.length (";" ++ r)) with (S (String.length r)).
    erewrite loop_step; [reflexivity| |].
    + apply (next_token_app _ "" ";" r); token_side.
    + rewrite (interpret_token_call lb (S fuel) ";" ps);
        [|vm_compute; discriminate|exact Hfs|exact Hc].
      unfold bind. cbn [execute_word]. simpl_state. rewrite Hws, Hcs.
      cbn [run_prim]. unfold semicolon. simpl_state. rewrite Hc.
      reflexivity.
  - assert (Hend : token_end r = true) by (destruct r; [reflexivity|];
      cbn in Hr; apply andb_true_iff in Hr as [Hr _]; exact Hr).
    change (String.length (":" ++ r)) with (S (String.length r)).
    erewrite loop_step; cycle 1.
    + apply (next_token_app _ "" ":" r); token_side.
    + rewrite (interpret_token_call lb (S fuel) ":" pc);
        [|vm_compute; discriminate|exact Hfc|exact Hc].
      unfold bind. cbn [execute_word]. simpl_state. rewrite Hwc, Hcc.
      cbn [run_prim]. unfold colon, bind.
      rewrite next_token_end by exact Hr. unfold modify. reflexivity.
    + apply loop_stop. apply next_token_end. exact Hr.
Qed.

Lemma colon_and_semicolon_out_of_place_witness :
  interpret LP64 1 (";" ++ " 1 2 +") boot =
    interpret LP64 1 " 1 2 +"
      (printf ("Error: ';' outside definition" ++ LF) boot) /\
  interpret LP64 1 (":" ++ "  ") boot =
    Ok tt (printf ("Error: expected word name after ':'" ++ LF)
             (set_input_ptr "  " boot)).
Proof.
  split.
  - exact (proj1 (colon_and_semicolon_out_of_place LP64 0 " 1 2 +" boot
                    20%nat _ 21%nat _
                    eq_refl eq_refl eq_refl eq_refl eq_refl eq_refl eq_refl)
             eq_refl).
  - exact (proj2 (colon_and_semicolon_out_of_place LP64 0 "  " boot
                    20%nat _ 21%nat _
                    eq_refl eq_refl eq_refl eq_refl eq_refl eq_refl eq_refl)
             eq_refl).
Defined.

(** ** The capacity of the compilation buffer *)

(** X27.  The buffer of the compiler grows as needed: in whatever state
    a session from the start has left the interpreter inside a definition,
    with fewer than 2^30 slots filled, [compile_item] stores one more slot
    behind those that are there, within the capacity it goes on with, and
    changes nothing but the buffer and its capacity. *)
Theorem buffer_grows_as_needed lb fuel lines s c :
  interpret_lines lb fuel lines boot = Ok tt s ->
  compiling s = true -> compile_pos s < 2 ^ 30 ->
  exists buf s',
    compile_buffer s = Some buf /\
    compile_item c s = Ok tt s' /\
    compile_buffer s' = Some (buf ++ [c])%list /\
    compile_pos s' <= compile_size s' /\
    compile_size s <= compile_size s' /\
    dictionary s' = dictionary s /\ current_word s' = current_word s /\
    compiling s' = true /\
    stack s' = stack s /\ sp s' = sp s /\ out s' = out s.
Proof.
  intros Hrun Hc Hpos.
  pose proof (tame_interpret_lines lb fuel lines boot sound_boot) as Hs.
  rewrite Hrun in Hs. destruct Hs as [Hs _].
  pose proof (sound_room s Hs Hc) as Hroom.
  destruct (sound_size s Hs Hc) as (k & Hk & Hmax & Hle).
  unfold compile_item, compile_pos in *.
  destruct (compile_buffer s) as [buf|] eqn:Eb; [|contradiction].
  assert (H0 : 0 < 2 ^ Z.of_nat k) by (apply Z.pow_pos_nonneg; lia).
  assert (Hsize :
    let size' := if Z.of_nat (length buf) >=? compile_size s
                 then to_int (compile_size s * 2) else compile_size s in
    Z.of_nat (length buf) < size' /\ compile_size s <= size').
  { destruct (Z.geb_spec (Z.of_nat (length buf)) (compile_size s)) as [Hge|Hlt].
    - rewrite Hk in Hmax. destruct (capacity_doubles k Hmax) as [E|Hdbl];
        [lia|].
      rewrite to_int_small by (unfold INT_MIN, INT_MAX; lia). lia.
    - lia. }
  cbv zeta in Hsize. destruct Hsize as [Hlt Hgrow].
  destruct (Z.ltb_spec (Z.of_nat (length buf))
              (if Z.of_nat (length buf) >=? compile_size s
               then to_int (compile_size s * 2) else compile_size s));
    [|lia].
  eexists buf, _. split; [reflexivity|]. split; [reflexivity|].
  simpl_state. rewrite length_app. cbn [length].
  repeat split; try reflexivity; try exact Hc; lia.
Qed.

Lemma buffer_grows_as_needed_witness :
  interpret_lines LP64 1 [": X 1"] boot = Ok tt after_colon_X_1 /\
  compiling after_colon_X_1 = true /\ compile_pos after_colon_X_1 < 2 ^ 30 /\
  exists buf s',
    compile_buffer after_colon_X_1 = Some buf /\
    compile_item (CWord 5%nat) after_colon_X_1 = Ok tt s' /\
    compile_buffer s' = Some (buf ++ [CWord 5%nat])%list /\
    compile_pos s' <= compile_size s' /\
    compile_size after_colon_X_1 <= compile_size s' /\
    dictionary s' = dictionary after_colon_X_1 /\
    current_word s' = current_word after_colon_X_1 /\
    compiling s' = true /\
    stack s' = stack after_colon_X_1 /\ sp s' = sp after_colon_X_1 /\
    out s' = out after_colon_X_1.
Proof.
  assert (H1 : interpret_lines LP64 1 [": X 1"] boot = Ok tt after_colon_X_1)
    by (vm_compute; reflexivity).
  assert (H2 : compile_pos after_colon_X_1 < 2 ^ 30)
    by (vm_compute; reflexivity).
  split; [exact H1|]. split; [reflexivity|]. split; [exact H2|].
  exact (buffer_grows_as_needed LP64 1 [": X 1"] after_colon_X_1 (CWord 5%nat)
           H1 eq_refl H2).
Defined.

(** ** The return stack *)

(** X28.  The return stack is a stack of 256 cells of its own.  With
    [rsp] within the array, [rpush] either stores the value, after which
    [rpop] gives it back and leaves [rsp] and the cells below as they
    were, or finds the array full, prints [Return stack overflow!] and
    exits with status 1; [rpop] either takes a cell off or finds the
    stack empty, prints [Return stack underflow!] and exits with status
    1.  Neither indexes outside the array. *)
Theorem return_stack_is_a_stack r v :
  rstack_ok r ->
  match rpush v r with
  | ROk _ r1 =>
      rsp r < STACK_SIZE /\ rstack_ok r1 /\
      rpop r1 = ROk v (mkRstate (rstack r1) (rsp r) (rout r)) /\
      take (Z.to_nat (rsp r)) (rstack r1) = take (Z.to_nat (rsp r)) (rstack r)
  | RExit n r1 =>
      rsp r = STACK_SIZE /\ n = 1 /\
      r1 = rprintf ("Return stack overflow!" ++ LF) r
  | RUndefined _ => False
  end /\
  match rpop r with
  | ROk x r1 =>
      0 < rsp r /\ rstack_ok r1 /\ rsp r1 = rsp r - 1 /\
      rstack r !! Z.to_nat (rsp r - 1) = Some x /\ rstack r1 = rstack r /\
      rout r1 = rout r
  | RExit n r1 =>
      rsp r = 0 /\ n = 1 /\
      r1 = rprintf ("Return stack underflow!" ++ LF) r
  | RUndefined _ => False
  end.
Proof.
  intros [Hlen Hsp]. split.
  - unfold rpush.
    destruct (Z.geb_spec (rsp r) STACK_SIZE) as [Hfull|Hroom].
    + repeat split; lia.
    + replace ((0 <=? rsp r) && (Z.to_nat (rsp r) <? length (rstack r))%nat)
        with true
        by (symmetry; apply andb_true_iff; split;
            [apply Z.leb_le; lia
            |apply Nat.ltb_lt; rewrite Hlen; unfold STACK_SIZE in *; lia]).
      split; [exact Hroom|]. split; [|split].
      * split; cbn [rstack rsp]; [rewrite length_insert; exact Hlen|lia].
      * unfold rpop. cbn [rstack rsp rout].
        destruct (Z.leb_spec (rsp r + 1) 0); [lia|].
        destruct (Z.ltb_spec (rsp r + 1 - 1) STACK_SIZE); [|lia].
        replace (rsp r + 1 - 1) with (rsp r) by lia.
        rewrite list_lookup_insert_eq
          by (rewrite Hlen; unfold STACK_SIZE in *; lia).
        reflexivity.
      * cbn [rstack]. apply take_insert_ge. lia.
  - unfold rpop.
    destruct (Z.leb_spec (rsp r) 0) as [Hempty|Hpos].
    + repeat split; lia.
    + destruct (Z.ltb_spec (rsp r - 1) STACK_SIZE); [|lia].
      destruct (lookup_lt_is_Some_2 (rstack r) (Z.to_nat (rsp r - 1)))
        as [x Hx].
      { rewrite Hlen. unfold STACK_SIZE in *. lia. }
      rewrite Hx. repeat split; cbn [rstack rsp rout];
        try reflexivity; try exact Hlen; lia.
Qed.

Lemma return_stack_is_a_stack_witness :
  rstack_ok rglobals /\
  match rpush 7 rglobals with
  | ROk _ r1 =>
      rsp rglobals < STACK_SIZE /\ rstack_ok r1 /\
      rpop r1 = ROk 7 (mkRstate (rstack r1) (rsp rglobals) (rout rglobals)) /\
      take (Z.to_nat (rsp rglobals)) (rstack r1) =
      take (Z.to_nat (rsp rglobals)) (rstack rglobals)
  | RExit n r1 =>
      rsp rglobals = STACK_SIZE /\ n = 1 /\
      r1 = rprintf ("Return stack overflow!" ++ LF) rglobals
  | RUndefined _ => False
  end /\
  match rpop rglobals with
  | ROk x r1 =>
      0 < rsp rglobals /\ rstack_ok r1 /\ rsp r1 = rsp rglobals - 1 /\
      rstack rglobals !! Z.to_nat (rsp rglobals - 1) = Some x /\
      rstack r1 = rstack rglobals /\ rout r1 = rout rglobals
  | RExit n r1 =>
      rsp rglobals = 0 /\ n = 1 /\
      r1 = rprintf ("Return stack underflow!" ++ LF) rglobals
  | RUndefined _ => False
  end.
Proof.
  assert (H : rstack_ok rglobals).
  { split; [reflexivity|]. cbn. unfold STACK_SIZE. lia. }
  split; [exact H|]. exact (return_stack_is_a_stack rglobals 7 H).
Defined.

(** ** Definitions token by token *)

Lemma compile_item_ok c s buf (k : nat) :
  compile_buffer s = Some buf ->
  compile_size s = 64 * 2 ^ Z.of_nat k -> compile_size s <= 2 ^ 30 ->
  Z.of_nat (length buf) <= compile_size s ->
  Z.of_nat (length buf) < 2 ^ 30 ->
  exists size' (k' : nat),
    compile_item c s =
      Ok tt (set_compile_buffer (Some (buf ++ [c])%list)
               (set_compile_size size' s)) /\
    size' = 64 * 2 ^ Z.of_nat k' /\ size' <= 2 ^ 30 /\
    Z.of_nat (length (buf ++ [c])%list) <= size'.
Proof.
  intros Eb Hk Hmax Hle Hpos. unfold compile_item, compile_pos. rewrite Eb.
  assert (H0 : 0 < 2 ^ Z.of_nat k) by (apply Z.pow_pos_nonneg; lia).
  set (size' := if Z.of_nat (length buf) >=? compile_size s
                then to_int (compile_size s * 2) else compile_size s).
  assert (Hlt : (Z.of_nat (length buf) <? size') = true).
  { apply Z.ltb_lt. subst size'.
    destruct (Z.geb_spec (Z.of_nat (length buf)) (compile_size s)); [|lia].
    rewrite Hk in Hmax. destruct (capacity_doubles k Hmax) as [E|Hdbl]; [lia|].
    rewrite to_int_small by (unfold INT_MIN, INT_MAX; lia). lia. }
  destruct (capacity_after k (Z.of_nat (length buf)) (compile_size s)
              Hk Hmax ltac:(lia) Hlt) as (k' & Hk' & Hmax' & Hpos').
  fold size' in Hk', Hmax', Hpos'. rewrite Hlt.
  exists size', k'. rewrite length_app. cbn [length].
  repeat split; [exact Hk'|exact Hmax'|lia].
Qed.

Lemma token_end_line_of ts : token_end (line_of ts ++ " ;") = true.
Proof. destruct ts; reflexivity. Qed.

Lemma length_line_of t ts :
  String.length (line_of (t :: ts) ++ " ;") =
  S (String.length t + String.length (line_of ts ++ " ;")).
Proof.
  cbn [line_of]. rewrite !append_assoc. cbn [append String.length].
  rewrite length_append. reflexivity.
Qed.

(** In compile mode, a token with a slot is stored as that slot. *)
Lemma interpret_token_compiles lb fuel t c s :
  compiling s = true -> cell_of lb (dictionary s) t = Some c ->
  interpret_token lb fuel t s = (let* _ := compile_item c in ret true) s.
Proof.
  intros Hc Hcell. unfold interpret_token, cell_of in *.
  destruct (strtol lb t) as [num endptr]. cbn [fst snd] in Hcell.
  destruct endptr as [|c0 r0].
  - injection Hcell as <-. rewrite Hc. reflexivity.
  - destruct (find_word t (dictionary s)) as [w|]; [|discriminate].
    destruct (word_at (dictionary s) w) as [e|]; [|discriminate].
    destruct (is_immediate e); [discriminate|]. injection Hcell as <-.
    rewrite Hc. reflexivity.
Qed.

(** The loop of [interpret] inside a definition, on tokens that all have
    a slot and on the [;] behind them. *)
Lemma compile_tokens lb fuel d ps es : forall ts cs buf (k : nat) n s,
  find_word ";" d = Some ps -> word_at d ps = Some es ->
  code es = Some p_semicolon -> is_immediate es = true ->
  Forall token_ok ts -> Forall2 (fun t c => cell_of lb d t = Some c) ts cs ->
  dictionary s = d -> compiling s = true -> compile_buffer s = Some buf ->
  compile_size s = 64 * 2 ^ Z.of_nat k -> compile_size s <= 2 ^ 30 ->
  Z.of_nat (length buf) <= compile_size s ->
  Z.of_nat (length buf) + Z.of_nat (length ts) < 2 ^ 30 ->
  input_ptr s = line_of ts ++ " ;" ->
  (String.length (input_ptr s) < n)%nat ->
  interpret_loop lb (S fuel) n s =
  Ok tt (end_compile
           (set_input_ptr ""
              (set_compile_buffer (Some (buf ++ cs)%list) s))).
Proof.
  induction ts as [|t ts IH];
    intros cs buf k n s Hfs Hws Hcs His Hts Hcells Hd Hc Eb Hk Hmax Hle Hlen
      Hin Hn.
  - apply Forall2_nil_inv_l in Hcells as ->. rewrite app_nil_r.
    cbn [line_of append] in Hin. rewrite Hin in Hn. cbn [String.length] in Hn.
    destruct n as [|[|n]]; [lia|lia|].
    erewrite loop_step; cycle 1.
    { apply (next_token_app _ " " ";" ""); [exact Hin|token_side..]. }
    { rewrite (interpret_token_immediate lb (S fuel) ";" ps es);
        [|vm_compute; discriminate
         |simpl_state; rewrite Hd; exact Hfs
         |simpl_state; rewrite Hd; exact Hws|exact His].
      unfold bind. erewrite execute_semicolon;
        [reflexivity|simpl_state; rewrite Hd; exact Hws|exact Hcs|exact Hc]. }
    rewrite loop_stop by (apply next_token_end; unfold end_compile;
      destruct (current_word _); reflexivity).
    f_equal. destruct s. cbn in Eb. subst. reflexivity.
  - apply Forall2_cons_inv_l in Hcells as (c & cs' & Hcell & Hcells & ->).
    apply List.Forall_cons_iff in Hts as [(Hne & Hbf & Hshort) Hts].
    rewrite Hin, length_line_of in Hn.
    destruct n as [|n]; [lia|].
    cbn [length] in Hlen.
    destruct (compile_item_ok c (set_input_ptr (line_of ts ++ " ;") s) buf k)
      as (size' & k' & Ecomp & Hk' & Hmax' & Hle');
      [exact Eb|exact Hk|exact Hmax|exact Hle|lia|].
    erewrite loop_step; cycle 1.
    { apply (next_token_app _ " " t (line_of ts ++ " ;"));
        [rewrite Hin; cbn [line_of]; rewrite !append_assoc; reflexivity
        |reflexivity|exact Hne|exact Hbf|apply token_end_line_of|exact Hshort]. }
    { rewrite (interpret_token_compiles lb (S fuel) t c);
        [|exact Hc|simpl_state; rewrite Hd; exact Hcell].
      unfold bind. rewrite Ecomp. reflexivity. }
    rewrite (IH cs' (buf ++ [c])%list k' n _ Hfs Hws Hcs His Hts Hcells);
      simpl_state;
      [|exact Hd|exact Hc|reflexivity|exact Hk'|exact Hmax'|exact Hle'
       |rewrite length_app; cbn [length]; lia|reflexivity|lia].
    rewrite <- app_assoc. unfold end_compile. simpl_state.
    destruct (current_word s); reflexivity.
Qed.

(** X29.  The body of a definition is its tokens in their order, each
    compiled to its slot: a number to its tagged value, a name to a
    pointer to the entry it finds at that moment, the new entry
    included.  After [: nm t1 ... tn ;], typed outside a definition, the
    dictionary has one more entry, named [nm], with that body; the stack
    and the output are as before.  [:] and [;] are required to have their
    first meaning, and every token to have a slot. *)
Theorem definition_body_is_its_tokens lb fuel nm ts cs s pc ec ps es :
  compiling s = false ->
  find_word ":" (dictionary s) = Some pc ->
  word_at (dictionary s) pc = Some ec -> code ec = Some p_colon ->
  find_word ";" (dictionary s) = Some ps ->
  word_at (dictionary s) ps = Some es -> code es = Some p_semicolon ->
  is_immediate es = true ->
  token_ok nm -> strcasecmp nm ";" <> 0 ->
  Forall token_ok ts ->
  Forall2 (fun t c =>
             cell_of lb (mkWord nm false None None :: dictionary s) t = Some c)
          ts cs ->
  Z.of_nat (length ts) < 2 ^ 30 ->
  exists s',
    interpret lb (S fuel) (": " ++ nm ++ line_of ts ++ " ;") s = Ok tt s' /\
    dictionary s' = mkWord nm false None (Some cs) :: dictionary s /\
    compiling s' = false /\ stack s' = stack s /\ sp s' = sp s /\
    out s' = out s.
Proof.
  intros Hc Hfc Hwc Hcc Hfs Hws Hcs His (Hne & Hbf & Hlen) Hsemi Hts Hcells
    Hmany.
  unfold interpret. cbn [append String.length].
  erewrite loop_step; cycle 1.
  { apply (next_token_app _ "" ":" (" " ++ nm ++ line_of ts ++ " ;"));
      token_side. }
  { rewrite (interpret_token_call lb (S fuel) ":" pc);
      [|vm_compute; discriminate|exact Hfc|exact Hc].
    unfold bind. erewrite execute_colon; [reflexivity|exact Hwc|exact Hcc|].
    apply (next_token_app _ " " nm (line_of ts ++ " ;"));
      [reflexivity|reflexivity|exact Hne|exact Hbf|apply token_end_line_of
      |exact Hlen]. }
  simpl_state. rewrite (new_word_short nm None false Hlen).
  erewrite (compile_tokens lb fuel
              (mkWord nm false None None :: dictionary s) ps es ts cs [] 0);
    [|cbn [find_word name];
      destruct (Z.eqb_spec (strcasecmp nm ";") 0); [contradiction|exact Hfs]
     |apply word_at_cons_old; exact Hws|exact Hcs|exact His|exact Hts
     |exact Hcells|reflexivity|reflexivity|reflexivity|reflexivity
     |cbn; lia|cbn; lia|cbn [length]; lia|reflexivity
     |unfold start_compile; simpl_state; rewrite !length_append; lia].
  eexists. split; [reflexivity|].
  unfold end_compile, start_compile. simpl_state. cbn [set_data app].
  rewrite Nat.eqb_refl. cbn [name is_immediate code].
  repeat split; reflexivity.
Qed.

Lemma definition_body_is_its_tokens_witness :
  exists s',
    interpret LP64 1 (": " ++ "X" ++ line_of ["1"; "DUP"; "+"] ++ " ;") boot =
      Ok tt s' /\
    dictionary s' =
      mkWord "X" false None (Some [tag LP64 1; CWord 5%nat; CWord 0%nat])
        :: dictionary boot /\
    compiling s' = false /\ stack s' = stack boot /\ sp s' = sp boot /\
    out s' = out boot.
Proof.
  refine (definition_body_is_its_tokens LP64 0 "X" ["1"; "DUP"; "+"]
            [tag LP64 1; CWord 5%nat; CWord 0%nat] boot 20%nat _ 21%nat _
            eq_refl eq_refl eq_refl eq_refl eq_refl eq_refl eq_refl eq_refl
            _ _ _ _ _).
  - split; [discriminate|]. split; [reflexivity|]. unfold WORD_SIZE. cbn. lia.
  - vm_compute. discriminate.
  - repeat constructor; try discriminate; unfold WORD_SIZE; cbn; lia.
  - repeat constructor.
  - cbn. lia.
Defined.

Lemma literals_run lb (exec : ptr -> M unit) : forall nums s,
  32 < lb -> Forall (fun n => INT_MIN <= n <= INT_MAX) nums ->
  stack_ok s -> sp s + Z.of_nat (length nums) <= STACK_SIZE ->
  exists s',
    execute_body exec (map (tag lb) nums) s = Ok tt s' /\ stack_ok s' /\
    contents s' = (contents s ++ nums)%list /\ rest s' = rest s.
Proof.
  induction nums as [|n nums IH]; intros s Hlb Hr Hok Hroom.
  - exists s. rewrite app_nil_r. repeat split; try reflexivity; apply Hok.
  - apply List.Forall_cons_iff in Hr as [Hn Hr]. cbn [length] in Hroom.
    destruct (decode_tag lb n Hlb Hn) as (v & Hv & Hodd & Hdec).
    cbn [map execute_body]. rewrite Hv. cbn [execute_cell].
    rewrite Hodd, Hdec.
    destruct (bind_push (fun _ => execute_body exec (map (tag lb) nums)) s n
                Hok ltac:(lia)) as (s1 & E & Hok1 & Hc1 & Hr1).
    rewrite E.
    assert (Hsp1 : sp s1 = sp s + 1).
    { rewrite <- (length_contents s1 Hok1), Hc1, length_app,
        Nat2Z.inj_add, (length_contents s Hok). reflexivity. }
    destruct (IH s1 Hlb Hr Hok1 ltac:(lia)) as (s' & E' & Hok' & Hc' & Hr').
    exists s'. split; [exact E'|]. split; [exact Hok'|].
    split; [rewrite Hc', Hc1, <- app_assoc; reflexivity|congruence].
Qed.

(** X30.  A word whose body is made of numbers pushes them in the order
    they were written, whatever their number: executing an entry whose
    slots are the tagged values of [nums], each an [int], on a stack with
    room for them, leaves [nums] on top of what the stack held and
    changes nothing else.  [long] is required to have more than 32
    bits. *)
Theorem literal_body_pushes_in_order lb fuel p e nums s :
  32 < lb ->
  word_at (dictionary s) p = Some e -> code e = None ->
  data e = Some (map (tag lb) nums) ->
  Forall (fun n => INT_MIN <= n <= INT_MAX) nums ->
  stack_ok s -> sp s + Z.of_nat (length nums) <= STACK_SIZE ->
  exists s',
    execute_word (S fuel) p s = Ok tt s' /\
    contents s' = (contents s ++ nums)%list /\
    core s' = core s /\ input_ptr s' = input_ptr s /\ out s' = out s.
Proof.
  intros Hlb Hw Hc Hd Hr Hok Hroom.
  destruct (literals_run lb (execute_word fuel) nums s Hlb Hr Hok Hroom)
    as (s' & E & _ & Hc' & Hr').
  exists s'. cbn [execute_word]. rewrite Hw, Hc, Hd.
  split; [exact E|]. split; [exact Hc'|].
  unfold rest in Hr'.
  pose proof (f_equal snd Hr') as Ho. pose proof (f_equal fst Hr') as Hci.
  cbn [fst snd] in Ho, Hci.
  split; [exact (f_equal fst Hci)|]. split; [exact (f_equal snd Hci)|exact Ho].
Qed.

Lemma literal_body_pushes_in_order_witness :
  exists s',
    execute_word 1 22%nat after_X_1_2_3 = Ok tt s' /\
    contents s' = (contents after_X_1_2_3 ++ [1; 2; 3])%list /\
    core s' = core after_X_1_2_3 /\
    input_ptr s' = input_ptr after_X_1_2_3 /\ out s' = out after_X_1_2_3.
Proof.
  refine (literal_body_pushes_in_order LP64 0 22%nat _ [1; 2; 3] after_X_1_2_3
            _ eq_refl eq_refl eq_refl _ _ _).
  - unfold LP64. lia.
  - repeat constructor; unfold INT_MIN, INT_MAX; lia.
  - split; [reflexivity|]. cbn. unfold STACK_SIZE. lia.
  - cbn. unfold STACK_SIZE. lia.
Defined.

